(** * GLBModel: normalisation frame, sequential loader and key-swap manager

    Shallow embedding of the static class [GLBModel] of
    [src/js/GLBModel.js] and of its two later revisions (the class with
    [keyModels], twice in [src/unnamed/part_000]).  The three revisions share
    [loadModels] line by line; the first one has no key-swap manager and is
    the instance [keyModels = []] of the later ones.

    The browser runs the class on one thread: every loader callback and every
    event listener runs to completion before the next one starts.  A state of
    the model is the content of the class fields and of the closure variables
    of [loadModels] between two callbacks; a step is one callback.

    Numbers.  A JavaScript number is modelled by [num]: a rational, or one
    of [+Infinity], [-Infinity], [NaN].  The percentage of the overlay is
    computed as the code computes it, in binary64: [fl] rounds the result of
    an operation to the nearest binary64 number.  The geometry of the frame
    (bounding box, scale, offset, positions) is computed over the rationals
    without rounding, and the sign of zero is not modelled (a zero is
    [+0]). *)

From Stdlib Require Import QArith Qcanon Qround Qpower ZArith List Lia Lqa
  Ascii String Bool Arith Permutation SpecFloat.
Import ListNotations.
Open Scope nat_scope.

(** ** JavaScript numbers *)

Module JS.

Inductive num : Type :=
| Fin (q : Qc)
| PInf
| NInf
| NaN.

Definition qz (z : Z) : Qc := Q2Qc (inject_Z z).
Definition of_Z (z : Z) : num := Fin (qz z).
Definition of_nat (n : nat) : num := of_Z (Z.of_nat n).

Definition isFinite (a : num) : bool :=
  match a with Fin _ => true | _ => false end.

(** Sign of a rational: [Gt] positive, [Eq] zero, [Lt] negative. *)
Definition sgn (q : Qc) : comparison := (q ?= qz 0)%Qc.

Definition neg (a : num) : num :=
  match a with
  | Fin q => Fin (- q)%Qc
  | PInf => NInf
  | NInf => PInf
  | NaN => NaN
  end.

(** [a + b] *)
Definition add (a b : num) : num :=
  match a, b with
  | NaN, _ | _, NaN => NaN
  | Fin p, Fin q => Fin (p + q)%Qc
  | PInf, NInf | NInf, PInf => NaN
  | PInf, _ | _, PInf => PInf
  | NInf, _ | _, NInf => NInf
  end.

(** [a - b] *)
Definition sub (a b : num) : num := add a (neg b).

(** An infinity of the sign of [c] times [+Infinity]; [0 * Infinity] is
    [NaN]. *)
Definition signed_inf (c : comparison) : num :=
  match c with Gt => PInf | Lt => NInf | Eq => NaN end.

(** [a * b] *)
Definition mul (a b : num) : num :=
  match a, b with
  | NaN, _ | _, NaN => NaN
  | Fin p, Fin q => Fin (p * q)%Qc
  | Fin p, PInf | PInf, Fin p => signed_inf (sgn p)
  | Fin p, NInf | NInf, Fin p => signed_inf (CompOpp (sgn p))
  | PInf, PInf | NInf, NInf => PInf
  | PInf, NInf | NInf, PInf => NInf
  end.

(** [a / b]; the zero divisor is [+0]: [x / 0] is an infinity of the sign of
    [x], and [0 / 0] is [NaN]. *)
Definition div (a b : num) : num :=
  match a, b with
  | NaN, _ | _, NaN => NaN
  | Fin p, Fin q =>
      match sgn q with
      | Eq => signed_inf (sgn p)
      | _ => Fin (p / q)%Qc
      end
  | Fin _, (PInf | NInf) => Fin (qz 0)
  | (PInf | NInf), (PInf | NInf) => NaN
  | PInf, Fin q => match sgn q with Lt => NInf | _ => PInf end
  | NInf, Fin q => match sgn q with Lt => PInf | _ => NInf end
  end.

(** [a < b]; false as soon as one side is [NaN]. *)
Definition ltb (a b : num) : bool :=
  match a, b with
  | NaN, _ | _, NaN => false
  | Fin p, Fin q => match (p ?= q)%Qc with Lt => true | _ => false end
  | _, NInf => false
  | NInf, _ => true
  | PInf, _ => false
  | Fin _, PInf => true
  end.

(** [a >= b] *)
Definition geb (a b : num) : bool :=
  match a, b with
  | NaN, _ | _, NaN => false
  | _, _ => negb (ltb a b)
  end.

(** [Math.max(a, b)] and [Math.min(a, b)]: [NaN] if an argument is. *)
Definition max2 (a b : num) : num :=
  match a, b with
  | NaN, _ | _, NaN => NaN
  | _, _ => if ltb a b then b else a
  end.

Definition min2 (a b : num) : num :=
  match a, b with
  | NaN, _ | _, NaN => NaN
  | _, _ => if ltb b a then b else a
  end.

(** [Math.max(a, b, c)] *)
Definition Math_max (a b c : num) : num := max2 (max2 a b) c.

(** [Math.round(a)]: the nearest integer, a tie going up. *)
Definition Math_round (a : num) : num :=
  match a with
  | Fin q => of_Z (Qfloor (q + Q2Qc (1 # 2))%Qc)
  | _ => a
  end.

(** *** binary64

    A binary64 number has 53 significant bits.  Between [2^e] and [2^(e+1)]
    the binary64 numbers are the multiples of [2^(e-52)], for [e] from
    [-1022] to [1023]; below [2^-1022] they are the multiples of [2^-1074].
    An operation gives the binary64 number nearest to the exact result, a
    tie going to the one with the even significand, and an infinity when
    that number would be [2^1024] or more. *)

(** The nearest integer, a tie going to the even one. *)
Definition Qrne (q : Q) : Z :=
  let f := Qfloor q in
  match Qcompare (q - inject_Z f) (1 # 2) with
  | Lt => f
  | Gt => (f + 1)%Z
  | Eq => if Z.even f then f else (f + 1)%Z
  end.

(** The exponent of a positive rational: the [e] with [2^e <= q < 2^(e+1)].
    The difference of the lengths of numerator and denominator is [e] or
    [e + 1]. *)
Definition Qlog2 (q : Q) : Z :=
  let d := (Z.log2 (Qnum q) - Z.log2 (Zpos (Qden q)))%Z in
  if Qle_bool (2 ^ d)%Q q then d else (d - 1)%Z.

(** The exponent of the spacing of the binary64 numbers around [q > 0]. *)
Definition ulp_exp (q : Q) : Z := (Z.max (Qlog2 q) (-1022) - 52)%Z.

(** The multiple of that spacing nearest to [q > 0]. *)
Definition nearest (q : Q) : Q :=
  let u := ulp_exp q in (inject_Z (Qrne (q / 2 ^ u)) * 2 ^ u)%Q.

(** The binary64 number nearest to a rational. *)
Definition round64 (q : Qc) : num :=
  match sgn q with
  | Eq => Fin q
  | Gt =>
      let r := nearest q in
      if Qle_bool (2 ^ 1024)%Q r then PInf else Fin (Q2Qc r)
  | Lt =>
      let r := nearest (- q) in
      if Qle_bool (2 ^ 1024)%Q r then NInf else Fin (Q2Qc (- r))
  end.

(** The value of an operation whose exact result is [a]. *)
Definition fl (a : num) : num :=
  match a with
  | Fin q => round64 q
  | _ => a
  end.

(** The binary64 numbers of the Standard Library ([SpecFloat], 53 bits,
    exponents below 1024), to compare [fl] with its operations. *)
Definition SF2num (f : spec_float) : num :=
  match f with
  | S754_zero _ => Fin (qz 0)
  | S754_infinity false => PInf
  | S754_infinity true => NInf
  | S754_nan => NaN
  | S754_finite s m e =>
      Fin (Q2Qc ((if s then -1 # 1 else 1) * inject_Z (Zpos m) * 2 ^ e))
  end.

Definition SF_of_nat (n : nat) : spec_float :=
  binary_normalize 53 1024 (Z.of_nat n) 0 false.

Definition same_num (a b : num) : bool := geb a b && geb b a.

End JS.

Import JS.

(** ** The part of three.js the class calls

    three.js is not part of the repository.  The definitions below follow its
    documented behaviour for the few methods [GLBModel] calls. *)

Module Vector3.

Record t : Type := mk { x : num; y : num; z : num }.

Definition zero : t := mk (of_Z 0) (of_Z 0) (of_Z 0).

(** [v.setScalar(s)] *)
Definition setScalar (s : num) : t := mk s s s.

(** [v.multiplyScalar(s)] *)
Definition multiplyScalar (v : t) (s : num) : t :=
  mk (mul (x v) s) (mul (y v) s) (mul (z v) s).

(** [a.sub(b)] *)
Definition sub (a b : t) : t :=
  mk (JS.sub (x a) (x b)) (JS.sub (y a) (y b)) (JS.sub (z a) (z b)).

(** [target.addVectors(a, b)] and [target.subVectors(a, b)] *)
Definition addVectors (a b : t) : t :=
  mk (add (x a) (x b)) (add (y a) (y b)) (add (z a) (z b)).

Definition subVectors (a b : t) : t := sub a b.

(** [a.min(b)] and [a.max(b)], component by component. *)
Definition min (a b : t) : t :=
  mk (min2 (x a) (x b)) (min2 (y a) (y b)) (min2 (z a) (z b)).

Definition max (a b : t) : t :=
  mk (max2 (x a) (x b)) (max2 (y a) (y b)) (max2 (z a) (z b)).

(** The component-wise product, used for the scale of an object. *)
Definition multiply (a b : t) : t :=
  mk (mul (x a) (x b)) (mul (y a) (y b)) (mul (z a) (z b)).


End Vector3.

(** One node of a loaded hierarchy, as [traverse] sees it. *)
Record Node : Type := mkNode {
  isMesh : bool;
  castShadow : bool;
  receiveShadow : bool
}.

Definition Clip : Type := string.

(** What [GLTFLoader] hands to [onLoad].  [geometry r] is the list of the
    vertices of [gltf.scene] in the frame of its parent once the root has the
    Euler rotation [r], at unit scale and with the root at the origin: the
    rotation itself (sines and cosines) stays on the side of the asset. *)
Record GLTF : Type := mkGLTF {
  gltf_nodes : list Node;
  geometry : Vector3.t -> list Vector3.t;
  animations : list Clip
}.

(** The root of a loaded hierarchy.  [uid] is the identity of the JavaScript
    object: the number of the load request that delivered it.  The scale the
    class sets is uniform, so scaling commutes with the rotation and the
    vertices in world space are [position + scale * geometry rotation]. *)
Record Object3D : Type := mkObject3D {
  uid : nat;
  rotation : Vector3.t;
  scale : Vector3.t;
  position : Vector3.t;
  nodes : list Node;
  shape : Vector3.t -> list Vector3.t
}.

(** [gltf.scene]: [GLTFLoader] builds a new group, not rotated, at scale one
    and at the origin. *)
Definition gltf_scene (id : nat) (g : GLTF) : Object3D :=
  mkObject3D id Vector3.zero (Vector3.setScalar (of_Z 1)) Vector3.zero
    (gltf_nodes g) (geometry g).

Definition set_rotation (r : Vector3.t) (o : Object3D) : Object3D :=
  mkObject3D (uid o) r (scale o) (position o) (nodes o) (shape o).

Definition set_scale (sc : Vector3.t) (o : Object3D) : Object3D :=
  mkObject3D (uid o) (rotation o) sc (position o) (nodes o) (shape o).

Definition set_position (p : Vector3.t) (o : Object3D) : Object3D :=
  mkObject3D (uid o) (rotation o) (scale o) p (nodes o) (shape o).

Definition set_nodes (ns : list Node) (o : Object3D) : Object3D :=
  mkObject3D (uid o) (rotation o) (scale o) (position o) ns (shape o).

(** [o.traverse(f)] calls [f] on every node of the hierarchy. *)
Definition traverse (f : Node -> Node) (o : Object3D) : Object3D :=
  set_nodes (map f (nodes o)) o.

(** The vertices of [o] in world space. *)
Definition world_points (o : Object3D) : list Vector3.t :=
  map (fun p => Vector3.addVectors (position o) (Vector3.multiply (scale o) p))
      (shape o (rotation o)).

Module Box3.

Record t : Type := mk { min : Vector3.t; max : Vector3.t }.

(** [box.makeEmpty()] *)
Definition makeEmpty : t :=
  mk (Vector3.setScalar PInf) (Vector3.setScalar NInf).

(** [box.expandByPoint(p)] *)
Definition expandByPoint (b : t) (p : Vector3.t) : t :=
  mk (Vector3.min (min b) p) (Vector3.max (max b) p).

(** [box.isEmpty()] *)
Definition isEmpty (b : t) : bool :=
  ltb (Vector3.x (max b)) (Vector3.x (min b))
  || ltb (Vector3.y (max b)) (Vector3.y (min b))
  || ltb (Vector3.z (max b)) (Vector3.z (min b)).

(** [box.getCenter(target)] *)
Definition getCenter (b : t) : Vector3.t :=
  if isEmpty b then Vector3.zero
  else Vector3.multiplyScalar (Vector3.addVectors (min b) (max b))
         (Fin (Q2Qc (1 # 2))).

(** [box.getSize(target)] *)
Definition getSize (b : t) : Vector3.t :=
  if isEmpty b then Vector3.zero
  else Vector3.subVectors (max b) (min b).

(** [new THREE.Box3().setFromObject(o)] *)
Definition setFromObject (o : Object3D) : t :=
  fold_left expandByPoint (world_points o) makeEmpty.

End Box3.

Inductive LoopMode : Type := LoopOnce | LoopRepeat | LoopPingPong.

(** [mixer.clipAction(clip).setLoop(mode, repetitions).play()] *)
Record Action : Type := mkAction {
  clip : Clip;
  loop : LoopMode;
  repetitions : num;
  playing : bool
}.

(** [new THREE.AnimationMixer(root)] with its actions and its local time. *)
Record Mixer : Type := mkMixer {
  root : nat;
  actions : list Action;
  time : num
}.

(** [mixer.update(delta)] *)
Definition update (delta : num) (m : Mixer) : Mixer :=
  mkMixer (root m) (actions m) (add (time m) delta).

(** ** Configuration and state of the class *)

(** A path handed to the loader: a string, or [undefined] ([None]) when the
    configuration misses it or the array is read out of range. *)
Definition path : Type := option string.

(** [{ off: ..., on: ... }] *)
Record KeyPaths : Type := mkKeyPaths { off : path; on : path }.

Inductive SwapState : Type := State_on | State_off.

(** [paths[state]] *)
Definition paths_get (p : KeyPaths) (st : SwapState) : path :=
  match st with State_on => on p | State_off => off p end.

(** One entry of [this.keyModels]. *)
Record KeySlot : Type := mkKeySlot {
  paths : KeyPaths;
  mesh : option Object3D;
  pressed : bool
}.

(** A JavaScript object used as a map from key codes: its own properties in
    insertion order.  This is what [o[k]], [o[k] = v] and [for (k in o)]
    see as long as the names are plain ([plain_name] below): a name every
    object inherits from [Object.prototype] is found by [o[k]] in an object
    that does not have it, and [for (k in o)] gives the names that are
    integer indices first, in ascending order, whenever they were added.
    The names of physical keys ([KeyboardEvent.code]: ['Digit1'], ['KeyA'],
    ['Space']) are plain. *)
Definition JSObject (V : Type) : Type := list (string * V).

(** The properties of [Object.prototype]. *)
Definition Object_prototype : list string :=
  ["constructor"; "__proto__"; "hasOwnProperty"; "isPrototypeOf";
   "propertyIsEnumerable"; "toLocaleString"; "toString"; "valueOf";
   "__defineGetter__"; "__defineSetter__"; "__lookupGetter__";
   "__lookupSetter__"]%string.

Definition inherited (k : string) : bool :=
  existsb (String.eqb k) Object_prototype.

(** The decimal notation of a natural number: ['0'], ['7'], ['10'], not
    ['07']. *)
Definition digit (c : ascii) : bool :=
  (48 <=? nat_of_ascii c) && (nat_of_ascii c <=? 57).

Definition integer_index (k : string) : bool :=
  match k with
  | EmptyString => false
  | String c rest =>
      forallb digit (list_ascii_of_string k)
      && (negb (Ascii.eqb c "0") || String.eqb rest "")
  end.

(** A name that is neither inherited nor an integer index. *)
Definition plain_name (k : string) : bool :=
  negb (inherited k) && negb (integer_index k).

(** [o[k]], for a plain name [k]: the own property. *)
Fixpoint get {V : Type} (o : JSObject V) (k : string) : option V :=
  match o with
  | [] => None
  | (k', v) :: rest => if String.eqb k' k then Some v else get rest k
  end.

(** [o[k] = v], for a plain name [k]: an existing property keeps its place,
    a new one goes last. *)
Fixpoint put {V : Type} (o : JSObject V) (k : string) (v : V) : JSObject V :=
  match o with
  | [] => [(k, v)]
  | (k', v') :: rest =>
      if String.eqb k' k then (k', v) :: rest else (k', v') :: put rest k v
  end.

(** The options of [init] that reach the loaders and the frame loop; the
    others only configure the renderer, the camera, the lights and the
    controls. *)
Record Config : Type := mkConfig {
  cfg_modelPath : path;
  cfg_modelPaths : option (list path);
  cfg_keyModels : option (JSObject KeyPaths);
  cfg_autoRotate : bool;
  cfg_rotationSpeed : num;
  cfg_modelRotation : option Vector3.t;
  cfg_enabledShadow : bool
}.

(** The two closures a call of [loader.load] registers, named by the place of
    the call: the base model, the [i]-th further model, a key model. *)
Inductive Callback : Type :=
| CbBase
| CbSecondary (i : nat)
| CbKey (code : string) (p : path).

(** A call [loader.load(url, onLoad, undefined, onError)]. *)
Record Request : Type := mkRequest { url : path; cb : Callback }.

Inductive LoadingText : Type :=
| Finalizing
| Loading (pct : num).

(** What reaches the console: the two [console.error] messages, and a
    [TypeError] raised inside a callback (what the loader does with it
    depends on its version). *)
Inductive LogEntry : Type :=
| Error_loading (p : path)
| Error_loading_keyModel (code : string) (p : path)
| TypeError (id : nat).

(** The static fields of the class, the closure variable [loaded] of
    [loadModels] ([total] is [length modelPaths]), the three properties of
    the loading overlay the class writes, the console, and the loader: every
    call of [loader.load] so far ([requests], a request is named by its
    index) and the requests still in flight ([pending]).  [scene] lists the
    loaded models among [scene.children]; the lights, the helper and the
    shadow plane of [initScene] are never removed and are left out. *)
Record State : Type := mkState {
  modelRotation : Vector3.t;
  enabledShadow : bool;
  autoRotate : bool;
  rotationSpeed : num;
  modelPaths : list path;
  keyModelsConfig : JSObject KeyPaths;
  keyModels : JSObject KeySlot;
  _globalScale : option num;
  _globalOffset : option Vector3.t;
  scene : list Object3D;
  scene_rotation_y : num;
  mixers : list Mixer;
  loaded : nat;
  progress_width : option num;
  loadingText : option LoadingText;
  loadingScreen_hidden : bool;
  console : list LogEntry;
  requests : list Request;
  pending : list nat
}.

Definition total (s : State) : nat := List.length (modelPaths s).

Section Setters.
Variable s : State.

Definition set_keyModels (v : JSObject KeySlot) : State :=
  mkState (modelRotation s) (enabledShadow s) (autoRotate s) (rotationSpeed s)
    (modelPaths s) (keyModelsConfig s) v (_globalScale s) (_globalOffset s)
    (scene s) (scene_rotation_y s) (mixers s) (loaded s) (progress_width s)
    (loadingText s) (loadingScreen_hidden s) (console s) (requests s)
    (pending s).

Definition set_frame (sc : num) (off : Vector3.t) : State :=
  mkState (modelRotation s) (enabledShadow s) (autoRotate s) (rotationSpeed s)
    (modelPaths s) (keyModelsConfig s) (keyModels s) (Some sc) (Some off)
    (scene s) (scene_rotation_y s) (mixers s) (loaded s) (progress_width s)
    (loadingText s) (loadingScreen_hidden s) (console s) (requests s)
    (pending s).

Definition set_scene (v : list Object3D) : State :=
  mkState (modelRotation s) (enabledShadow s) (autoRotate s) (rotationSpeed s)
    (modelPaths s) (keyModelsConfig s) (keyModels s) (_globalScale s)
    (_globalOffset s) v (scene_rotation_y s) (mixers s) (loaded s)
    (progress_width s) (loadingText s) (loadingScreen_hidden s) (console s)
    (requests s) (pending s).

Definition set_scene_rotation_y (v : num) : State :=
  mkState (modelRotation s) (enabledShadow s) (autoRotate s) (rotationSpeed s)
    (modelPaths s) (keyModelsConfig s) (keyModels s) (_globalScale s)
    (_globalOffset s) (scene s) v (mixers s) (loaded s) (progress_width s)
    (loadingText s) (loadingScreen_hidden s) (console s) (requests s)
    (pending s).

Definition set_mixers (v : list Mixer) : State :=
  mkState (modelRotation s) (enabledShadow s) (autoRotate s) (rotationSpeed s)
    (modelPaths s) (keyModelsConfig s) (keyModels s) (_globalScale s)
    (_globalOffset s) (scene s) (scene_rotation_y s) v (loaded s)
    (progress_width s) (loadingText s) (loadingScreen_hidden s) (console s)
    (requests s) (pending s).

Definition set_loaded (v : nat) : State :=
  mkState (modelRotation s) (enabledShadow s) (autoRotate s) (rotationSpeed s)
    (modelPaths s) (keyModelsConfig s) (keyModels s) (_globalScale s)
    (_globalOffset s) (scene s) (scene_rotation_y s) (mixers s) v
    (progress_width s) (loadingText s) (loadingScreen_hidden s) (console s)
    (requests s) (pending s).

Definition set_progress (w : num) (t : LoadingText) : State :=
  mkState (modelRotation s) (enabledShadow s) (autoRotate s) (rotationSpeed s)
    (modelPaths s) (keyModelsConfig s) (keyModels s) (_globalScale s)
    (_globalOffset s) (scene s) (scene_rotation_y s) (mixers s) (loaded s)
    (Some w) (Some t) (loadingScreen_hidden s) (console s) (requests s)
    (pending s).

Definition set_loadingScreen_hidden (v : bool) : State :=
  mkState (modelRotation s) (enabledShadow s) (autoRotate s) (rotationSpeed s)
    (modelPaths s) (keyModelsConfig s) (keyModels s) (_globalScale s)
    (_globalOffset s) (scene s) (scene_rotation_y s) (mixers s) (loaded s)
    (progress_width s) (loadingText s) v (console s) (requests s)
    (pending s).

Definition set_console (v : list LogEntry) : State :=
  mkState (modelRotation s) (enabledShadow s) (autoRotate s) (rotationSpeed s)
    (modelPaths s) (keyModelsConfig s) (keyModels s) (_globalScale s)
    (_globalOffset s) (scene s) (scene_rotation_y s) (mixers s) (loaded s)
    (progress_width s) (loadingText s) (loadingScreen_hidden s) v
    (requests s) (pending s).

Definition set_loader (rs : list Request) (ps : list nat) : State :=
  mkState (modelRotation s) (enabledShadow s) (autoRotate s) (rotationSpeed s)
    (modelPaths s) (keyModelsConfig s) (keyModels s) (_globalScale s)
    (_globalOffset s) (scene s) (scene_rotation_y s) (mixers s) (loaded s)
    (progress_width s) (loadingText s) (loadingScreen_hidden s) (console s)
    rs ps.
End Setters.

(** ** The loader, the scene and the callbacks *)

(** [loader.load(p, onLoad, undefined, onError)]: the request is recorded and
    in flight; nothing else happens before it settles. *)
Definition load (p : path) (c : Callback) (s : State) : State :=
  set_loader s (requests s ++ [mkRequest p c])
               (pending s ++ [List.length (requests s)]).

(** [scene.add(o)] for an object without a parent. *)
Definition scene_add (o : Object3D) (s : State) : State :=
  set_scene s (scene s ++ [o]).

(** [children.splice(children.indexOf(o), 1)] when [o] is a child. *)
Fixpoint remove_child (o : Object3D) (l : list Object3D) : list Object3D :=
  match l with
  | [] => []
  | c :: rest => if uid c =? uid o then rest else c :: remove_child o rest
  end.

(** [scene.remove(o)] *)
Definition scene_remove (o : Object3D) (s : State) : State :=
  set_scene s (remove_child o (scene s)).

(** A [TypeError] leaves the callback at once. *)
Definition throw (id : nat) (s : State) : State :=
  set_console s (console s ++ [TypeError id]).

(** [(n) => { if (n.isMesh) { n.castShadow = b; n.receiveShadow = b; } }] *)
Definition shadow_flags (b : bool) (n : Node) : Node :=
  if isMesh n then mkNode (isMesh n) b b else n.

(** [if (gltf.animations?.length) { ... }]: one mixer on the root, and for
    every clip an action that repeats for ever and plays. *)
Definition bind_animations (m : Object3D) (g : GLTF) (s : State) : State :=
  match animations g with
  | [] => s
  | clips =>
      set_mixers s
        (mixers s ++
           [mkMixer (uid m)
              (map (fun c => mkAction c LoopRepeat PInf true) clips)
              (of_Z 0)])
  end.

(** A field that is still [undefined] reads as [NaN] in arithmetic. *)
Definition to_num (v : option num) : num :=
  match v with Some a => a | None => NaN end.

(** [this._loadKeyModel(code, path)] *)
Definition _loadKeyModel (code : string) (p : path) (s : State) : State :=
  load p (CbKey code p) s.

(** [this._swapKeyModel(code, state)] *)
Definition _swapKeyModel (code : string) (st : SwapState) (s : State) : State :=
  match get (keyModels s) code with
  | Some km => _loadKeyModel code (paths_get (paths km) st) s
  | None => s
  end.

(** [this._initKeyModels()] *)
Definition _initKeyModels (s : State) : State :=
  fold_left
    (fun st code =>
       match get (keyModels st) code with
       | Some km => _loadKeyModel code (off (paths km)) st
       | None => st
       end)
    (map fst (keyModels s)) s.

(** [Math.round((loaded / total) * 100)]: the quotient and the product are
    binary64 operations; [Math.round] gives [floor(x + 0.5)] of the value it
    is given.  A count is an integer below [2^53], so it is a binary64
    number as it stands. *)
Definition percent (ld tot : nat) : num :=
  Math_round (fl (mul (fl (div (of_nat ld) (of_nat tot))) (of_Z 100))).

(** [this._updateProgress(loaded, total)] *)
Definition _updateProgress (ld tot : nat) (s : State) : State :=
  let pct := percent ld tot in
  let s1 :=
    set_progress s pct (if geb pct (of_Z 100) then Finalizing else Loading pct)
  in
  if ld =? tot then _initKeyModels (set_loadingScreen_hidden s1 true) else s1.

(** Lines 205-211 of [loadModels]: the bounding box of the rotated base model
    and the scale and offset taken from it. *)
Definition maxDim (model0 : Object3D) : num :=
  let size := Box3.getSize (Box3.setFromObject model0) in
  Math_max (Vector3.x size) (Vector3.y size) (Vector3.z size).

Definition frame_scale (model0 : Object3D) : num :=
  div (of_Z 2) (maxDim model0).

Definition frame_offset (model0 : Object3D) : Vector3.t :=
  Vector3.multiplyScalar (Box3.getCenter (Box3.setFromObject model0))
    (frame_scale model0).

(** The loop [for (let i = 1; i < paths.length; i++) loader.load(paths[i], ...)] *)
Definition load_secondary (s : State) : State :=
  fold_left
    (fun st i => load (nth i (modelPaths st) None) (CbSecondary i) st)
    (seq 1 (List.length (modelPaths s) - 1)) s.

(** The first part of the [onLoad] closure of the base model, up to and
    including [this._updateProgress(loaded, total)]. *)
Definition onLoad_base_place (id : nat) (g : GLTF) (s : State) : State :=
  let model0 := set_rotation (modelRotation s) (gltf_scene id g) in
  let scale := frame_scale model0 in
  let offset := frame_offset model0 in
  let s1 := set_frame s scale offset in
  let model0 := set_scale (Vector3.setScalar scale) model0 in
  let model0 := set_position (Vector3.sub (position model0) offset) model0 in
  let model0 := traverse (shadow_flags (enabledShadow s1)) model0 in
  let s2 := scene_add model0 s1 in
  let s3 := bind_animations model0 g s2 in
  let s4 := set_loaded s3 (S (loaded s3)) in
  _updateProgress (loaded s4) (total s4) s4.

(** The [onLoad] closure of the base model. *)
Definition onLoad_base (id : nat) (g : GLTF) (s : State) : State :=
  load_secondary (onLoad_base_place id g s).

(** The [onLoad] closure of [paths[i]], [i >= 1].  [position.sub(undefined)]
    raises a [TypeError]. *)
Definition onLoad_secondary (id : nat) (g : GLTF) (s : State) : State :=
  let m2 := set_rotation (modelRotation s) (gltf_scene id g) in
  let m2 := set_scale (Vector3.setScalar (to_num (_globalScale s))) m2 in
  match _globalOffset s with
  | None => throw id s
  | Some offset =>
      let m2 := set_position (Vector3.sub (position m2) offset) m2 in
      let m2 := traverse (shadow_flags (enabledShadow s)) m2 in
      let s1 := scene_add m2 s in
      let s2 := bind_animations m2 g s1 in
      let s3 := set_loaded s2 (S (loaded s2)) in
      _updateProgress (loaded s3) (total s3) s3
  end.

(** [km.mesh = m] and [km.pressed = b] on the entry [km] of [keyModels]. *)
Definition set_mesh (m : Object3D) (km : KeySlot) : KeySlot :=
  mkKeySlot (paths km) (Some m) (pressed km).

Definition set_pressed (b : bool) (km : KeySlot) : KeySlot :=
  mkKeySlot (paths km) (mesh km) b.

(** The [onLoad] closure of [_loadKeyModel(code, path)] once [prev] is known:
    the previous mesh leaves the scene, the new one is placed with the global
    rotation, scale and offset, enters the scene and becomes the mesh of the
    slot [km].  [position.sub(undefined)] raises a [TypeError]. *)
Definition swap_in (prev : option Object3D) (km : KeySlot) (id : nat)
  (code : string) (g : GLTF) (s : State) : State :=
  let s1 :=
    match prev with
    | Some prev => scene_remove prev s
    | None => s
    end in
  let m := set_rotation (modelRotation s1) (gltf_scene id g) in
  let m := set_scale (Vector3.setScalar (to_num (_globalScale s1))) m in
  match _globalOffset s1 with
  | None => throw id s1
  | Some offset =>
      let m := set_position (Vector3.sub (position m) offset) m in
      let m := traverse (shadow_flags (enabledShadow s1)) m in
      let s2 := scene_add m s1 in
      let s3 := set_keyModels s2 (put (keyModels s2) code (set_mesh m km)) in
      bind_animations m g s3
  end.

(** The [onLoad] closure of [_loadKeyModel(code, path)]: [prev] is read from
    the slot when the asset arrives.  Reading [.mesh] of a missing entry
    raises a [TypeError]. *)
Definition onLoad_key (id : nat) (code : string) (g : GLTF) (s : State)
  : State :=
  match get (keyModels s) code with
  | None => throw id s
  | Some km => swap_in (mesh km) km id code g s
  end.

(** The [onError] closures: one [console.error] each. *)
Definition onError (c : Callback) (s : State) : State :=
  match c with
  | CbBase =>
      set_console s (console s ++ [Error_loading (nth 0 (modelPaths s) None)])
  | CbSecondary i =>
      set_console s (console s ++ [Error_loading (nth i (modelPaths s) None)])
  | CbKey code p =>
      set_console s (console s ++ [Error_loading_keyModel code p])
  end.

(** The [keydown] and [keyup] listeners of [_setupKeyModels]. *)
Definition keydown (code : string) (s : State) : State :=
  match get (keyModels s) code with
  | Some km =>
      if negb (pressed km)
      then _swapKeyModel code State_on
             (set_keyModels s (put (keyModels s) code (set_pressed true km)))
      else s
  | None => s
  end.

Definition keyup (code : string) (s : State) : State :=
  match get (keyModels s) code with
  | Some km =>
      if pressed km
      then _swapKeyModel code State_off
             (set_keyModels s (put (keyModels s) code (set_pressed false km)))
      else s
  | None => s
  end.

(** One turn of [animate]: the mixers advance by the delta of the clock and
    the scene turns when [autoRotate] is set (the controls, the camera and
    the renderer are not part of the state). *)
Definition animate (delta : num) (s : State) : State :=
  let s1 := set_mixers s (map (update delta) (mixers s)) in
  if autoRotate s1
  then set_scene_rotation_y s1 (add (scene_rotation_y s1) (rotationSpeed s1))
  else s1.

(** ** Initialisation *)

(** [loadModels()]: the closure variable [loaded] starts at 0 and the base
    model is requested. *)
Definition loadModels (s : State) : State :=
  load (nth 0 (modelPaths s) None) CbBase (set_loaded s 0).

(** [_setupKeyModels()]: one entry per configured key (the two listeners are
    [keydown] and [keyup] above). *)
Definition _setupKeyModels (s : State) : State :=
  fold_left
    (fun st code =>
       match get (keyModelsConfig st) code with
       | Some p => set_keyModels st (put (keyModels st) code (mkKeySlot p None false))
       | None => st
       end)
    (map fst (keyModelsConfig s)) s.

(** [GLBModel.init(config)].  The first turn of [animate] runs inside [init];
    the clock starts with it and its first delta is 0. *)
Definition init (config : Config) : State :=
  let s :=
    mkState
      (match cfg_modelRotation config with
       | Some r => r
       | None => Vector3.zero
       end)
      (cfg_enabledShadow config)
      (cfg_autoRotate config)
      (cfg_rotationSpeed config)
      (match cfg_modelPaths config with
       | Some ps => ps
       | None => [cfg_modelPath config]
       end)
      (match cfg_keyModels config with Some k => k | None => [] end)
      []
      None None
      [] (of_Z 0) []
      0 None None false
      [] [] [] in
  animate (of_Z 0) (_setupKeyModels (loadModels s)).

(** ** Events and steps *)

(** What the browser can deliver between two callbacks: a request settles
    (with an asset or with an error), a key goes down or up, a frame is due
    ([delta] is what [clock.getDelta()] returns). *)
Inductive Event : Type :=
| LoadOk (id : nat) (g : GLTF)
| LoadErr (id : nat)
| KeyDown (code : string)
| KeyUp (code : string)
| Frame (delta : num).

(** The request [id] has settled. *)
Definition settle (id : nat) (s : State) : State :=
  set_loader s (requests s) (List.remove Nat.eq_dec id (pending s)).

Definition is_pending (id : nat) (s : State) : bool :=
  existsb (Nat.eqb id) (pending s).

(** One callback.  A request settles once, and only while it is in flight:
    the step is [None] otherwise. *)
Definition step (s : State) (e : Event) : option State :=
  match e with
  | LoadOk id g =>
      if is_pending id s then
        match nth_error (requests s) id with
        | Some r =>
            Some match cb r with
                 | CbBase => onLoad_base id g (settle id s)
                 | CbSecondary _ => onLoad_secondary id g (settle id s)
                 | CbKey code _ => onLoad_key id code g (settle id s)
                 end
        | None => None
        end
      else None
  | LoadErr id =>
      if is_pending id s then
        match nth_error (requests s) id with
        | Some r => Some (onError (cb r) (settle id s))
        | None => None
        end
      else None
  | KeyDown code => Some (keydown code s)
  | KeyUp code => Some (keyup code s)
  | Frame delta => Some (animate delta s)
  end.

(** A run: the events of a list, one callback after the other. *)
Fixpoint run (s : State) (tr : list Event) : option State :=
  match tr with
  | [] => Some s
  | e :: rest =>
      match step s e with
      | Some s' => run s' rest
      | None => None
      end
  end.

(** The states a session can be in. *)
Inductive reachable (config : Config) : State -> Prop :=
| reach_init : reachable config (init config)
| reach_step s e s' :
    reachable config s -> step s e = Some s' -> reachable config s'.

(** ** Notions the statements use *)

(** [rs] requested in order, one call of [loader.load] each. *)
Definition load_all (rs : list Request) (s : State) : State :=
  set_loader s (requests s ++ rs)
    (pending s ++ seq (List.length (requests s)) (List.length rs)).

(** The requests of [_initKeyModels] and of the loop of [loadModels]. *)
Definition key_requests (s : State) : list Request :=
  flat_map
    (fun code =>
       match get (keyModels s) code with
       | Some km => [mkRequest (off (paths km)) (CbKey code (off (paths km)))]
       | None => []
       end)
    (map fst (keyModels s)).

Definition secondary_requests (s : State) : list Request :=
  map (fun i => mkRequest (nth i (modelPaths s) None) (CbSecondary i))
      (seq 1 (List.length (modelPaths s) - 1)).

(** A model as the callbacks place it: rotated, scaled, moved by the offset,
    its meshes flagged for shadows. *)
Definition placed (id : nat) (g : GLTF) (rot : Vector3.t) (sc : num)
  (offset : Vector3.t) (shadow : bool) : Object3D :=
  traverse (shadow_flags shadow)
    (set_position (Vector3.sub Vector3.zero offset)
       (set_scale (Vector3.setScalar sc)
          (set_rotation rot (gltf_scene id g)))).

(** The mixer [bind_animations] adds for [g], if any. *)
Definition new_mixers (id : nat) (g : GLTF) : list Mixer :=
  match animations g with
  | [] => []
  | clips =>
      [mkMixer id (map (fun c => mkAction c LoopRepeat PInf true) clips) (of_Z 0)]
  end.

(** The request number [id] is a call of [_loadKeyModel(code, _)]. *)
Definition key_request (s : State) (code : string) (id : nat) : bool :=
  match nth_error (requests s) id with
  | Some (mkRequest _ (CbKey c _)) => String.eqb c code
  | _ => false
  end.

(** The request number [id] is a call of [loader.load] in [loadModels]. *)
Definition model_request (s : State) (id : nat) : bool :=
  match nth_error (requests s) id with
  | Some (mkRequest _ (CbKey _ _)) => false
  | Some _ => true
  | None => false
  end.


(** The mesh of the slot [code], if the slot exists and has one. *)
Definition slot_mesh (s : State) (code : string) : option Object3D :=
  match get (keyModels s) code with
  | Some km => mesh km
  | None => None
  end.

(** [o] carries the rotation of the configuration, the global scale and the
    global offset, and its meshes carry the shadow flags. *)
Definition framed (s : State) (o : Object3D) : Prop :=
  exists sc offset,
    _globalScale s = Some sc /\ _globalOffset s = Some offset /\
    rotation o = modelRotation s /\
    scale o = Vector3.setScalar sc /\
    position o = Vector3.sub Vector3.zero offset /\
    forall n, In n (nodes o) -> isMesh n = true ->
              castShadow n = enabledShadow s /\ receiveShadow n = enabledShadow s.

(** The requests of [loadModels] still in flight. *)
Definition model_pending (s : State) : list nat :=
  filter (model_request s) (pending s).

(** The requests of [loadModels] that delivered their asset in a run. *)
Definition delivered (s : State) (tr : list Event) : list Event :=
  filter (fun e => match e with
                   | LoadOk id _ => model_request s id
                   | _ => false
                   end) tr.

(** [round(100 * k / n)], a tie going up. *)
Definition round_pct (k n : nat) : Z :=
  Qfloor (inject_Z (100 * Z.of_nat k) / inject_Z (Z.of_nat n) + (1 # 2))%Q.

(** The fields [init] fixes for the session. *)
Definition same_settings (s s' : State) : Prop :=
  modelRotation s' = modelRotation s /\
  enabledShadow s' = enabledShadow s /\
  autoRotate s' = autoRotate s /\
  rotationSpeed s' = rotationSpeed s /\
  modelPaths s' = modelPaths s /\
  keyModelsConfig s' = keyModelsConfig s.

(** [is_model r]: [r] is a call of [loader.load] in [loadModels]. *)
Definition is_model (r : Request) : bool :=
  match cb r with CbKey _ _ => false | _ => true end.

(** The state the [onLoad] closure of a model of [loadModels] leaves when
    the frame is [sc], [offset]: the model is placed, in the scene, animated
    and counted, the progress is reported, and when the count reaches the
    total the overlay is hidden and [_initKeyModels] has run. *)
Definition model_placed (id : nat) (g : GLTF) (sc : num) (offset : Vector3.t)
  (s : State) : State :=
  let ld := S (loaded s) in
  let pct := percent ld (total s) in
  load_all (if ld =? total s then key_requests s else [])
    (set_loadingScreen_hidden
       (set_progress
          (set_loaded
             (set_mixers
                (set_scene s
                   (scene s
                    ++ [placed id g (modelRotation s) sc offset
                          (enabledShadow s)]))
                (mixers s ++ new_mixers id g))
             ld)
          pct (if geb pct (of_Z 100) then Finalizing else Loading pct))
       (if ld =? total s then true else loadingScreen_hidden s)).

(** The state the [onLoad] closure of a key model leaves when the frame is
    [sc], [offset] and the slot is [km]. *)
Definition key_placed (id : nat) (code : string) (km : KeySlot) (g : GLTF)
  (sc : num) (offset : Vector3.t) (s : State) : State :=
  let m := placed id g (modelRotation s) sc offset (enabledShadow s) in
  set_mixers
    (set_keyModels
       (set_scene s
          (match mesh km with
           | Some prev => remove_child prev (scene s)
           | None => scene s
           end ++ [m]))
       (put (keyModels s) code (set_mesh m km)))
    (mixers s ++ new_mixers id g).

(** The pair of paths the configuration gives for a key code, if any. *)
Definition configured (config : Config) (code : string) : option KeyPaths :=
  match cfg_keyModels config with
  | Some k => get k code
  | None => None
  end.

(** Between [s] and [s'] the loader was called for [rs], in this order, and
    for nothing else. *)
Definition schedules (s s' : State) (rs : list Request) : Prop :=
  requests s' = requests s ++ rs /\
  pending s' = pending s ++ seq (List.length (requests s)) (List.length rs).

(** The [pressed] flag of the slot [code], if the slot exists. *)
Definition slot_pressed (s : State) (code : string) : option bool :=
  option_map pressed (get (keyModels s) code).

(** The slot [code], configured with [{off: A, on: B}], reacts to edges only:
    when it is not pressed, a key-down presses it and schedules one load of
    [B] and a key-up does nothing; when it is pressed, a key-down does
    nothing and a key-up releases it and schedules one load of [A]. *)
Definition edge_triggered (s : State) (code : string) (A B : path) : Prop :=
  match slot_pressed s code with
  | Some false =>
      (exists s', step s (KeyDown code) = Some s' /\
                  slot_pressed s' code = Some true /\
                  schedules s s' [mkRequest B (CbKey code B)]) /\
      step s (KeyUp code) = Some s
  | Some true =>
      step s (KeyDown code) = Some s /\
      (exists s', step s (KeyUp code) = Some s' /\
                  slot_pressed s' code = Some false /\
                  schedules s s' [mkRequest A (CbKey code A)])
  | None => False
  end.

(** A configuration for examples: two models, one key. *)
Definition car_config : Config :=
  mkConfig None
    (Some [Some "base.glb"; Some "wheels.glb"]%string)
    (Some [("Digit1", mkKeyPaths (Some "light_off.glb") (Some "light_on.glb"))]%string)
    true (Fin (Q2Qc (1 # 500))) None false.

(** An asset for examples: two opposite corners of a box of size 4 x 2 x 2,
    one mesh, one clip. *)
Definition box_asset : GLTF :=
  mkGLTF [mkNode true false false]
    (fun _ => [Vector3.mk (of_Z 0) (of_Z 0) (of_Z 0);
               Vector3.mk (of_Z 4) (of_Z 2) (of_Z 2)])
    ["spin"%string].

(** The state a list of events leaves, for examples where every event of the
    list can happen. *)
Definition after (config : Config) (tr : list Event) : State :=
  match run (init config) tr with
  | Some s => s
  | None => init config
  end.

(** A failed load of a key model changes nothing but the console. *)
Definition only_logged (s s' : State) (code : string) (p : path) : Prop :=
  keyModels s' = keyModels s /\ scene s' = scene s /\ mixers s' = mixers s /\
  console s' = console s ++ [Error_loading_keyModel code p].

(** The slot [code] is pressed, nothing is in flight, and the mesh of the
    slot is the one loaded from its [off] path, which is not its [on] path. *)
Definition pressed_shows_off (s : State) (code : string) : Prop :=
  pending s = [] /\
  exists km m r,
    get (keyModels s) code = Some km /\ pressed km = true /\
    mesh km = Some m /\ In m (scene s) /\
    nth_error (requests s) (uid m) = Some r /\
    url r = off (paths km) /\ off (paths km) <> on (paths km).

(** Two states for examples: both models and the [off] variant of the key
    model are loaded and the key is down; then the load of the [on] variant
    has failed. *)
Definition light_requested : State :=
  after car_config
    [LoadOk 0 box_asset; LoadOk 1 box_asset; LoadOk 2 box_asset;
     KeyDown "Digit1"].

Definition light_failed : State :=
  after car_config
    [LoadOk 0 box_asset; LoadOk 1 box_asset; LoadOk 2 box_asset;
     KeyDown "Digit1"; LoadErr 3].

(** The session never got past the base model: no frame, no model counted
    or in the scene, nothing reported, the overlay still shown, no further
    model ever requested, the base model requested once. *)
Definition stuck_at_base (s : State) : Prop :=
  _globalScale s = None /\ _globalOffset s = None /\
  loaded s = 0 /\ scene s = [] /\
  progress_width s = None /\ loadingScreen_hidden s = false /\
  (forall r i, In r (requests s) -> cb r <> CbSecondary i) /\
  (forall id r, nth_error (requests s) id = Some r -> cb r = CbBase -> id = 0) /\
  In (Error_loading (nth 0 (modelPaths s) None)) (console s).

(** A state for examples: a key goes down, the load of the base model fails,
    the key model arrives, the key goes up. *)
Definition base_failed_events : list Event :=
  [KeyDown "Digit1"] ++ LoadErr 0 :: [LoadOk 1 box_asset; KeyUp "Digit1"].

Definition base_failed : State := after car_config base_failed_events.

(** The Normalization Frame: [this._globalScale] and [this._globalOffset]. *)
Definition frame (s : State) : option num * option Vector3.t :=
  (_globalScale s, _globalOffset s).

(** The event that delivers the base model (its request is number 0). *)
Definition base_delivered (e : Event) : bool :=
  match e with
  | LoadOk 0 _ => true
  | _ => false
  end.

(** The base model of a session when [g] is delivered for it, rotated as
    the configuration says, and the frame computed from it. *)
Definition base_model (config : Config) (g : GLTF) : Object3D :=
  set_rotation (modelRotation (init config)) (gltf_scene 0 g).

Definition frame_of (config : Config) (g : GLTF)
  : option num * option Vector3.t :=
  (Some (frame_scale (base_model config g)),
   Some (frame_offset (base_model config g))).

(** Every model in the scene has the scale [sc] and is moved by [offset]. *)
Definition all_normalized (s : State) (sc : num) (offset : Vector3.t) : Prop :=
  forall o, In o (scene s) ->
    scale o = Vector3.setScalar sc /\
    position o = Vector3.sub Vector3.zero offset.

(** A run for examples: everything loads, the key goes down and up, and
    the two loads this issues arrive in the reverse order. *)
Definition swapped_events : list Event :=
  [LoadOk 0 box_asset; LoadOk 1 box_asset; LoadOk 2 box_asset;
   KeyDown "Digit1"; KeyUp "Digit1"; LoadOk 4 box_asset; LoadOk 3 box_asset].

Definition both_loaded : State :=
  after car_config [LoadOk 0 box_asset; LoadOk 1 box_asset].

(** No component of [v] is a finite number. *)
Definition non_finite (v : Vector3.t) : Prop :=
  isFinite (Vector3.x v) = false /\ isFinite (Vector3.y v) = false /\
  isFinite (Vector3.z v) = false.

(** A degenerate asset for examples: a single vertex. *)
Definition point_asset : GLTF :=
  mkGLTF [mkNode true false false]
    (fun _ => [Vector3.mk (of_Z 1) (of_Z 1) (of_Z 1)])
    [].

(** The base model has arrived and is done with: its request has settled, the
    frame is set, the model is in the scene with the rotation of the
    configuration, the scale and the offset of the frame and its shadow
    flags, and it is counted. *)
Definition base_placed (s : State) : Prop :=
  ~ In 0 (pending s) /\ 1 <= loaded s /\
  exists m0, In m0 (scene s) /\ uid m0 = 0 /\ framed s m0.

(** No load of [paths[1..]] has been issued. *)
Definition no_secondary_request (s : State) : Prop :=
  forall r i, In r (requests s) -> cb r <> CbSecondary i.

(** The request number [id] is a load of some [paths[i]], [i >= 1]. *)
Definition secondary_request (s : State) (id : nat) : bool :=
  match nth_error (requests s) id with
  | Some (mkRequest _ (CbSecondary _)) => true
  | _ => false
  end.

(** The events that deliver [assets id] for every [id] of [ids], in the
    order of [ids]. *)
Definition deliveries (assets : nat -> GLTF) (ids : list nat) : list Event :=
  map (fun id => LoadOk id (assets id)) ids.

(** A configuration for examples: three models, no key. *)
Definition truck_config : Config :=
  mkConfig None
    (Some [Some "cab.glb"; Some "wheels.glb"; Some "trailer.glb"]%string)
    None false (of_Z 0) None true.

Definition cab_loaded : State := after truck_config [LoadOk 0 box_asset].

(** A configuration for examples: forty models, no key; and the first 23 of
    them delivered. *)
Definition fleet_config : Config :=
  mkConfig None (Some (repeat (Some "part.glb"%string) 40)) None false
    (of_Z 0) None false.

Definition fleet_events : list Event :=
  deliveries (fun _ => box_asset) (seq 0 23).

(** Between [s] and [s'] the loader was called for [rs], in this order,
    and for nothing else. *)
Definition issues (s s' : State) (rs : list Request) : Prop :=
  requests s' = requests s ++ rs.



(** The scene once the mesh [prev] of a slot, if any, has made room for [m]. *)
Definition swapped (prev : option Object3D) (m : Object3D)
  (children : list Object3D) : list Object3D :=
  match prev with
  | Some prev => remove_child prev children
  | None => children
  end ++ [m].

(** A run for examples, from [both_loaded]: the key goes down and up and the
    three loads of the slot arrive in the reverse order. *)
Definition reversed_events : list Event :=
  [KeyDown "Digit1"; KeyUp "Digit1";
   LoadOk 4 box_asset; LoadOk 3 box_asset; LoadOk 2 box_asset].

Definition reversed_done : State :=
  after car_config
    ([LoadOk 0 box_asset; LoadOk 1 box_asset] ++ reversed_events).

(** *** The key-swap transition as section 4.4 of the specification words it

    "The previous mesh reference is captured before the async load begins":
    [_loadKeyModel] would read the mesh of the slot when it calls the loader
    and its [onLoad] closure would remove that mesh.  The second component
    of a state below holds, for every request, the mesh so captured. *)
Definition Captured : Type := (State * list (option Object3D))%type.

(** The captures of the requests issued between [s] and [s']. *)
Definition capture (s s' : State) (caps : list (option Object3D))
  : list (option Object3D) :=
  caps ++ map (fun r => match cb r with
                        | CbKey code _ => slot_mesh s' code
                        | _ => None
                        end)
              (skipn (List.length (requests s)) (requests s')).

Definition init_captured (config : Config) : Captured :=
  (init config, capture (set_loader (init config) [] []) (init config) []).

Definition step_captured (sc : Captured) (e : Event) : option Captured :=
  let (s, caps) := sc in
  let next :=
    match e with
    | LoadOk id g =>
        if is_pending id s then
          match nth_error (requests s) id with
          | Some (mkRequest _ (CbKey code _)) =>
              Some match get (keyModels (settle id s)) code with
                   | None => throw id (settle id s)
                   | Some km =>
                       swap_in (nth id caps None) km id code g (settle id s)
                   end
          | _ => step s e
          end
        else None
    | _ => step s e
    end in
  option_map (fun s' => (s', capture s s' caps)) next.

Fixpoint run_captured (sc : Captured) (tr : list Event) : option Captured :=
  match tr with
  | [] => Some sc
  | e :: rest =>
      match step_captured sc e with
      | Some sc' => run_captured sc' rest
      | None => None
      end
  end.

(** A run for examples: the key goes down while the initial [off] load of
    its slot is still in flight; then both loads arrive. *)
Definition early_key_events : list Event :=
  [LoadOk 0 box_asset; LoadOk 1 box_asset; KeyDown "Digit1";
   LoadOk 2 box_asset; LoadOk 3 box_asset].

(** The uids of the models in the scene. *)
Definition scene_uids (s : State) : list nat := map uid (scene s).



(** The event [e] is a key going down or up. *)
Definition key_event (e : Event) : bool :=
  match e with
  | KeyDown _ | KeyUp _ => true
  | _ => false
  end.





(** What holds in every state of a session. *)
Record Inv (s : State) : Prop := mkInv {
  inv_pending_lt :
    forall id, In id (pending s) -> id < List.length (requests s);
  inv_pending_nodup : NoDup (pending s);
  inv_req0 :
    nth_error (requests s) 0
    = Some (mkRequest (nth 0 (modelPaths s) None) CbBase);
  inv_base_unique :
    forall id r, nth_error (requests s) id = Some r -> cb r = CbBase -> id = 0;
  inv_key_req :
    forall id r code p,
      nth_error (requests s) id = Some r -> cb r = CbKey code p ->
      exists km, get (keyModels s) code = Some km;
  inv_frame_pair : _globalScale s = None <-> _globalOffset s = None;
  inv_base_pending : In 0 (pending s) -> _globalOffset s = None;
  inv_noframe :
    _globalOffset s = None ->
    scene s = [] /\ loaded s = 0 /\
    (forall r i, In r (requests s) -> cb r <> CbSecondary i);
  inv_scene :
    forall o, In o (scene s) ->
      uid o < List.length (requests s) /\ ~ In (uid o) (pending s) /\ framed s o;
  inv_scene_nodup : NoDup (map uid (scene s));
  inv_base_in_scene :
    _globalOffset s <> None -> exists m0, In m0 (scene s) /\ uid m0 = 0;
  inv_mesh_in :
    forall code m, slot_mesh s code = Some m ->
      In m (scene s) /\ key_request s code (uid m) = true;
  inv_resident :
    forall o code, In o (scene s) -> key_request s code (uid o) = true ->
      slot_mesh s code = Some o;
  inv_count :
    loaded s + List.length (model_pending s) <= Nat.max 1 (total s);
  inv_hidden :
    loadingScreen_hidden s = true -> loaded s = total s /\ 1 <= loaded s;
  inv_progress :
    1 <= loaded s ->
    _globalOffset s <> None /\
    progress_width s = Some (percent (loaded s) (total s)) /\
    (loaded s = total s -> loadingScreen_hidden s = true);
  inv_idle :
    loaded s = 0 -> progress_width s = None;
  inv_slots :
    forall code,
      option_map paths (get (keyModels s) code) = get (keyModelsConfig s) code
}.

(** ** More notions: the frame loop, the keys, the overlay *)

(** The event [e] is a turn of [animate]. *)
Definition is_frame (e : Event) : bool :=
  match e with
  | Frame _ => true
  | _ => false
  end.

(** The number of turns of [animate] in a run. *)
Definition frames (tr : list Event) : nat := List.length (filter is_frame tr).

(** [rotation.y += speed], [n] times, from [r]. *)
Definition turned (n : nat) (speed r : num) : num :=
  Nat.iter n (fun a => add a speed) r.

(** [action.setLoop(THREE.LoopRepeat, Infinity).play()] *)
Definition loops_forever (a : Action) : Prop :=
  loop a = LoopRepeat /\ repetitions a = PInf /\ playing a = true.

(** The direction of the last event of the key [code] in [tr]: [true] for
    down, [false] for up, [b] when the key has no event in [tr]. *)
Fixpoint last_key (code : string) (tr : list Event) (b : bool) : bool :=
  match tr with
  | [] => b
  | KeyDown c :: rest => last_key code rest (if String.eqb c code then true else b)
  | KeyUp c :: rest => last_key code rest (if String.eqb c code then false else b)
  | _ :: rest => last_key code rest b
  end.

(** The assets that arrive for the slot [code] in [tr], in the order of
    arrival, with the number of their request ([s] holds the requests). *)
Definition arrivals (s : State) (code : string) (tr : list Event)
  : list (nat * GLTF) :=
  flat_map
    (fun e =>
       match e with
       | LoadOk id g => if key_request s code id then [(id, g)] else []
       | _ => []
       end) tr.

(** The last element of a list, if any. *)
Definition latest {A : Type} (l : list A) : option A :=
  last (map Some l) None.

(** [o] is the scene of an asset as the callbacks place it in [s]. *)
Definition placed_asset (s : State) (o : Object3D) : Prop :=
  exists g sc offset,
    _globalScale s = Some sc /\ _globalOffset s = Some offset /\
    o = placed (uid o) g (modelRotation s) sc offset (enabledShadow s).

(** The text [_updateProgress] writes beside the percentage [p]. *)
Definition progress_text (p : num) : LoadingText :=
  if geb p (of_Z 100) then Finalizing else Loading p.

(** The key models of a configuration: [config.keyModels || {}]. *)
Definition key_config (config : Config) : JSObject KeyPaths :=
  match cfg_keyModels config with
  | Some k => k
  | None => []
  end.

(** The keys of [this.keyModels] with their paths, in the order of
    [for (const code in this.keyModels)]. *)
Definition slot_paths (s : State) : JSObject KeyPaths :=
  map (fun kv => (fst kv, paths (snd kv))) (keyModels s).

(** The call [_loadKeyModel(code, paths.off)] of [_initKeyModels]. *)
Definition initial_load (kv : string * KeyPaths) : Request :=
  mkRequest (off (snd kv)) (CbKey (fst kv) (off (snd kv))).

(** The number of calls of [_loadKeyModel(code, _)] so far. *)
Definition key_loads (s : State) (code : string) : nat :=
  List.length
    (filter (fun r => match cb r with
                      | CbKey c _ => String.eqb c code
                      | _ => false
                      end) (requests s)).

(** The number of edges of the key [code] in [tr]: a key-down when the key
    is up, a key-up when it is down; [b] tells whether it is down at first. *)
Fixpoint edges (code : string) (tr : list Event) (b : bool) : nat :=
  match tr with
  | [] => 0
  | KeyDown c :: rest =>
      if String.eqb c code
      then (if b then 0 else 1) + edges code rest true
      else edges code rest b
  | KeyUp c :: rest =>
      if String.eqb c code
      then (if b then 1 else 0) + edges code rest false
      else edges code rest b
  | _ :: rest => edges code rest b
  end.

(** The deltas of the turns of [animate] in a run, in order. *)
Definition deltas (tr : list Event) : list num :=
  flat_map (fun e => match e with
                     | Frame d => [d]
                     | _ => []
                     end) tr.

(** The mixer [m] after [mixer.update(d)] for every [d] of [ds], in order. *)
Definition advanced (ds : list num) (m : Mixer) : Mixer :=
  fold_left (fun m d => update d m) ds m.

(** The models of [loadModels] in the scene. *)
Definition models (s : State) : list Object3D :=
  filter (fun o => model_request s (uid o)) (scene s).

(** The requests of [loadModels] that failed in a run. *)
Definition failed (s : State) (tr : list Event) : list Event :=
  filter (fun e => match e with
                   | LoadErr id => model_request s id
                   | _ => false
                   end) tr.

(** The mixer [m] with its clock at 0. *)
Definition rewind (m : Mixer) : Mixer := mkMixer (root m) (actions m) (of_Z 0).

(** The state [s] without what the frame loop writes: the clocks of the
    mixers and the angle of the scene are put back to 0. *)
Definition timeless (s : State) : State :=
  set_scene_rotation_y (set_mixers s (map rewind (mixers s))) (of_Z 0).

(** The run [tr] without its turns of [animate]. *)
Definition no_frames (tr : list Event) : list Event :=
  filter (fun e => negb (is_frame e)) tr.

(** ** The page, the options and the view

    [init] looks two elements of the page up and [initScene] builds the
    camera, the renderer, the controls and the fixtures of the scene.  The
    loaders never touch them. *)

(** [window.innerWidth] and [window.innerHeight] *)
Record Window : Type := mkWindow { innerWidth : num; innerHeight : num }.

(** What the page holds: the element with the id [config.containerId], the
    one with the id [config.loadingScreenId] and, inside it, ['#progress']
    and ['#loading-text'] (the class never reads [this.progressBar]). *)
Record Page : Type := mkPage {
  has_container : bool;
  has_loadingScreen : bool;
  has_progress : bool;
  has_loadingText : bool
}.

(** The values of the options of the controls. *)
Inductive value : Type :=
| VUndefined
| VBool (b : bool)
| VNum (n : num).

(** The argument of [init]: the options the loaders and the frame loop read
    ([Config]) and the others; [None] is an option left [undefined].
    [debug] is read as [!!config.debug]. *)
Record Options : Type := mkOptions {
  opt_loaders : Config;
  opt_debug : bool;
  opt_cameraPosition : option Vector3.t;
  opt_lightIntensity : option num;
  opt_ambientLightIntensity : option num;
  opt_enableControls : option bool;
  opt_controls : option (JSObject value);
  opt_shadowAngle : option Vector3.t
}.

(** [Math.PI], the binary64 number. *)
Definition Math_PI : num := Fin (Q2Qc (884279719003555 # 281474976710656)).

(** [{ ...a, ...b }] and [Object.assign(a, b)]: the properties of [b], in
    order, written over [a]. *)
Definition spread {V : Type} (a b : JSObject V) : JSObject V :=
  fold_left (fun o kv => put o (fst kv) (snd kv)) b a.

(** [o.k] *)
Definition prop (o : JSObject value) (k : string) : value :=
  match get o k with
  | Some v => v
  | None => VUndefined
  end.

(** The literal of [init]. *)
Definition controls_defaults : JSObject value :=
  [("enableDamping", VBool true);
   ("dampingFactor", VNum (Fin (Q2Qc (1 # 20))));
   ("screenSpacePanning", VBool false);
   ("minDistance", VNum (of_Z 1));
   ("maxDistance", VNum (of_Z 10));
   ("maxPolarAngle", VNum (div Math_PI (of_Z 2)));
   ("enablePan", VBool true);
   ("enableZoom", VBool true)]%string.

(** [this.controlsConfig] *)
Definition controlsConfig (o : Options) : JSObject value :=
  spread controls_defaults
    (match opt_controls o with
     | Some c => c
     | None => []
     end).

(** [this.enableControls = config.enableControls !== false] *)
Definition enableControls (o : Options) : bool :=
  match opt_enableControls o with
  | Some false => false
  | _ => true
  end.

(** The camera; [projection_aspect] is the aspect the projection matrix was
    last computed for. *)
Record Camera : Type := mkCamera {
  fov : num;
  aspect : num;
  near : num;
  far : num;
  camera_position : Vector3.t;
  projection_aspect : num
}.

(** [new THREE.PerspectiveCamera(fov, aspect, near, far)] *)
Definition PerspectiveCamera (f a n fr : num) : Camera :=
  mkCamera f a n fr Vector3.zero a.

(** [camera.updateProjectionMatrix()] *)
Definition updateProjectionMatrix (c : Camera) : Camera :=
  mkCamera (fov c) (aspect c) (near c) (far c) (camera_position c) (aspect c).

Inductive ShadowMapType : Type := PCFShadowMap | PCFSoftShadowMap.

(** The renderer: its size and its shadow map (the clear colour, the
    encoding and the tone mapping are constants nothing else reads). *)
Record Renderer : Type := mkRenderer {
  width : num;
  height : num;
  shadowMap_enabled : bool;
  shadowMap_type : ShadowMapType
}.

(** [new THREE.WebGLRenderer(...)]: a new canvas is 300 by 150. *)
Definition WebGLRenderer : Renderer :=
  mkRenderer (of_Z 300) (of_Z 150) false PCFShadowMap.

(** [renderer.setSize(w, h)] *)
Definition setSize (w h : num) (r : Renderer) : Renderer :=
  mkRenderer w h (shadowMap_enabled r) (shadowMap_type r).

(** [light.shadow]: the size of the map and the range of its camera. *)
Record LightShadow : Type := mkLightShadow {
  mapSize : num * num;
  shadow_near : num;
  shadow_far : num
}.

(** The shadow of a new [DirectionalLight]. *)
Definition default_shadow : LightShadow :=
  mkLightShadow (of_Z 512, of_Z 512) (Fin (Q2Qc (1 # 2))) (of_Z 500).

(** What [initScene] adds to the scene. *)
Inductive Child : Type :=
| AmbientLight (intensity : num)
| DirectionalLight (intensity : num) (pos : Vector3.t) (casts : bool)
    (shadow : LightShadow)
| DirectionalLightHelper (size : num)
| ShadowPlane (size : num * num) (opacity rotation_x position_y : num)
    (receives : bool).

(** [new THREE.Light(color, intensity)]: the intensity is 1 when the
    argument is [undefined]. *)
Definition intensity_of (i : option num) : num :=
  match i with
  | Some a => a
  | None => of_Z 1
  end.

(** [config.shadowAngle || { x: 0, y: 1, z: 0 }] *)
Definition shadowAngle (o : Options) : Vector3.t :=
  match opt_shadowAngle o with
  | Some a => a
  | None => Vector3.mk (of_Z 0) (of_Z 1) (of_Z 0)
  end.

(** The camera, the renderer, the properties the class has assigned to the
    controls (if there are controls) and the fixtures of the scene. *)
Record View : Type := mkView {
  camera : Camera;
  renderer : Renderer;
  controls : option (JSObject value);
  children : list Child
}.

(** What makes [init] stop with a [TypeError]. *)
Inductive Thrown : Type :=
| Null_loadingScreen
| Undefined_cameraPosition
| Null_container.

(** [initLoadingScreen(id)]: [this.loadingScreen.querySelector] on a missing
    element raises a [TypeError]; a missing child is [null], silently. *)
Definition initLoadingScreen (page : Page) : option Thrown :=
  if has_loadingScreen page then None else Some Null_loadingScreen.

(** The fixtures, in the order [initScene] adds them. *)
Definition fixtures (o : Options) : list Child :=
  let shadows := cfg_enabledShadow (opt_loaders o) in
  let li := intensity_of (opt_lightIntensity o) in
  [AmbientLight (intensity_of (opt_ambientLightIntensity o));
   DirectionalLight li (Vector3.mk (of_Z 1) (of_Z 1) (of_Z 1)) false
     default_shadow;
   DirectionalLight li (Vector3.mk (of_Z (-1)) (of_Z (-1)) (of_Z (-1))) false
     default_shadow;
   DirectionalLight li (shadowAngle o) shadows
     (if shadows
      then mkLightShadow (of_Z 1024, of_Z 1024) (of_Z 1) (of_Z 10)
      else default_shadow)]
  ++ (if shadows
      then (if opt_debug o then [DirectionalLightHelper (of_Z 5)] else [])
           ++ [ShadowPlane (of_Z 50, of_Z 50) (Fin (Q2Qc (3 # 10)))
                 (neg (div Math_PI (of_Z 2))) (of_Z (-1)) true]
      else []).

(** [initScene()] *)
Definition initScene (w : Window) (page : Page) (o : Options)
  : Thrown + View :=
  let shadows := cfg_enabledShadow (opt_loaders o) in
  let cam :=
    PerspectiveCamera (of_Z 75) (div (innerWidth w) (innerHeight w))
      (Fin (Q2Qc (1 # 10))) (of_Z 1000) in
  match opt_cameraPosition o with
  | None => inl Undefined_cameraPosition
  | Some p =>
      let cam :=
        mkCamera (fov cam) (aspect cam) (near cam) (far cam) p
          (projection_aspect cam) in
      let r :=
        setSize (innerWidth w) (innerHeight w) WebGLRenderer in
      let r :=
        if shadows
        then mkRenderer (width r) (height r) true PCFSoftShadowMap
        else r in
      if has_container page then
        let ctl :=
          if enableControls o then
            let c := spread [] (controlsConfig o) in
            let c := put c "enablePan" (prop (controlsConfig o) "enablePan") in
            let c := put c "enableZoom" (prop (controlsConfig o) "enableZoom") in
            Some c
          else None in
        inr (mkView cam r ctl (fixtures o))
      else inl Null_container
  end.

(** [onWindowResize()] *)
Definition onWindowResize (w : Window) (v : View) : View :=
  let cam := camera v in
  let cam :=
    mkCamera (fov cam) (div (innerWidth w) (innerHeight w)) (near cam)
      (far cam) (camera_position cam) (projection_aspect cam) in
  mkView (updateProjectionMatrix cam)
    (setSize (innerWidth w) (innerHeight w) (renderer v))
    (controls v) (children v).

(** [GLBModel.init(config)] on a page, from its first line to the call of
    [loadModels]: the [TypeError] that [initLoadingScreen] or [initScene]
    raises for a missing element or a missing position of the camera, if
    one of them does.  [None] says that none of these three was raised, not
    that [init] returns. *)
Definition init_on (w : Window) (page : Page) (o : Options) : option Thrown :=
  match initLoadingScreen page with
  | Some t => Some t
  | None =>
      match initScene w page o with
      | inl t => Some t
      | inr _ => None
      end
  end.

(** The window after the resizes [ws], [w] at first. *)
Definition last_window (w : Window) (ws : list Window) : Window := last ws w.

(** The view after the resizes [ws]. *)
Definition resized (ws : list Window) (v : View) : View :=
  fold_left (fun v w => onWindowResize w v) ws v.

(** The lights of a list of fixtures that cast shadows. *)
Definition casting (l : list Child) : list Child :=
  filter (fun c => match c with
                   | DirectionalLight _ _ casts _ => casts
                   | _ => false
                   end) l.

(** The planes of a list of fixtures that receive shadows. *)
Definition receiving (l : list Child) : list Child :=
  filter (fun c => match c with
                   | ShadowPlane _ _ _ _ receives => receives
                   | _ => false
                   end) l.

(** The helpers of a list of fixtures. *)
Definition helpers (l : list Child) : list Child :=
  filter (fun c => match c with
                   | DirectionalLightHelper _ => true
                   | _ => false
                   end) l.

(** ** The callbacks on a page

    The state machine above is the one of a page that has the two elements
    of the overlay [_updateProgress] writes.  Writing to a missing one
    raises a [TypeError] in the middle of the callback. *)

(** [this.progressElement.style.width = pct + '%'] *)
Definition set_progress_width (s : State) (w : num) : State :=
  mkState (modelRotation s) (enabledShadow s) (autoRotate s) (rotationSpeed s)
    (modelPaths s) (keyModelsConfig s) (keyModels s) (_globalScale s)
    (_globalOffset s) (scene s) (scene_rotation_y s) (mixers s) (loaded s)
    (Some w) (loadingText s) (loadingScreen_hidden s) (console s) (requests s)
    (pending s).

(** [this.loadingText.textContent = t] *)
Definition set_loadingText (s : State) (t : LoadingText) : State :=
  mkState (modelRotation s) (enabledShadow s) (autoRotate s) (rotationSpeed s)
    (modelPaths s) (keyModelsConfig s) (keyModels s) (_globalScale s)
    (_globalOffset s) (scene s) (scene_rotation_y s) (mixers s) (loaded s)
    (progress_width s) (Some t) (loadingScreen_hidden s) (console s)
    (requests s) (pending s).

(** [this._updateProgress(loaded, total)] on a page: [inr] when it returns,
    [inl] with the state it leaves when it throws. *)
Definition _updateProgress_on (page : Page) (ld tot : nat) (s : State)
  : State + State :=
  let pct := percent ld tot in
  if has_progress page then
    let s1 := set_progress_width s pct in
    if has_loadingText page then
      let s2 :=
        set_loadingText s1
          (if geb pct (of_Z 100) then Finalizing else Loading pct) in
      inr (if ld =? tot
           then _initKeyModels (set_loadingScreen_hidden s2 true)
           else s2)
    else inl s1
  else inl s.

(** The [onLoad] closure of the base model up to and including [loaded++]. *)
Definition onLoad_base_counted (id : nat) (g : GLTF) (s : State) : State :=
  let model0 := set_rotation (modelRotation s) (gltf_scene id g) in
  let scale := frame_scale model0 in
  let offset := frame_offset model0 in
  let s1 := set_frame s scale offset in
  let model0 := set_scale (Vector3.setScalar scale) model0 in
  let model0 := set_position (Vector3.sub (position model0) offset) model0 in
  let model0 := traverse (shadow_flags (enabledShadow s1)) model0 in
  let s2 := scene_add model0 s1 in
  let s3 := bind_animations model0 g s2 in
  set_loaded s3 (S (loaded s3)).

(** The [onLoad] closure of the base model on a page. *)
Definition onLoad_base_on (page : Page) (id : nat) (g : GLTF) (s : State)
  : State :=
  let s4 := onLoad_base_counted id g s in
  match _updateProgress_on page (loaded s4) (total s4) s4 with
  | inr s5 => load_secondary s5
  | inl s5 => throw id s5
  end.

(** ** The first revision

    [src/js/GLBModel.js] has no key models: [init] does not call
    [_setupKeyModels], nothing listens to the keyboard, and the closure
    [updateProgress] of [loadModels] does not call [_initKeyModels].  The
    fields [keyModelsConfig] and [keyModels] of a state stay empty. *)







(** ** More examples *)

(** A run for examples: the key goes down before the base model arrives. *)
Definition eager_key : State := after car_config [KeyDown "Digit1"].

(** A run for examples: everything loads, the key goes down and up, and the
    load of the [on] variant arrives last. *)
Definition late_on_events : list Event :=
  [KeyDown "Digit1"; KeyUp "Digit1";
   LoadOk 2 box_asset; LoadOk 4 box_asset; LoadOk 3 box_asset].

(** A configuration for examples: an empty array of paths. *)
Definition empty_config : Config :=
  mkConfig None (Some []) None false (of_Z 0) None false.

(** A window, a page and options for examples. *)
Definition demo_window : Window := mkWindow (of_Z 800) (of_Z 600).

Definition demo_page : Page := mkPage true true true true.

Definition demo_options : Options :=
  mkOptions car_config false (Some (Vector3.mk (of_Z 0) (of_Z 0) (of_Z 3)))
    None None None (Some [("enablePan"%string, VBool false)]) None.

(** The view a result of [initScene] holds, an empty one if it threw. *)
Definition view_of (r : Thrown + View) : View :=
  match r with
  | inr v => v
  | inl _ => mkView (PerspectiveCamera NaN NaN NaN NaN) WebGLRenderer None []
  end.

Definition demo_view : View :=
  view_of (initScene demo_window demo_page demo_options).

(** * Properties *)

(** ** Objects used as maps *)

Lemma get_put_same {V : Type} (o : JSObject V) k v :
  get (put o k v) k = Some v.
Proof.
  induction o as [|[k' v'] rest IH]; simpl; [now rewrite String.eqb_refl|].
  destruct (String.eqb k' k) eqn:E; simpl; rewrite E; auto.
Qed.

Lemma get_put_other {V : Type} (o : JSObject V) k k' v :
  k' <> k -> get (put o k v) k' = get o k'.
Proof.
  intros Hne. induction o as [|[k0 v0] rest IH]; simpl.
  - destruct (String.eqb k k') eqn:E; [apply String.eqb_eq in E; congruence|reflexivity].
  - destruct (String.eqb k0 k) eqn:E; simpl.
    + apply String.eqb_eq in E; subst k0.
      destruct (String.eqb k k') eqn:E'; [apply String.eqb_eq in E'; congruence|reflexivity].
    + destruct (String.eqb k0 k'); auto.
Qed.

Lemma get_put {V : Type} (o : JSObject V) k k' v :
  get (put o k v) k' = if String.eqb k k' then Some v else get o k'.
Proof.
  destruct (String.eqb k k') eqn:E.
  - apply String.eqb_eq in E; subst. apply get_put_same.
  - apply String.eqb_neq in E. apply get_put_other; congruence.
Qed.

(** ** The loader *)

Lemma load_all_nil s : load_all [] s = s.
Proof. destruct s; unfold load_all, set_loader; simpl. now rewrite !app_nil_r. Qed.

Lemma load_all_app rs1 rs2 s :
  load_all rs2 (load_all rs1 s) = load_all (rs1 ++ rs2) s.
Proof.
  unfold load_all, set_loader; simpl.
  rewrite !length_app, seq_app, <- !app_assoc. reflexivity.
Qed.

Lemma load_load_all p c s : load p c s = load_all [mkRequest p c] s.
Proof. reflexivity. Qed.

Lemma fold_load_all {A : Type} (R : State -> A -> list Request) (l : list A) :
  (forall rs st a, R (load_all rs st) a = R st a) ->
  forall s,
    fold_left (fun st a => load_all (R st a) st) l s
    = load_all (flat_map (R s) l) s.
Proof.
  intros HR. induction l as [|a l IH]; intros s; simpl.
  - now rewrite load_all_nil.
  - rewrite IH, load_all_app. f_equal. f_equal.
    apply flat_map_ext. intros b. apply HR.
Qed.

Lemma _initKeyModels_eq s : _initKeyModels s = load_all (key_requests s) s.
Proof.
  unfold _initKeyModels, key_requests.
  rewrite <- (fold_load_all
    (fun st code =>
       match get (keyModels st) code with
       | Some km => [mkRequest (off (paths km)) (CbKey code (off (paths km)))]
       | None => []
       end)) by reflexivity.
  generalize (map fst (keyModels s)) as l. intros l. revert s.
  induction l as [|a l IH]; intros s; simpl; [reflexivity|].
  rewrite <- IH. f_equal.
  destruct (get (keyModels s) a); [reflexivity|now rewrite load_all_nil].
Qed.

Lemma load_secondary_eq s : load_secondary s = load_all (secondary_requests s) s.
Proof.
  unfold load_secondary, secondary_requests.
  replace (map (fun i => mkRequest (nth i (modelPaths s) None) (CbSecondary i))
             (seq 1 (List.length (modelPaths s) - 1)))
    with (flat_map
            (fun i => [mkRequest (nth i (modelPaths s) None) (CbSecondary i)])
            (seq 1 (List.length (modelPaths s) - 1)))
    by (induction (seq 1 (List.length (modelPaths s) - 1)); simpl; congruence).
  rewrite <- (fold_load_all
    (fun st i => [mkRequest (nth i (modelPaths st) None) (CbSecondary i)]))
    by reflexivity.
  reflexivity.
Qed.

(** ** The callbacks as updates of the state *)

Arguments percent : simpl never.
Arguments frame_scale : simpl never.
Arguments frame_offset : simpl never.
Arguments key_requests : simpl never.
Arguments secondary_requests : simpl never.
Arguments placed : simpl never.
Arguments new_mixers : simpl never.
Arguments Vector3.sub : simpl never.
Arguments Vector3.setScalar : simpl never.
Arguments shadow_flags : simpl never.
Arguments geb : simpl never.
Arguments of_Z : simpl never.

Lemma bind_animations_eq m g s :
  bind_animations m g s = set_mixers s (mixers s ++ new_mixers (uid m) g).
Proof.
  unfold bind_animations, new_mixers.
  destruct (animations g); [|reflexivity].
  destruct s; unfold set_mixers; simpl. now rewrite app_nil_r.
Qed.

Lemma _updateProgress_eq ld tot s :
  _updateProgress ld tot s
  = load_all (if ld =? tot then key_requests s else [])
      (set_loadingScreen_hidden
         (set_progress s (percent ld tot)
            (if geb (percent ld tot) (of_Z 100) then Finalizing
             else Loading (percent ld tot)))
         (if ld =? tot then true else loadingScreen_hidden s)).
Proof.
  unfold _updateProgress. destruct (ld =? tot).
  - now rewrite _initKeyModels_eq.
  - rewrite load_all_nil. destruct s; reflexivity.
Qed.

Lemma onLoad_base_eq id g s :
  onLoad_base id g s
  = let model0 := set_rotation (modelRotation s) (gltf_scene id g) in
    let m := placed id g (modelRotation s) (frame_scale model0)
               (frame_offset model0) (enabledShadow s) in
    load_all (secondary_requests s)
      (_updateProgress (S (loaded s)) (total s)
         (set_loaded
            (set_mixers
               (set_scene (set_frame s (frame_scale model0) (frame_offset model0))
                  (scene s ++ [m]))
               (mixers s ++ new_mixers id g))
            (S (loaded s)))).
Proof.
  unfold onLoad_base. rewrite load_secondary_eq.
  unfold onLoad_base_place. cbv zeta. rewrite bind_animations_eq.
  rewrite !_updateProgress_eq. reflexivity.
Qed.

Lemma onLoad_secondary_eq id g s offset :
  _globalOffset s = Some offset ->
  onLoad_secondary id g s
  = let m := placed id g (modelRotation s) (to_num (_globalScale s)) offset
               (enabledShadow s) in
    _updateProgress (S (loaded s)) (total s)
      (set_loaded
         (set_mixers (set_scene s (scene s ++ [m])) (mixers s ++ new_mixers id g))
         (S (loaded s))).
Proof.
  intros H. unfold onLoad_secondary. rewrite H. cbv zeta.
  rewrite bind_animations_eq. reflexivity.
Qed.

Lemma swap_in_eq prev km id code g s offset :
  _globalOffset s = Some offset ->
  swap_in prev km id code g s
  = let sc0 := match prev with
               | Some prev => remove_child prev (scene s)
               | None => scene s
               end in
    let m := placed id g (modelRotation s) (to_num (_globalScale s)) offset
               (enabledShadow s) in
    set_mixers
      (set_keyModels (set_scene s (sc0 ++ [m]))
         (put (keyModels s) code (set_mesh m km)))
      (mixers s ++ new_mixers id g).
Proof.
  intros H. unfold swap_in.
  destruct prev as [prev|]; cbn -[Vector3.sub]; rewrite H;
    rewrite bind_animations_eq; reflexivity.
Qed.

Lemma swap_in_throw prev km id code g s :
  _globalOffset s = None ->
  swap_in prev km id code g s
  = throw id (match prev with Some prev => scene_remove prev s | None => s end).
Proof.
  intros H. unfold swap_in. destruct prev; cbn; rewrite H; reflexivity.
Qed.

Lemma keydown_eq code s km :
  get (keyModels s) code = Some km -> pressed km = false ->
  keydown code s
  = load_all [mkRequest (on (paths km)) (CbKey code (on (paths km)))]
      (set_keyModels s (put (keyModels s) code (set_pressed true km))).
Proof.
  intros H Hp. unfold keydown. rewrite H, Hp. simpl.
  unfold _swapKeyModel. cbn.
  rewrite get_put_same. reflexivity.
Qed.

Lemma keyup_eq code s km :
  get (keyModels s) code = Some km -> pressed km = true ->
  keyup code s
  = load_all [mkRequest (off (paths km)) (CbKey code (off (paths km)))]
      (set_keyModels s (put (keyModels s) code (set_pressed false km))).
Proof.
  intros H Hp. unfold keyup. rewrite H, Hp.
  unfold _swapKeyModel. cbn.
  rewrite get_put_same. reflexivity.
Qed.

(** The cases of a step. *)
Lemma step_LoadOk s id g s' :
  step s (LoadOk id g) = Some s' ->
  exists r,
    In id (pending s) /\ nth_error (requests s) id = Some r /\
    s' = match cb r with
         | CbBase => onLoad_base id g (settle id s)
         | CbSecondary _ => onLoad_secondary id g (settle id s)
         | CbKey code _ => onLoad_key id code g (settle id s)
         end.
Proof.
  unfold step, is_pending. destruct (existsb _ _) eqn:E; [|discriminate].
  apply existsb_exists in E. destruct E as (x & Hin & Hx).
  apply Nat.eqb_eq in Hx; subst x.
  destruct (nth_error _ _) as [r|]; [|discriminate].
  intros [= <-]. eauto.
Qed.

Lemma step_LoadErr s id s' :
  step s (LoadErr id) = Some s' ->
  exists r,
    In id (pending s) /\ nth_error (requests s) id = Some r /\
    s' = onError (cb r) (settle id s).
Proof.
  unfold step, is_pending. destruct (existsb _ _) eqn:E; [|discriminate].
  apply existsb_exists in E. destruct E as (x & Hin & Hx).
  apply Nat.eqb_eq in Hx; subst x.
  destruct (nth_error _ _) as [r|]; [|discriminate].
  intros [= <-]. eauto.
Qed.

Lemma is_pending_In id s : is_pending id s = true <-> In id (pending s).
Proof.
  unfold is_pending. rewrite existsb_exists. split.
  - intros (x & Hin & Hx). apply Nat.eqb_eq in Hx. now subst.
  - intros H. exists id. split; auto. apply Nat.eqb_refl.
Qed.

(** ** Lists of children and of requests *)

Lemma remove_child_incl o p l : In o (remove_child p l) -> In o l.
Proof.
  induction l as [|c l IH]; simpl; [tauto|].
  destruct (uid c =? uid p); simpl; tauto.
Qed.

Lemma remove_child_keep o p l :
  In o l -> uid o <> uid p -> In o (remove_child p l).
Proof.
  induction l as [|c l IH]; simpl; [tauto|].
  intros [->|H] Hne.
  - destruct (uid o =? uid p) eqn:E; [apply Nat.eqb_eq in E; tauto|now left].
  - destruct (uid c =? uid p); simpl; auto.
Qed.

Lemma remove_child_uids_incl p l x :
  In x (map uid (remove_child p l)) -> In x (map uid l).
Proof.
  rewrite !in_map_iff. intros (o & <- & H). eauto using remove_child_incl.
Qed.

Lemma remove_child_nodup p l :
  NoDup (map uid l) -> NoDup (map uid (remove_child p l)).
Proof.
  induction l as [|c l IH]; simpl; [auto|].
  intros H. inversion H; subst.
  destruct (uid c =? uid p); simpl; auto.
  constructor; auto. intros Hin. eauto using remove_child_uids_incl.
Qed.

Lemma remove_child_gone p l :
  NoDup (map uid l) -> ~ In (uid p) (map uid (remove_child p l)).
Proof.
  induction l as [|c l IH]; simpl; [tauto|].
  intros H. inversion H; subst.
  destruct (uid c =? uid p) eqn:E; simpl.
  - apply Nat.eqb_eq in E. congruence.
  - apply Nat.eqb_neq in E. intros [?|?]; [congruence|]. now apply IH.
Qed.

Lemma NoDup_list_remove (x : nat) l :
  NoDup l -> NoDup (List.remove Nat.eq_dec x l).
Proof.
  induction 1 as [|y l Hy Hl IH]; simpl; [constructor|].
  destruct (Nat.eq_dec x y); auto.
  constructor; auto. intros Hin. apply in_remove in Hin. tauto.
Qed.

Lemma filter_remove_length (f : nat -> bool) x l :
  NoDup l -> In x l ->
  List.length (filter f (List.remove Nat.eq_dec x l)) + (if f x then 1 else 0)
  = List.length (filter f l).
Proof.
  induction 1 as [|y l Hy Hl IH]; simpl; [tauto|].
  intros [->|Hin].
  - destruct (Nat.eq_dec x x); [|congruence].
    rewrite notin_remove by assumption.
    destruct (f x); simpl; lia.
  - destruct (Nat.eq_dec x y) as [->|Hne]; [tauto|].
    simpl. destruct (f y); simpl; rewrite <- IH by assumption; lia.
Qed.

Lemma filter_ext_In_length {A : Type} (f g : A -> bool) l :
  (forall x, In x l -> f x = g x) ->
  List.length (filter f l) = List.length (filter g l).
Proof. intros H. now rewrite (filter_ext_in _ _ _ H). Qed.

Lemma nth_error_app_old {A : Type} (l l' : list A) i x :
  nth_error l i = Some x -> nth_error (l ++ l') i = Some x.
Proof.
  intros H. rewrite nth_error_app1; auto.
  apply nth_error_Some. congruence.
Qed.

Lemma nth_error_app_cases {A : Type} (l l' : list A) i x :
  nth_error (l ++ l') i = Some x ->
  nth_error l i = Some x \/ (List.length l <= i /\ In x l').
Proof.
  intros H. destruct (Nat.lt_ge_cases i (List.length l)).
  - left. now rewrite nth_error_app1 in H.
  - right. split; auto. rewrite nth_error_app2 in H by assumption.
    eauto using nth_error_In.
Qed.

(** ** The invariant holds after [init] *)

Lemma _setupKeyModels_fold (codes : list string) (s : State) :
  let s' :=
    fold_left
      (fun st code =>
         match get (keyModelsConfig st) code with
         | Some p =>
             set_keyModels st (put (keyModels st) code (mkKeySlot p None false))
         | None => st
         end) codes s in
  s' = set_keyModels s (keyModels s') /\
  forall code,
    get (keyModels s') code
    = if existsb (String.eqb code) codes
      then match get (keyModelsConfig s) code with
           | Some p => Some (mkKeySlot p None false)
           | None => get (keyModels s) code
           end
      else get (keyModels s) code.
Proof.
  revert s. induction codes as [|c codes IH]; intros s; simpl.
  - split; [destruct s; reflexivity|reflexivity].
  - destruct (get (keyModelsConfig s) c) as [p|] eqn:Hc.
    + specialize (IH (set_keyModels s (put (keyModels s) c (mkKeySlot p None false)))).
      cbv zeta in IH. destruct IH as [IH1 IH2]. split.
      * rewrite IH1 at 1. reflexivity.
      * intros code. rewrite IH2. cbn. rewrite get_put.
        destruct (String.eqb code c) eqn:E.
        -- apply String.eqb_eq in E; subst code. rewrite String.eqb_refl, Hc.
           simpl. now destruct (existsb _ _).
        -- rewrite String.eqb_sym, E. reflexivity.
    + specialize (IH s). cbv zeta in IH. destruct IH as [IH1 IH2]. split; auto.
      intros code. rewrite IH2.
      destruct (String.eqb code c) eqn:E; simpl; auto.
      apply String.eqb_eq in E; subst code. rewrite Hc.
      now destruct (existsb _ _).
Qed.

Lemma existsb_keys {V : Type} (o : JSObject V) code :
  existsb (String.eqb code) (map fst o) = false -> get o code = None.
Proof.
  induction o as [|[k v] rest IH]; simpl; auto.
  rewrite String.eqb_sym. destruct (String.eqb k code); simpl; auto. discriminate.
Qed.

Lemma _setupKeyModels_spec s :
  keyModels s = [] ->
  _setupKeyModels s = set_keyModels s (keyModels (_setupKeyModels s)) /\
  forall code,
    get (keyModels (_setupKeyModels s)) code
    = option_map (fun p => mkKeySlot p None false) (get (keyModelsConfig s) code).
Proof.
  intros H0. unfold _setupKeyModels.
  destruct (_setupKeyModels_fold (map fst (keyModelsConfig s)) s) as [H1 H2].
  split; [exact H1|].
  intros code. rewrite H2, H0. simpl.
  destruct (existsb _ _) eqn:E.
  - now destruct (get (keyModelsConfig s) code).
  - now rewrite (existsb_keys _ _ E).
Qed.

Lemma init_fields config :
  let s := init config in
  requests s = [mkRequest (nth 0 (modelPaths s) None) CbBase] /\
  pending s = [0] /\
  _globalScale s = None /\ _globalOffset s = None /\
  scene s = [] /\ mixers s = [] /\ loaded s = 0 /\
  progress_width s = None /\ loadingText s = None /\
  loadingScreen_hidden s = false /\ console s = [] /\
  keyModelsConfig s
  = match cfg_keyModels config with Some k => k | None => [] end /\
  modelPaths s
  = match cfg_modelPaths config with
    | Some ps => ps
    | None => [cfg_modelPath config]
    end /\
  forall code,
    get (keyModels s) code
    = option_map (fun p => mkKeySlot p None false) (get (keyModelsConfig s) code).
Proof.
  unfold init. cbv zeta.
  match goal with |- context [_setupKeyModels ?s0] =>
    destruct (_setupKeyModels_spec s0 eq_refl) as [H1 H2]; revert H1 H2;
    generalize (keyModels (_setupKeyModels s0)) as kms
  end.
  intros kms H1 H2. rewrite H1. unfold animate. cbn.
  destruct (cfg_autoRotate config); cbn; repeat split; try reflexivity; exact H2.
Qed.

Lemma Inv_init config : Inv (init config).
Proof.
  destruct (init_fields config)
    as (Hr & Hp & Hs & Ho & Hsc & Hm & Hl & Hw & Ht & Hh & Hc & Hk & Hmp & Hg).
  cbv zeta in *.
  constructor; rewrite ?Hr, ?Hp, ?Hs, ?Ho, ?Hsc, ?Hl, ?Hw, ?Hh; simpl; try tauto.
  - intros id [<-|[]]. lia.
  - repeat constructor; simpl; tauto.
  - intros id r H Hb. destruct id; auto. destruct id; discriminate.
  - intros id r code p H Hcb. destruct id as [|[|]]; try discriminate.
    injection H as <-. discriminate.
  - repeat split; auto. intros r i [<-|[]]. discriminate.
  - constructor.
  - unfold slot_mesh. intros code m. rewrite Hg.
    destruct (get _ code); simpl; discriminate.
  - unfold model_pending, model_request. rewrite Hp, Hr. simpl. destruct (total (init config)); lia.
  - discriminate.
  - lia.
  - intros code. rewrite Hg. now destruct (get _ code).
Qed.

(** ** The invariant is kept by every callback *)

Lemma key_request_old s s' rs code id :
  requests s' = requests s ++ rs -> id < List.length (requests s) ->
  key_request s' code id = key_request s code id.
Proof.
  intros Hr Hid. unfold key_request. rewrite Hr.
  now rewrite nth_error_app1 by assumption.
Qed.

Lemma model_request_old s s' rs id :
  requests s' = requests s ++ rs -> id < List.length (requests s) ->
  model_request s' id = model_request s id.
Proof.
  intros Hr Hid. unfold model_request. rewrite Hr.
  now rewrite nth_error_app1 by assumption.
Qed.

Lemma key_request_lt s code id :
  key_request s code id = true -> id < List.length (requests s).
Proof.
  unfold key_request. destruct (nth_error _ _) eqn:E; [|discriminate].
  intros _. apply nth_error_Some. congruence.
Qed.

Lemma key_request_inv s code id :
  key_request s code id = true ->
  exists p0 p, nth_error (requests s) id = Some (mkRequest p0 (CbKey code p)).
Proof.
  unfold key_request. destruct (nth_error _ _) as [[p0 [| |c p]]|]; try discriminate.
  intros H. apply String.eqb_eq in H. subst. eauto.
Qed.

Lemma key_request_model s code id :
  key_request s code id = true -> model_request s id = false.
Proof.
  unfold key_request, model_request.
  destruct (nth_error _ _) as [[p0 [| |c p]]|]; auto; discriminate.
Qed.

Lemma key_request_functional s code code' id :
  key_request s code id = true -> key_request s code' id = true -> code = code'.
Proof.
  unfold key_request.
  destruct (nth_error _ _) as [[p0 [| |c p]]|]; try discriminate.
  intros H1 H2. apply String.eqb_eq in H1, H2. congruence.
Qed.

Lemma Inv_settle s id :
  Inv s -> In id (pending s) ->
  Inv (settle id s) /\
  ~ In id (pending (settle id s)) /\
  loaded s + List.length (model_pending (settle id s))
  + (if model_request s id then 1 else 0) <= Nat.max 1 (total s).
Proof.
  intros H Hin.
  assert (Hc : List.length (model_pending (settle id s))
               + (if model_request s id then 1 else 0)
               = List.length (model_pending s)).
  { unfold model_pending. cbn.
    change (model_request (settle id s)) with (model_request s).
    apply filter_remove_length; [apply (inv_pending_nodup s H)|assumption]. }
  pose proof (inv_count s H) as Hcount.
  split; [|split].
  - constructor; try (solve [apply H]).
    + cbn. intros x Hx. apply in_remove in Hx. now apply (inv_pending_lt s H).
    + cbn. apply NoDup_list_remove, H.
    + cbn. intros Hx. apply in_remove in Hx. apply (inv_base_pending s H). tauto.
    + cbn. intros o Ho. destruct (inv_scene s H o Ho) as (A & B & C).
      repeat split; auto. intros Hx. apply in_remove in Hx. tauto.
    + change (loaded (settle id s)) with (loaded s).
      change (total (settle id s)) with (total s). lia.
  - cbn. apply remove_In.
  - lia.
Qed.

Lemma Inv_console s l : Inv s -> Inv (set_console s l).
Proof. intros H; constructor; apply H. Qed.

Lemma Inv_onError s c : Inv s -> Inv (onError c s).
Proof. intros H. destruct c; apply Inv_console; assumption. Qed.

Lemma Inv_throw s id : Inv s -> Inv (throw id s).
Proof. apply Inv_console. Qed.

Lemma Inv_animate s delta : Inv s -> Inv (animate delta s).
Proof.
  intros H. unfold animate. cbn. destruct (autoRotate s); constructor; apply H.
Qed.

Lemma filter_new_requests (l rs : list Request) :
  List.length
    (filter
       (fun id =>
          match nth_error (l ++ rs) id with
          | Some (mkRequest _ (CbKey _ _)) => false
          | Some _ => true
          | None => false
          end)
       (seq (List.length l) (List.length rs)))
  = List.length (filter is_model rs).
Proof.
  revert l. induction rs as [|r rs IH]; intros l; [reflexivity|].
  cbn [List.length seq filter].
  rewrite nth_error_app2 by lia. rewrite Nat.sub_diag. cbn [nth_error].
  specialize (IH (l ++ [r])). rewrite <- app_assoc, length_app in IH.
  cbn [List.length app] in IH. rewrite Nat.add_1_r in IH.
  unfold is_model at 1.
  destruct r as [p0 [| |c p]]; cbn [cb List.length]; rewrite IH; reflexivity.
Qed.

Lemma model_pending_load_all rs s :
  (forall id, In id (pending s) -> id < List.length (requests s)) ->
  List.length (model_pending (load_all rs s))
  = List.length (model_pending s) + List.length (filter is_model rs).
Proof.
  intros Hlt. unfold model_pending. cbn [pending load_all set_loader].
  rewrite filter_app, length_app. f_equal.
  - apply filter_ext_In_length. intros x Hx.
    apply model_request_old with (rs := rs); auto.
  - apply filter_new_requests.
Qed.

Lemma total_settle id s : total (settle id s) = total s.
Proof. reflexivity. Qed.

Lemma total_set_frame s sc offset : total (set_frame s sc offset) = total s.
Proof. reflexivity. Qed.

Lemma key_requests_settle id s : key_requests (settle id s) = key_requests s.
Proof. reflexivity. Qed.

Lemma key_requests_set_frame s sc offset :
  key_requests (set_frame s sc offset) = key_requests s.
Proof. reflexivity. Qed.

Lemma secondary_requests_settle id s :
  secondary_requests (settle id s) = secondary_requests s.
Proof. reflexivity. Qed.

(** Projections of updated states. *)
Ltac projs :=
  cbn [modelRotation enabledShadow autoRotate rotationSpeed modelPaths
       keyModelsConfig keyModels _globalScale _globalOffset scene
       scene_rotation_y mixers loaded progress_width loadingText
       loadingScreen_hidden console requests pending
       set_keyModels set_frame set_scene set_scene_rotation_y set_mixers
       set_loaded set_progress set_loadingScreen_hidden set_console set_loader
       load_all settle throw scene_add scene_remove load
       model_placed key_placed onError cb];
  repeat (rewrite total_set_frame || rewrite total_settle
          || rewrite key_requests_set_frame || rewrite key_requests_settle
          || rewrite secondary_requests_settle).

Lemma NoDup_app_seq (l : list nat) (a n : nat) :
  NoDup l -> (forall x, In x l -> x < a) -> NoDup (l ++ seq a n).
Proof.
  intros Hl Hlt. induction l as [|x l IH]; simpl.
  - apply seq_NoDup.
  - inversion Hl; subst. constructor.
    + rewrite in_app_iff, in_seq. intros [?|?]; [tauto|].
      specialize (Hlt x (or_introl eq_refl)). lia.
    + apply IH; auto. intros y Hy. apply Hlt. now right.
Qed.

Lemma requests_nonempty s : Inv s -> 1 <= List.length (requests s).
Proof.
  intros H. pose proof (inv_req0 s H) as H0.
  destruct (requests s); [discriminate|simpl; lia].
Qed.

Lemma Inv_load_all rs s :
  Inv s ->
  (forall r, In r rs -> cb r <> CbBase) ->
  (forall r code p, In r rs -> cb r = CbKey code p ->
                    exists km, get (keyModels s) code = Some km) ->
  (forall r i, In r rs -> cb r = CbSecondary i -> _globalOffset s <> None) ->
  loaded s + List.length (model_pending s) + List.length (filter is_model rs)
  <= Nat.max 1 (total s) ->
  Inv (load_all rs s).
Proof.
  intros H Hb Hk Hs Hc.
  pose proof (requests_nonempty s H) as Hne.
  assert (Hold : forall code id, id < List.length (requests s) ->
            key_request (load_all rs s) code id = key_request s code id).
  { intros. apply key_request_old with (rs := rs); auto. }
  constructor; try (solve [apply H]).
  - projs. intros id. rewrite in_app_iff, in_seq, length_app.
    intros [Hi|Hi]; [apply (inv_pending_lt s H) in Hi|]; lia.
  - projs. apply NoDup_app_seq; apply H.
  - projs. apply nth_error_app_old. apply H.
  - projs. intros id r Hn Hcb.
    apply nth_error_app_cases in Hn. destruct Hn as [Hn|[_ Hn]].
    + eapply (inv_base_unique s H); eauto.
    + exfalso. eapply Hb; eauto.
  - projs. intros id r code p Hn Hcb.
    apply nth_error_app_cases in Hn. destruct Hn as [Hn|[_ Hn]].
    + eapply (inv_key_req s H); eauto.
    + eapply Hk; eauto.
  - projs. rewrite in_app_iff, in_seq. intros [Hi|Hi].
    + now apply (inv_base_pending s H).
    + lia.
  - projs. intros Hoff. destruct (inv_noframe s H Hoff) as (A & B & C).
    repeat split; auto. intros r i. rewrite in_app_iff. intros [Hi|Hi].
    + now apply C.
    + intros Hcb. eapply Hs; eauto.
  - projs. intros o Ho. destruct (inv_scene s H o Ho) as (A & B & C).
    rewrite length_app, in_app_iff, in_seq.
    split; [lia|split; [intros [?|?]; [tauto|lia]|exact C]].
  - intros code m Hm. destruct (inv_mesh_in s H code m Hm) as [A B].
    split; auto. rewrite Hold; auto. eapply key_request_lt; eauto.
  - intros o code Ho Hkr. apply (inv_resident s H); auto.
    rewrite <- Hold; auto. apply (inv_scene s H o Ho).
  - rewrite model_pending_load_all by apply H.
    change (loaded (load_all rs s)) with (loaded s).
    change (total (load_all rs s)) with (total s). lia.
Qed.

Lemma Inv_set_pressed s code km b :
  Inv s -> get (keyModels s) code = Some km ->
  Inv (set_keyModels s (put (keyModels s) code (set_pressed b km))).
Proof.
  intros H Hg.
  assert (Hm : forall c, slot_mesh
                 (set_keyModels s (put (keyModels s) code (set_pressed b km))) c
               = slot_mesh s c).
  { intros c. unfold slot_mesh. projs. rewrite get_put.
    destruct (String.eqb code c) eqn:E; auto.
    apply String.eqb_eq in E; subst c. now rewrite Hg. }
  constructor; try (solve [apply H]).
  - projs. intros id r c p Hn Hcb.
    destruct (inv_key_req s H id r c p Hn Hcb) as [km' Hkm'].
    rewrite get_put. destruct (String.eqb code c); eauto.
  - intros c m. rewrite Hm. apply (inv_mesh_in s H).
  - intros o c Ho Hkr. rewrite Hm. now apply (inv_resident s H).
  - projs. intros c. rewrite get_put.
    destruct (String.eqb code c) eqn:E; [|apply H].
    apply String.eqb_eq in E; subst c. rewrite <- (inv_slots s H code), Hg.
    reflexivity.
Qed.

Lemma Inv_keydown s code : Inv s -> Inv (keydown code s).
Proof.
  intros H. unfold keydown.
  destruct (get (keyModels s) code) as [km|] eqn:Hg; auto.
  destruct (pressed km) eqn:Hp; auto. simpl.
  unfold _swapKeyModel. cbn [keyModels set_keyModels]. rewrite get_put_same.
  unfold _loadKeyModel. rewrite load_load_all.
  apply Inv_load_all.
  - now apply Inv_set_pressed.
  - intros r [<-|[]]. discriminate.
  - intros r c p [<-|[]] [= <- _]. projs. rewrite get_put_same. eauto.
  - intros r i [<-|[]]. discriminate.
  - pose proof (inv_count s H) as Hc. simpl. rewrite Nat.add_0_r. exact Hc.
Qed.

Lemma Inv_keyup s code : Inv s -> Inv (keyup code s).
Proof.
  intros H. unfold keyup.
  destruct (get (keyModels s) code) as [km|] eqn:Hg; auto.
  destruct (pressed km) eqn:Hp; auto.
  unfold _swapKeyModel. cbn [keyModels set_keyModels]. rewrite get_put_same.
  unfold _loadKeyModel. rewrite load_load_all.
  apply Inv_load_all.
  - now apply Inv_set_pressed.
  - intros r [<-|[]]. discriminate.
  - intros r c p [<-|[]] [= <- _]. projs. rewrite get_put_same. eauto.
  - intros r i [<-|[]]. discriminate.
  - pose proof (inv_count s H) as Hc. simpl. rewrite Nat.add_0_r. exact Hc.
Qed.

Lemma NoDup_snoc {A : Type} (l : list A) (x : A) :
  NoDup l -> ~ In x l -> NoDup (l ++ [x]).
Proof.
  intros Hl Hx. apply (Permutation_NoDup (l := x :: l)).
  - apply Permutation_cons_append.
  - now constructor.
Qed.

Lemma shadow_flags_ok b n :
  isMesh (shadow_flags b n) = true ->
  castShadow (shadow_flags b n) = b /\ receiveShadow (shadow_flags b n) = b.
Proof.
  unfold shadow_flags. destruct (isMesh n) eqn:E; simpl; [auto|congruence].
Qed.

Lemma placed_framed s id g sc offset :
  _globalScale s = Some sc -> _globalOffset s = Some offset ->
  framed s (placed id g (modelRotation s) sc offset (enabledShadow s)).
Proof.
  intros Hs Ho. exists sc, offset. repeat split; auto.
  - cbn in H. apply in_map_iff in H. destruct H as (n0 & <- & _).
    now apply shadow_flags_ok.
  - cbn in H. apply in_map_iff in H. destruct H as (n0 & <- & _).
    now apply shadow_flags_ok.
Qed.

Lemma framed_same s s' o :
  _globalScale s' = _globalScale s -> _globalOffset s' = _globalOffset s ->
  modelRotation s' = modelRotation s -> enabledShadow s' = enabledShadow s ->
  framed s o -> framed s' o.
Proof.
  intros E1 E2 E3 E4 (sc & offset & A & B & C & D & E & F).
  exists sc, offset. rewrite E1, E2, E3, E4. auto 10.
Qed.

(** A model of [loadModels] enters the scene and is counted. *)
Lemma Inv_place s1 s2 id g sc offset :
  Inv s1 ->
  ~ In id (pending s1) -> id < List.length (requests s1) ->
  ~ In id (map uid (scene s1)) -> model_request s1 id = true ->
  loaded s1 + List.length (model_pending s1) + 1 <= Nat.max 1 (total s1) ->
  (_globalScale s1 = Some sc /\ _globalOffset s1 = Some offset)
  \/ (_globalOffset s1 = None /\ id = 0) ->
  requests s2 = requests s1 -> pending s2 = pending s1 ->
  modelPaths s2 = modelPaths s1 -> keyModels s2 = keyModels s1 ->
  keyModelsConfig s2 = keyModelsConfig s1 ->
  modelRotation s2 = modelRotation s1 -> enabledShadow s2 = enabledShadow s1 ->
  _globalScale s2 = Some sc -> _globalOffset s2 = Some offset ->
  scene s2
  = scene s1 ++ [placed id g (modelRotation s1) sc offset (enabledShadow s1)] ->
  loaded s2 = S (loaded s1) ->
  progress_width s2 = Some (percent (S (loaded s1)) (total s1)) ->
  loadingScreen_hidden s2
  = (if S (loaded s1) =? total s1 then true else loadingScreen_hidden s1) ->
  Inv s2.
Proof.
  intros H Hnp Hlt Hfresh Hmod Hc Hfr Er Ep Emp Ek Ekc Erot Esh Esc Eoff Escn El Ew Eh.
  assert (Et : total s2 = total s1) by (unfold total; now rewrite Emp).
  assert (Ekr : forall c i, key_request s2 c i = key_request s1 c i)
    by (intros; unfold key_request; now rewrite Er).
  assert (Esm : forall c, slot_mesh s2 c = slot_mesh s1 c)
    by (intros; unfold slot_mesh; now rewrite Ek).
  assert (Emq : model_pending s2 = model_pending s1).
  { unfold model_pending. rewrite Ep. apply filter_ext. intros i.
    unfold model_request. now rewrite Er. }
  assert (Hfm : framed s2 (placed id g (modelRotation s1) sc offset (enabledShadow s1))).
  { rewrite <- Erot, <- Esh. now apply placed_framed. }
  constructor.
  - rewrite Er, Ep. apply H.
  - rewrite Ep. apply H.
  - rewrite Er, Emp. apply H.
  - rewrite Er. apply H.
  - rewrite Er, Ek. apply H.
  - rewrite Esc, Eoff. split; discriminate.
  - rewrite Ep, Eoff. intros H0. exfalso. destruct Hfr as [[_ Ho]|[_ ->]]; [|tauto].
    apply (inv_base_pending s1 H) in H0. congruence.
  - rewrite Eoff. discriminate.
  - rewrite Escn, Er, Ep. intros o Ho. apply in_app_iff in Ho.
    destruct Ho as [Ho|[<-|[]]].
    + destruct (inv_scene s1 H o Ho) as (A & B & C). repeat split; auto.
      destruct Hfr as [[Hs Hof]|[Hof _]].
      * apply framed_same with (s := s1); auto; congruence.
      * destruct (inv_noframe s1 H Hof) as (Hnil & _). rewrite Hnil in Ho. destruct Ho.
    + repeat split; auto.
  - rewrite Escn, map_app. simpl. apply NoDup_snoc; auto. apply H.
  - intros _. rewrite Escn. destruct Hfr as [[Hs Hof]|[Hof ->]].
    + destruct (inv_base_in_scene s1 H) as (m0 & A & B); [congruence|].
      exists m0. split; auto. apply in_app_iff. now left.
    + eexists. split; [apply in_app_iff; right; left; reflexivity|reflexivity].
  - intros c m. rewrite Esm, Ekr, Escn. intros Hm.
    destruct (inv_mesh_in s1 H c m Hm). split; auto. apply in_app_iff. now left.
  - intros o c. rewrite Esm, Ekr, Escn, in_app_iff. intros [Ho|[<-|[]]] Hkr.
    + now apply (inv_resident s1 H).
    + apply key_request_model in Hkr.
      change (model_request s1 id = false) in Hkr. congruence.
  - rewrite Emq, El, Et. lia.
  - rewrite Eh, El, Et. destruct (S (loaded s1) =? total s1) eqn:E.
    + apply Nat.eqb_eq in E. intros _. lia.
    + intros Hh. destruct (inv_hidden s1 H Hh). lia.
  - rewrite Eoff, Ew, El, Et, Eh. intros _. repeat split; try discriminate.
    intros E. apply Nat.eqb_eq in E. now rewrite E.
  - rewrite El. discriminate.
  - intros c. rewrite Ek, Ekc. apply H.
Qed.

(** The mesh of a key slot is replaced. *)
Lemma Inv_swap s1 s2 id code km g sc offset :
  Inv s1 ->
  ~ In id (pending s1) -> id < List.length (requests s1) ->
  ~ In id (map uid (scene s1)) -> key_request s1 code id = true ->
  get (keyModels s1) code = Some km ->
  _globalScale s1 = Some sc -> _globalOffset s1 = Some offset ->
  requests s2 = requests s1 -> pending s2 = pending s1 ->
  modelPaths s2 = modelPaths s1 -> keyModelsConfig s2 = keyModelsConfig s1 ->
  modelRotation s2 = modelRotation s1 -> enabledShadow s2 = enabledShadow s1 ->
  _globalScale s2 = _globalScale s1 -> _globalOffset s2 = _globalOffset s1 ->
  loaded s2 = loaded s1 -> progress_width s2 = progress_width s1 ->
  loadingScreen_hidden s2 = loadingScreen_hidden s1 ->
  keyModels s2
  = put (keyModels s1) code
      (set_mesh (placed id g (modelRotation s1) sc offset (enabledShadow s1)) km) ->
  scene s2
  = match mesh km with
    | Some prev => remove_child prev (scene s1)
    | None => scene s1
    end ++ [placed id g (modelRotation s1) sc offset (enabledShadow s1)] ->
  Inv s2.
Proof.
  intros H Hnp Hlt Hfresh Hkey Hg Hsc Hoff Er Ep Emp Ekc Erot Esh Esc Eoff El Ew Eh Ek Escn.
  set (m := placed id g (modelRotation s1) sc offset (enabledShadow s1)) in *.
  set (sc0 := match mesh km with
              | Some prev => remove_child prev (scene s1)
              | None => scene s1
              end) in *.
  assert (Hincl : forall o, In o sc0 -> In o (scene s1)).
  { intros o. unfold sc0. destruct (mesh km); eauto using remove_child_incl. }
  assert (Hkeep : forall o c, In o (scene s1) -> key_request s1 c (uid o) = false ->
                              c = code -> In o sc0).
  { intros o c Ho Hk ->. unfold sc0. destruct (mesh km) as [prev|] eqn:Hm; auto.
    apply remove_child_keep; auto. intros E.
    destruct (inv_mesh_in s1 H code prev) as [_ Hp];
      [unfold slot_mesh; now rewrite Hg|]. congruence. }
  assert (Et : total s2 = total s1) by (unfold total; now rewrite Emp).
  assert (Ekr : forall c i, key_request s2 c i = key_request s1 c i)
    by (intros; unfold key_request; now rewrite Er).
  assert (Esm : forall c, slot_mesh s2 c
                          = if String.eqb code c then Some m else slot_mesh s1 c).
  { intros c. unfold slot_mesh. rewrite Ek, get_put.
    destruct (String.eqb code c); reflexivity. }
  assert (Emq : model_pending s2 = model_pending s1).
  { unfold model_pending. rewrite Ep. apply filter_ext. intros i.
    unfold model_request. now rewrite Er. }
  assert (Hnd0 : NoDup (map uid sc0)).
  { unfold sc0. destruct (mesh km); [apply remove_child_nodup|]; apply H. }
  constructor.
  - rewrite Er, Ep. apply H.
  - rewrite Ep. apply H.
  - rewrite Er, Emp. apply H.
  - rewrite Er. apply H.
  - rewrite Er, Ek. intros i r c p Hn Hcb.
    destruct (inv_key_req s1 H i r c p Hn Hcb) as [km' Hkm'].
    rewrite get_put. destruct (String.eqb code c); eauto.
  - rewrite Esc, Eoff. apply H.
  - rewrite Ep, Eoff. apply H.
  - rewrite Eoff, Hoff. discriminate.
  - rewrite Escn, Er, Ep. intros o Ho. apply in_app_iff in Ho.
    destruct Ho as [Ho|[<-|[]]].
    + destruct (inv_scene s1 H o (Hincl o Ho)) as (A & B & C). repeat split; auto.
      apply framed_same with (s := s1); auto.
    + repeat split; auto. unfold m. rewrite <- Erot, <- Esh.
      apply placed_framed; congruence.
  - rewrite Escn, map_app. simpl. apply NoDup_snoc; auto.
    intros Hin. apply Hfresh. apply in_map_iff in Hin. destruct Hin as (o & E & Ho).
    apply in_map_iff. eauto.
  - intros _. rewrite Escn.
    destruct (inv_base_in_scene s1 H) as (m0 & A & B); [congruence|].
    exists m0. split; auto. apply in_app_iff. left.
    apply (Hkeep m0 code); auto. unfold key_request. rewrite B, (inv_req0 s1 H).
    reflexivity.
  - intros c m'. rewrite Esm, Ekr, Escn.
    destruct (String.eqb code c) eqn:E.
    + apply String.eqb_eq in E; subst c. intros [= <-]. split; auto.
      apply in_app_iff. right. now left.
    + intros Hm. destruct (inv_mesh_in s1 H c m' Hm) as [A B]. split; auto.
      apply in_app_iff. left. apply (Hkeep m' code); auto.
      destruct (key_request s1 code (uid m')) eqn:E'; auto.
      apply String.eqb_neq in E.
      pose proof (key_request_functional s1 code c (uid m') E' B). congruence.
  - intros o c. rewrite Esm, Ekr, Escn, in_app_iff. intros [Ho|[<-|[]]] Hkr.
    + destruct (String.eqb code c) eqn:E.
      * apply String.eqb_eq in E; subst c. exfalso.
        pose proof (inv_resident s1 H o code (Hincl o Ho) Hkr) as Hm.
        unfold slot_mesh in Hm. rewrite Hg in Hm.
        unfold sc0 in Ho. rewrite Hm in Ho.
        apply (remove_child_gone o (scene s1)); [apply H|].
        apply in_map. exact Ho.
      * apply (inv_resident s1 H); auto.
    + change (key_request s1 c id = true) in Hkr.
      pose proof (key_request_functional s1 code c id Hkey Hkr) as ->.
      now rewrite String.eqb_refl.
  - rewrite Emq, El, Et. apply H.
  - rewrite Eh, El, Et. apply H.
  - rewrite Eoff, Ew, El, Et, Eh. apply H.
  - rewrite El, Ew. apply H.
  - intros c. rewrite Ek, Ekc, get_put.
    destruct (String.eqb code c) eqn:E; [|apply H].
    apply String.eqb_eq in E; subst c. rewrite <- (inv_slots s1 H code), Hg.
    reflexivity.
Qed.

Lemma key_requests_In s r :
  In r (key_requests s) ->
  exists code km,
    get (keyModels s) code = Some km /\
    r = mkRequest (off (paths km)) (CbKey code (off (paths km))).
Proof.
  unfold key_requests. rewrite in_flat_map. intros (code & _ & Hr).
  destruct (get (keyModels s) code) as [km|] eqn:E; [|destruct Hr].
  destruct Hr as [<-|[]]. eauto.
Qed.

Lemma key_requests_not_model s : filter is_model (key_requests s) = [].
Proof.
  unfold key_requests. induction (map fst (keyModels s)) as [|c l IH]; simpl; auto.
  rewrite filter_app, IH, app_nil_r. now destruct (get (keyModels s) c).
Qed.

Lemma secondary_requests_In s r :
  In r (secondary_requests s) -> exists i, cb r = CbSecondary i.
Proof.
  unfold secondary_requests. rewrite in_map_iff. intros (i & <- & _). simpl. eauto.
Qed.

Lemma secondary_requests_length s :
  List.length (filter is_model (secondary_requests s)) = total s - 1.
Proof.
  unfold secondary_requests, total.
  assert (G : forall l : list nat,
             List.length
               (filter is_model
                  (map (fun i => mkRequest (nth i (modelPaths s) None)
                                   (CbSecondary i)) l))
             = List.length l).
  { induction l as [|i l IH]; simpl; auto. }
  rewrite G. apply length_seq.
Qed.

Lemma Inv_updateProgress s ld :
  Inv (set_loadingScreen_hidden
         (set_progress s (percent ld (total s))
            (if geb (percent ld (total s)) (of_Z 100) then Finalizing
             else Loading (percent ld (total s))))
         (if ld =? total s then true else loadingScreen_hidden s)) ->
  Inv (_updateProgress ld (total s) s).
Proof.
  intros H. rewrite _updateProgress_eq.
  apply Inv_load_all; auto.
  - intros r Hr. destruct (ld =? total s); [|destruct Hr].
    apply key_requests_In in Hr. destruct Hr as (c & km & _ & ->). discriminate.
  - intros r c p Hr Hcb. destruct (ld =? total s); [|destruct Hr].
    apply key_requests_In in Hr. destruct Hr as (c' & km & Hg & ->).
    injection Hcb as <- _. eauto.
  - intros r i Hr Hcb. destruct (ld =? total s); [|destruct Hr].
    apply key_requests_In in Hr. destruct Hr as (c' & km & Hg & ->). discriminate.
  - pose proof (inv_count _ H) as Hc.
    destruct (ld =? total s); [rewrite key_requests_not_model|]; simpl;
      rewrite Nat.add_0_r; exact Hc.
Qed.

Lemma pending_fresh s id o :
  Inv s -> In id (pending s) -> In o (scene s) -> uid o <> id.
Proof.
  intros H Hin Ho E. destruct (inv_scene s H o Ho) as (_ & B & _). congruence.
Qed.

Theorem Inv_step s e s' : Inv s -> step s e = Some s' -> Inv s'.
Proof.
  intros H Hstep. destruct e as [id g|id|code|code|delta].
  - apply step_LoadOk in Hstep. destruct Hstep as (r & Hin & Hn & ->).
    destruct (Inv_settle s id H Hin) as (H1 & Hnp & Hc).
    assert (Hlt : id < List.length (requests s))
      by (apply nth_error_Some; congruence).
    assert (Hfresh : ~ In id (map uid (scene s))).
    { rewrite in_map_iff. intros (o & E & Ho).
      apply (pending_fresh s id o H Hin Ho E). }
    destruct r as [p0 [|i|code p]]; cbn [cb].
    + (* the base model *)
      assert (id = 0) by (eapply (inv_base_unique s H); eauto). subst id.
      pose proof (inv_base_pending s H Hin) as Hoff.
      destruct (inv_noframe s H Hoff) as (Hscn & Hld & Hnosec).
      assert (Hmr : model_request s 0 = true)
        by (unfold model_request; now rewrite Hn).
      rewrite Hmr in Hc.
      rewrite onLoad_base_eq. cbv zeta.
      match goal with |- Inv (load_all _ ?st) => assert (H2 : Inv st) end.
      { match goal with |- Inv (_updateProgress _ _ ?st) =>
          change (total (settle 0 s)) with (total st) end.
        apply Inv_updateProgress.
        eapply Inv_place with (s1 := settle 0 s) (id := 0); eauto;
          try reflexivity. }
      apply Inv_load_all; auto.
      * intros r Hr. apply secondary_requests_In in Hr. destruct Hr as [i ->].
        discriminate.
      * intros r c p Hr Hcb. apply secondary_requests_In in Hr.
        destruct Hr as [i Hi]. congruence.
      * intros r i _ _. rewrite _updateProgress_eq. projs. discriminate.
      * rewrite secondary_requests_length.
        rewrite _updateProgress_eq.
        rewrite model_pending_load_all by apply H1.
        assert (Hmp : model_pending (settle 0 s) = []).
        { unfold model_pending.
          destruct (filter _ _) as [|x l] eqn:E; auto. exfalso.
          assert (Hx : In x (filter (model_request (settle 0 s))
                               (pending (settle 0 s))))
            by (rewrite E; now left).
          apply filter_In in Hx. destruct Hx as [Hx1 Hx2].
          unfold model_request in Hx2.
          change (requests (settle 0 s)) with (requests s) in Hx2.
          destruct (nth_error (requests s) x) as [[q [|j|c q']]|] eqn:En;
            try discriminate.
          - assert (x = 0) by (eapply (inv_base_unique s H); eauto). subst x.
            tauto.
          - eapply Hnosec; [eapply nth_error_In; eauto|reflexivity]. }
        match goal with |- context [model_pending ?st] =>
          change (model_pending st) with (model_pending (settle 0 s)) end.
        rewrite Hmp.
        projs. unfold total. projs. rewrite Hld.
        destruct (_ =? _); rewrite ?key_requests_not_model;
          cbn [List.length filter]; lia.
    + (* a further model *)
      destruct (_globalOffset s) as [offset|] eqn:Hoff.
      2:{ exfalso. destruct (inv_noframe s H Hoff) as (_ & _ & Hnosec).
          eapply Hnosec; [eapply nth_error_In; eauto|reflexivity]. }
      destruct (_globalScale s) as [sc|] eqn:Hsc.
      2:{ apply (inv_frame_pair s H) in Hsc. congruence. }
      assert (Hmr : model_request s id = true)
        by (unfold model_request; now rewrite Hn).
      rewrite Hmr in Hc.
      rewrite onLoad_secondary_eq with (offset := offset) by exact Hoff.
      cbv zeta.
      match goal with |- Inv (_updateProgress _ _ ?st) =>
        change (total (settle id s)) with (total st) end.
      apply Inv_updateProgress.
      eapply Inv_place with (s1 := settle id s) (id := id) (sc := sc)
                            (offset := offset); eauto; try reflexivity.
      projs. rewrite Hsc. reflexivity.
    + (* a key model *)
      destruct (inv_key_req s H id _ code p Hn eq_refl) as [km Hg].
      unfold onLoad_key. projs. rewrite Hg.
      assert (Hkr : key_request s code id = true)
        by (unfold key_request; rewrite Hn; apply String.eqb_refl).
      destruct (_globalOffset s) as [offset|] eqn:Hoff.
      * destruct (_globalScale s) as [sc|] eqn:Hsc.
        2:{ apply (inv_frame_pair s H) in Hsc. congruence. }
        rewrite swap_in_eq with (offset := offset) by exact Hoff. cbv zeta.
        eapply Inv_swap with (s1 := settle id s) (id := id) (km := km)
                             (sc := sc) (offset := offset);
          eauto; try reflexivity; projs; rewrite ?Hsc; reflexivity.
      * rewrite swap_in_throw by exact Hoff.
        destruct (mesh km) as [prev|] eqn:Hm.
        -- exfalso. destruct (inv_noframe s H Hoff) as (Hscn & _).
           destruct (inv_mesh_in s H code prev) as [A _];
             [unfold slot_mesh; now rewrite Hg|].
           rewrite Hscn in A. destruct A.
        -- now apply Inv_throw.
  - apply step_LoadErr in Hstep. destruct Hstep as (r & Hin & Hn & ->).
    apply Inv_onError. now apply Inv_settle.
  - injection Hstep as <-. now apply Inv_keydown.
  - injection Hstep as <-. now apply Inv_keyup.
  - injection Hstep as <-. now apply Inv_animate.
Qed.

Theorem reachable_Inv config s : reachable config s -> Inv s.
Proof.
  induction 1; [apply Inv_init|eapply Inv_step; eauto].
Qed.

(** ** What a step does *)

Lemma step_effect s e s' :
  Inv s -> step s e = Some s' ->
  match e with
  | LoadOk id g =>
      In id (pending s) /\
      exists r, nth_error (requests s) id = Some r /\
        match cb r with
        | CbBase =>
            id = 0 /\ _globalOffset s = None /\ _globalScale s = None /\
            let model0 := set_rotation (modelRotation s) (gltf_scene 0 g) in
            s' = load_all (secondary_requests s)
                   (model_placed 0 g (frame_scale model0) (frame_offset model0)
                      (set_frame (settle 0 s) (frame_scale model0)
                         (frame_offset model0)))
        | CbSecondary i =>
            exists sc offset,
              _globalScale s = Some sc /\ _globalOffset s = Some offset /\
              s' = model_placed id g sc offset (settle id s)
        | CbKey code p =>
            exists km, get (keyModels s) code = Some km /\
              ((exists sc offset,
                  _globalScale s = Some sc /\ _globalOffset s = Some offset /\
                  s' = key_placed id code km g sc offset (settle id s))
               \/ (_globalScale s = None /\ _globalOffset s = None /\
                   mesh km = None /\ s' = throw id (settle id s)))
        end
  | LoadErr id =>
      In id (pending s) /\
      exists r, nth_error (requests s) id = Some r /\
                s' = onError (cb r) (settle id s)
  | KeyDown code => s' = keydown code s
  | KeyUp code => s' = keyup code s
  | Frame delta => s' = animate delta s
  end.
Proof.
  intros H Hstep. destruct e as [id g|id|code|code|delta];
    try (injection Hstep as <-; reflexivity).
  - apply step_LoadOk in Hstep. destruct Hstep as (r & Hin & Hn & ->).
    split; auto. exists r. split; auto.
    destruct r as [p0 [|i|code p]]; cbn [cb].
    + assert (id = 0) by (eapply (inv_base_unique s H); eauto). subst id.
      pose proof (inv_base_pending s H Hin) as Hoff.
      repeat split; auto; [now apply (inv_frame_pair s H)|].
      rewrite onLoad_base_eq. cbv zeta. rewrite _updateProgress_eq. reflexivity.
    + destruct (_globalOffset s) as [offset|] eqn:Hoff.
      2:{ exfalso. destruct (inv_noframe s H Hoff) as (_ & _ & Hnosec).
          eapply Hnosec; [eapply nth_error_In; eauto|reflexivity]. }
      destruct (_globalScale s) as [sc|] eqn:Hsc.
      2:{ apply (inv_frame_pair s H) in Hsc. congruence. }
      exists sc, offset. repeat split; auto.
      rewrite onLoad_secondary_eq with (offset := offset) by exact Hoff.
      cbv zeta. rewrite _updateProgress_eq. projs. rewrite Hsc. reflexivity.
    + destruct (inv_key_req s H id _ code p Hn eq_refl) as [km Hg].
      exists km. split; auto.
      unfold onLoad_key. projs. rewrite Hg.
      destruct (_globalOffset s) as [offset|] eqn:Hoff.
      * destruct (_globalScale s) as [sc|] eqn:Hsc.
        2:{ apply (inv_frame_pair s H) in Hsc. congruence. }
        left. exists sc, offset. repeat split; auto.
        rewrite swap_in_eq with (offset := offset) by exact Hoff.
        cbv zeta. projs. rewrite Hsc. reflexivity.
      * right. rewrite swap_in_throw by exact Hoff.
        assert (Hm : mesh km = None).
        { destruct (mesh km) as [prev|] eqn:Hm; auto. exfalso.
          destruct (inv_noframe s H Hoff) as (Hscn & _).
          destruct (inv_mesh_in s H code prev) as [A _];
            [unfold slot_mesh; now rewrite Hg|].
          rewrite Hscn in A. destruct A. }
        rewrite Hm. repeat split; auto. now apply (inv_frame_pair s H).
  - apply step_LoadErr in Hstep. destruct Hstep as (r & Hin & Hn & ->). eauto.
Qed.

Lemma same_settings_refl s : same_settings s s.
Proof. repeat split. Qed.

Lemma same_settings_trans s1 s2 s3 :
  same_settings s1 s2 -> same_settings s2 s3 -> same_settings s1 s3.
Proof.
  unfold same_settings. intros (A1 & A2 & A3 & A4 & A5 & A6) (B1 & B2 & B3 & B4 & B5 & B6).
  repeat split; congruence.
Qed.

Lemma keydown_cases code s :
  keydown code s = s \/
  exists km, get (keyModels s) code = Some km /\ pressed km = false /\
    keydown code s
    = load_all [mkRequest (on (paths km)) (CbKey code (on (paths km)))]
        (set_keyModels s (put (keyModels s) code (set_pressed true km))).
Proof.
  destruct (get (keyModels s) code) as [km|] eqn:Hg.
  - destruct (pressed km) eqn:Hp.
    + left. unfold keydown. now rewrite Hg, Hp.
    + right. exists km. repeat split; auto. now apply keydown_eq.
  - left. unfold keydown. now rewrite Hg.
Qed.

Lemma keyup_cases code s :
  keyup code s = s \/
  exists km, get (keyModels s) code = Some km /\ pressed km = true /\
    keyup code s
    = load_all [mkRequest (off (paths km)) (CbKey code (off (paths km)))]
        (set_keyModels s (put (keyModels s) code (set_pressed false km))).
Proof.
  destruct (get (keyModels s) code) as [km|] eqn:Hg.
  - destruct (pressed km) eqn:Hp.
    + right. exists km. repeat split; auto. now apply keyup_eq.
    + left. unfold keyup. now rewrite Hg, Hp.
  - left. unfold keyup. now rewrite Hg.
Qed.

Lemma animate_cases delta s :
  animate delta s = set_mixers s (map (update delta) (mixers s)) \/
  animate delta s
  = set_scene_rotation_y (set_mixers s (map (update delta) (mixers s)))
      (add (scene_rotation_y s) (rotationSpeed s)).
Proof. unfold animate. projs. destruct (autoRotate s); auto. Qed.

(** Unfolds the state a step leaves, case by case. *)
Ltac step_cases H Hstep :=
  let E := fresh "E" in
  pose proof (step_effect _ _ _ H Hstep) as E;
  match type of Hstep with
  | step _ ?e = _ =>
      destruct e as [?id ?g|?id|?code|?code|?delta]
  end;
  [ let r := fresh "r" in
    let Hin := fresh "Hin" in
    let Hn := fresh "Hn" in
    destruct E as (Hin & r & Hn & E);
    destruct r as [?p0 [|?i|?code ?p]]; cbn [cb] in E;
    [ destruct E as (? & ? & ? & E); cbv zeta in E
    | destruct E as (?sc & ?offset & ? & ? & E)
    | destruct E as (?km & ? &
                     [(?sc & ?offset & ? & ? & E)|(? & ? & ? & E)]) ]
  | let r := fresh "r" in
    let Hin := fresh "Hin" in
    let Hn := fresh "Hn" in
    destruct E as (Hin & r & Hn & E)
  | match type of E with
    | _ = keydown ?c ?s =>
        destruct (keydown_cases c s) as [?E|(?km & ? & ? & ?E)]
    end
  | match type of E with
    | _ = keyup ?c ?s =>
        destruct (keyup_cases c s) as [?E|(?km & ? & ? & ?E)]
    end
  | match type of E with
    | _ = animate ?d ?s => destruct (animate_cases d s) as [?E|?E]
    end ].

Lemma step_same_settings s e s' :
  Inv s -> step s e = Some s' -> same_settings s s'.
Proof.
  intros H Hstep. step_cases H Hstep; subst s'; try rewrite E0;
    try (destruct (cb r)); repeat split.
Qed.

Lemma reachable_settings config s :
  reachable config s -> same_settings (init config) s.
Proof.
  induction 1 as [|s e s' Hr IH Hstep]; [apply same_settings_refl|].
  eapply same_settings_trans; [exact IH|].
  eapply step_same_settings; eauto using reachable_Inv.
Qed.

Lemma reachable_slot config s code ps :
  reachable config s -> configured config code = Some ps ->
  exists km, get (keyModels s) code = Some km /\ paths km = ps.
Proof.
  intros Hr Hc. pose proof (reachable_Inv config s Hr) as H.
  destruct (reachable_settings config s Hr) as (_ & _ & _ & _ & _ & Hk).
  destruct (init_fields config) as (_ & _ & _ & _ & _ & _ & _ & _ & _ & _ & _ & Hkc & _).
  cbv zeta in Hkc.
  pose proof (inv_slots s H code) as Hs. rewrite Hk, Hkc in Hs.
  unfold configured in Hc.
  destruct (cfg_keyModels config) as [k|]; [|discriminate].
  rewrite Hc in Hs. destruct (get (keyModels s) code) as [km|]; [|discriminate].
  injection Hs as Hs. eauto.
Qed.

(** ** Key events *)

(** C7: key-slot transitions are edge-triggered.  In every state of a
    session, for a slot configured with [{off: A, on: B}]: a key-down while
    the slot is not pressed sets the flag and schedules exactly one load of
    [B]; a key-down while it is pressed changes nothing; a key-up while it is
    pressed clears the flag and schedules exactly one load of [A] (and a
    key-up while it is not pressed changes nothing). *)
Theorem key_events_edge_triggered config s code A B :
  reachable config s ->
  configured config code = Some (mkKeyPaths A B) ->
  edge_triggered s code A B.
Proof.
  intros Hr Hc.
  destruct (reachable_slot config s code _ Hr Hc) as (km & Hg & Hp).
  unfold edge_triggered, slot_pressed. rewrite Hg. cbn [option_map].
  destruct (pressed km) eqn:Hpr.
  - split.
    + cbn [step]. unfold keydown. now rewrite Hg, Hpr.
    + eexists. split; [reflexivity|]. rewrite (keyup_eq code s km Hg Hpr).
      rewrite Hp. projs. rewrite get_put_same. repeat split.
  - split.
    + eexists. split; [reflexivity|]. rewrite (keydown_eq code s km Hg Hpr).
      rewrite Hp. projs. rewrite get_put_same. repeat split.
    + cbn [step]. unfold keyup. now rewrite Hg, Hpr.
Qed.

Lemma key_events_edge_triggered_witness :
  reachable car_config (init car_config) /\
  configured car_config "Digit1"
  = Some (mkKeyPaths (Some "light_off.glb"%string) (Some "light_on.glb"%string)) /\
  edge_triggered (init car_config) "Digit1"
    (Some "light_off.glb"%string) (Some "light_on.glb"%string).
Proof.
  assert (H1 : reachable car_config (init car_config)) by apply reach_init.
  assert (H2 : configured car_config "Digit1"
               = Some (mkKeyPaths (Some "light_off.glb"%string)
                         (Some "light_on.glb"%string))) by reflexivity.
  split; [exact H1|split; [exact H2|]].
  exact (key_events_edge_triggered car_config (init car_config) "Digit1"
           _ _ H1 H2).
Defined.

(** ** Runs *)

Lemma run_app s tr1 tr2 :
  run s (tr1 ++ tr2)
  = match run s tr1 with
    | Some s1 => run s1 tr2
    | None => None
    end.
Proof.
  revert s. induction tr1 as [|e tr1 IH]; intros s; simpl; auto.
  destruct (step s e); auto.
Qed.

Lemma run_reachable config s tr s' :
  reachable config s -> run s tr = Some s' -> reachable config s'.
Proof.
  revert s. induction tr as [|e tr IH]; intros s Hr; simpl.
  - now intros [= <-].
  - destruct (step s e) as [s1|] eqn:E; [|discriminate].
    apply IH. eapply reach_step; eauto.
Qed.

Lemma after_reachable config tr :
  run (init config) tr <> None -> reachable config (after config tr).
Proof.
  unfold after. destruct (run (init config) tr) as [s|] eqn:E; [|congruence].
  intros _. eapply run_reachable; [apply reach_init|exact E].
Qed.

Lemma run_after config tr :
  run (init config) tr <> None -> run (init config) tr = Some (after config tr).
Proof.
  unfold after. destruct (run (init config) tr); congruence.
Qed.

(** ** A failed load of a key model *)

(** C10: if the load of a key model fails, the error branch only logs: the
    slots (so the mesh of the slot, and the [pressed] flag the key event had
    set before the load was issued), the scene and the mixers are unchanged.
    So the [pressed] flag and the variant on display can disagree: there is a
    session where a slot is pressed, nothing is in flight, and the mesh of
    the slot is its [off] variant. *)
Theorem key_load_failure_only_logs :
  (forall config s id s' code p u,
      reachable config s ->
      nth_error (requests s) id = Some (mkRequest u (CbKey code p)) ->
      step s (LoadErr id) = Some s' ->
      only_logged s s' code p) /\
  (exists config s code, reachable config s /\ pressed_shows_off s code).
Proof.
  split.
  - intros config s id s' code p u Hr Hn Hstep.
    apply step_LoadErr in Hstep. destruct Hstep as (r & _ & Hn' & ->).
    rewrite Hn in Hn'. injection Hn' as <-. repeat split.
  - exists car_config, light_failed, "Digit1"%string. split.
    + apply after_reachable. vm_compute. discriminate.
    + split; [vm_compute; reflexivity|].
      eexists. eexists. eexists.
      split; [vm_compute; reflexivity|].
      split; [reflexivity|].
      split; [reflexivity|].
      split; [vm_compute; right; right; left; reflexivity|].
      split; [vm_compute; reflexivity|].
      split; [reflexivity|]. cbn. discriminate.
Qed.

Lemma key_load_failure_only_logs_witness :
  reachable car_config light_requested /\
  nth_error (requests light_requested) 3
  = Some (mkRequest (Some "light_on.glb"%string)
            (CbKey "Digit1" (Some "light_on.glb"%string))) /\
  step light_requested (LoadErr 3) = Some light_failed /\
  only_logged light_requested light_failed "Digit1" (Some "light_on.glb"%string).
Proof.
  assert (H1 : reachable car_config light_requested)
    by (apply after_reachable; vm_compute; discriminate).
  assert (H2 : nth_error (requests light_requested) 3
               = Some (mkRequest (Some "light_on.glb"%string)
                         (CbKey "Digit1" (Some "light_on.glb"%string))))
    by (vm_compute; reflexivity).
  assert (H3 : step light_requested (LoadErr 3) = Some light_failed)
    by (vm_compute; reflexivity).
  split; [exact H1|split; [exact H2|split; [exact H3|]]].
  exact (proj1 key_load_failure_only_logs car_config light_requested 3
           light_failed _ _ _ H1 H2 H3).
Defined.

(** ** A failed load of the base model *)

Lemma step_console s e s' :
  Inv s -> step s e = Some s' -> exists l, console s' = console s ++ l.
Proof.
  intros H Hstep. step_cases H Hstep; subst s'; try rewrite E0;
    try (destruct (cb r)); projs;
    solve [exists []; now rewrite app_nil_r | eexists; reflexivity].
Qed.

Lemma step_pending_ge s e s' id :
  Inv s -> step s e = Some s' -> In id (pending s') ->
  In id (pending s) \/ List.length (requests s) <= id.
Proof.
  intros H Hstep. step_cases H Hstep; subst s'; try rewrite E0;
    try (destruct (cb r)); projs;
    rewrite ?in_app_iff, ?in_seq; intros Hid;
    repeat match goal with
           | Hx : _ \/ _ |- _ => destruct Hx
           | Hx : In _ (List.remove _ _ _) |- _ => apply in_remove in Hx
           | Hx : _ /\ _ |- _ => destruct Hx
           end; auto; rewrite ?length_app in *; try lia.
Qed.

Lemma step_base_settled s e s' :
  Inv s -> step s e = Some s' -> ~ In 0 (pending s) -> ~ In 0 (pending s').
Proof.
  intros H Hstep Hn Hin.
  destruct (step_pending_ge s e s' 0 H Hstep Hin) as [?|Hle]; [tauto|].
  pose proof (requests_nonempty s H). lia.
Qed.

Lemma step_frame_kept s e s' :
  Inv s -> step s e = Some s' -> ~ In 0 (pending s) ->
  _globalScale s' = _globalScale s /\ _globalOffset s' = _globalOffset s.
Proof.
  intros H Hstep Hn. step_cases H Hstep; subst s'; try rewrite E0;
    try (destruct (cb r)); try (split; reflexivity).
  subst. tauto.
Qed.

(** C6: if the load of [paths[0]] fails, then, whatever happens next, the
    global scale and offset are never assigned, no load of [paths[1..]] is
    ever issued and the count of loaded models stays 0; the failure is only
    logged, and the base model is not requested again. *)
Theorem base_load_failure config tr1 tr2 s :
  run (init config) (tr1 ++ LoadErr 0 :: tr2) = Some s ->
  stuck_at_base s.
Proof.
  rewrite run_app. destruct (run (init config) tr1) as [s1|] eqn:E1; [|discriminate].
  cbn [run]. destruct (step s1 (LoadErr 0)) as [s2|] eqn:E2; [|discriminate].
  intros E3.
  assert (R1 : reachable config s1)
    by (eapply run_reachable; [apply reach_init|exact E1]).
  pose proof (reachable_Inv _ _ R1) as I1.
  assert (R2 : reachable config s2) by (eapply reach_step; eauto).
  assert (D2 : ~ In 0 (pending s2) /\ _globalOffset s2 = None /\
               In (Error_loading (nth 0 (modelPaths s2) None)) (console s2)).
  { apply step_LoadErr in E2. destruct E2 as (r & Hin & Hn & ->).
    rewrite (inv_req0 s1 I1) in Hn. injection Hn as <-. projs. cbn [cb onError].
    projs. split; [apply remove_In|].
    split; [now apply (inv_base_pending s1 I1)|].
    apply in_app_iff. right. now left. }
  clear E1 E2 R1 I1 s1 tr1.
  revert s2 R2 D2 E3. induction tr2 as [|e tr2 IH]; intros s2 R2 (D1 & D2 & D3).
  - intros [= <-]. pose proof (reachable_Inv _ _ R2) as I2.
    destruct (inv_noframe s2 I2 D2) as (A & B & C).
    repeat split; auto.
    + now apply (inv_frame_pair s2 I2).
    + now apply (inv_idle s2 I2).
    + destruct (loadingScreen_hidden s2) eqn:Eh; auto.
      destruct (inv_hidden s2 I2 Eh). lia.
    + apply (inv_base_unique s2 I2).
  - cbn [run]. destruct (step s2 e) as [s3|] eqn:E; [|discriminate].
    pose proof (reachable_Inv _ _ R2) as I2.
    apply IH; [eapply reach_step; eauto|].
    destruct (step_frame_kept _ _ _ I2 E D1) as [_ F].
    destruct (step_console _ _ _ I2 E) as [l Hl].
    destruct (step_same_settings _ _ _ I2 E) as (_ & _ & _ & _ & Hmp & _).
    split; [eapply step_base_settled; eauto|].
    split; [congruence|].
    rewrite Hmp, Hl. apply in_app_iff. now left.
Qed.

Lemma base_load_failure_witness :
  run (init car_config) ([KeyDown "Digit1"] ++ LoadErr 0
                         :: [LoadOk 1 box_asset; KeyUp "Digit1"])
  = Some base_failed /\
  stuck_at_base base_failed.
Proof.
  assert (H : run (init car_config)
                ([KeyDown "Digit1"] ++ LoadErr 0
                 :: [LoadOk 1 box_asset; KeyUp "Digit1"])
              = Some base_failed)
    by (apply run_after; vm_compute; discriminate).
  split; [exact H|].
  exact (base_load_failure car_config [KeyDown "Digit1"]
           [LoadOk 1 box_asset; KeyUp "Digit1"] base_failed H).
Defined.

(** ** The Normalization Frame is assigned once *)

Lemma step_pending_load s id g s' x :
  Inv s -> step s (LoadOk id g) = Some s' -> In x (pending s') ->
  (In x (pending s) /\ x <> id) \/ List.length (requests s) <= x.
Proof.
  intros H Hstep.
  pose proof (step_effect _ _ _ H Hstep) as E. cbv beta iota in E.
  destruct E as (Hin & r & Hn & E).
  destruct r as [p0 [|i|code p]]; cbn [cb] in E.
  - destruct E as (-> & _ & _ & E). cbv zeta in E. subst s'. projs.
    rewrite !in_app_iff, !in_seq, ?length_app. intros [[Hx|Hx]|Hx].
    + apply in_remove in Hx. tauto.
    + right. lia.
    + right. lia.
  - destruct E as (sc & offset & _ & _ & ->). projs.
    rewrite !in_app_iff, !in_seq. intros [Hx|Hx].
    + apply in_remove in Hx. tauto.
    + right. lia.
  - destruct E as (km & _ & [(sc & offset & _ & _ & ->)|(_ & _ & _ & ->)]);
      projs; intros Hx; apply in_remove in Hx; tauto.
Qed.

Lemma step_settled s id g s' :
  Inv s -> step s (LoadOk id g) = Some s' -> ~ In id (pending s').
Proof.
  intros H Hstep Hid.
  destruct (step_pending_load s id g s' id H Hstep Hid) as [[_ Hne]|Hle].
  - congruence.
  - apply step_LoadOk in Hstep. destruct Hstep as (r & Hin & _).
    pose proof (inv_pending_lt s H _ Hin). lia.
Qed.

Lemma step_frame_other s e s' :
  Inv s -> step s e = Some s' -> base_delivered e = false -> frame s' = frame s.
Proof.
  intros H Hstep Hb. unfold frame.
  step_cases H Hstep; subst s'; try rewrite E0;
    try (destruct (cb r)); try reflexivity.
  subst. discriminate.
Qed.

Lemma step_frame_base config s g s' :
  reachable config s -> step s (LoadOk 0 g) = Some s' ->
  frame s' = frame_of config g.
Proof.
  intros Hr Hstep. pose proof (reachable_Inv _ _ Hr) as H.
  destruct (reachable_settings _ _ Hr) as (Hrot & _).
  unfold frame_of, base_model. rewrite <- Hrot.
  pose proof (step_effect _ _ _ H Hstep) as E.
  destruct E as (Hin & r & Hn & E).
  rewrite (inv_req0 s H) in Hn. injection Hn as <-. cbn [cb] in E.
  destruct E as (_ & _ & _ & ->). reflexivity.
Qed.

Lemma run_base_settled config s0 tr s :
  reachable config s0 -> ~ In 0 (pending s0) -> run s0 tr = Some s ->
  filter base_delivered tr = [] /\ frame s = frame s0.
Proof.
  revert s0. induction tr as [|e tr IH]; intros s0 Hr Hn; cbn [run].
  - intros [= <-]. auto.
  - destruct (step s0 e) as [s1|] eqn:E; [|discriminate]. intros Hrun.
    pose proof (reachable_Inv _ _ Hr) as H.
    assert (Hb : base_delivered e = false).
    { destruct e as [[|id] g| | | |]; auto. exfalso.
      apply step_LoadOk in E. destruct E as (_ & Hin & _). tauto. }
    destruct (IH s1) as [A B]; auto.
    + eapply reach_step; eauto.
    + eapply step_base_settled; eauto.
    + cbn [filter]. rewrite Hb. split; auto.
      rewrite B. eapply step_frame_other; eauto.
Qed.

Lemma run_base_pending config s0 tr s :
  reachable config s0 -> In 0 (pending s0) -> run s0 tr = Some s ->
  List.length (filter base_delivered tr) <= 1 /\
  (filter base_delivered tr = [] -> frame s = (None, None)) /\
  (forall g, In (LoadOk 0 g) tr -> frame s = frame_of config g).
Proof.
  revert s0. induction tr as [|e tr IH]; intros s0 Hr Hp; cbn [run].
  - intros [= <-]. pose proof (reachable_Inv _ _ Hr) as H.
    pose proof (inv_base_pending s0 H Hp) as Ho.
    pose proof (proj2 (inv_frame_pair s0 H) Ho) as Hs.
    unfold frame. rewrite Ho, Hs. simpl. repeat split; auto. intros g [].
  - destruct (step s0 e) as [s1|] eqn:E; [|discriminate]. intros Hrun.
    pose proof (reachable_Inv _ _ Hr) as H.
    assert (Hr1 : reachable config s1) by (eapply reach_step; eauto).
    destruct (base_delivered e) eqn:Hb.
    + destruct e as [[|id] g| | | |]; try discriminate.
      destruct (run_base_settled config s1 tr s Hr1) as [A B]; auto.
      { eapply step_settled; eauto. }
      cbn [filter base_delivered]. rewrite A. simpl.
      split; [lia|]. split; [discriminate|].
      intros g' [Hg'|Hg'].
      * injection Hg' as <-. rewrite B. apply (step_frame_base config s0 g s1 Hr E).
      * exfalso. assert (Hf : In (LoadOk 0 g') (filter base_delivered tr))
          by (apply filter_In; auto).
        rewrite A in Hf. destruct Hf.
    + cbn [filter]. rewrite Hb.
      pose proof (step_frame_other _ _ _ H E Hb) as Hf.
      destruct (in_dec Nat.eq_dec 0 (pending s1)) as [Hp1|Hp1].
      * destruct (IH s1 Hr1 Hp1 Hrun) as (A & B & C).
        repeat split; auto. intros g [Hg|Hg]; [subst e; discriminate|auto].
      * destruct (run_base_settled config s1 tr s Hr1 Hp1 Hrun) as [A B].
        rewrite A. simpl. split; [lia|].
        pose proof (inv_base_pending s0 H Hp) as Ho.
        pose proof (proj2 (inv_frame_pair s0 H) Ho) as Hs.
        split.
        -- intros _. rewrite B, Hf. unfold frame. now rewrite Ho, Hs.
        -- intros g [Hg|Hg]; [subst e; discriminate|]. exfalso.
           assert (Hx : In (LoadOk 0 g) (filter base_delivered tr))
             by (apply filter_In; auto).
           rewrite A in Hx. destruct Hx.
Qed.

Lemma framed_normalized s sc offset :
  Inv s -> frame s = (Some sc, Some offset) -> all_normalized s sc offset.
Proof.
  intros H Hf o Ho. destruct (inv_scene s H o Ho) as (_ & _ & F).
  destruct F as (sc' & offset' & A & B & _ & C & D & _).
  unfold frame in Hf. rewrite A, B in Hf. injection Hf as -> ->. auto.
Qed.

Lemma run_frame_kept config s1 tr s sc offset :
  reachable config s1 -> frame s1 = (Some sc, Some offset) ->
  run s1 tr = Some s ->
  frame s = (Some sc, Some offset) /\ all_normalized s sc offset.
Proof.
  intros Hr Hf Hrun.
  pose proof (reachable_Inv _ _ Hr) as H.
  assert (Hn : ~ In 0 (pending s1)).
  { intros Hp. apply (inv_base_pending s1 H) in Hp.
    unfold frame in Hf. rewrite Hp in Hf. discriminate. }
  destruct (run_base_settled config s1 tr s Hr Hn Hrun) as [_ B].
  rewrite Hf in B. split; auto.
  apply framed_normalized; auto.
  eapply reachable_Inv, run_reachable; eauto.
Qed.

Lemma step_enabled s id g :
  Inv s -> In id (pending s) -> exists s', step s (LoadOk id g) = Some s'.
Proof.
  intros H Hin. cbn [step].
  rewrite (proj2 (is_pending_In id s) Hin).
  pose proof (inv_pending_lt s H id Hin) as Hlt.
  apply nth_error_Some in Hlt.
  destruct (nth_error (requests s) id); [eauto|congruence].
Qed.

Lemma placed_scale_position id g rot sc offset shadow :
  scale (placed id g rot sc offset shadow) = Vector3.setScalar sc /\
  position (placed id g rot sc offset shadow)
  = Vector3.sub Vector3.zero offset.
Proof. split; reflexivity. Qed.

(** With the frame assigned, the asset a load delivers is placed with the
    scale and the offset of the frame and enters the scene: a further part
    of the model after the objects of the scene, a key model in the place
    of the mesh of its slot. *)
Lemma framed_delivery config s id g s' sc offset :
  reachable config s -> frame s = (Some sc, Some offset) ->
  step s (LoadOk id g) = Some s' ->
  let m := placed id g (modelRotation s) sc offset (enabledShadow s) in
  frame s' = frame s /\
  ((secondary_request s id = true /\ scene s' = scene s ++ [m]) \/
   (exists code,
       key_request s code id = true /\
       scene s' = swapped (slot_mesh s code) m (scene s))).
Proof.
  intros Hr Hf Hstep m. pose proof (reachable_Inv _ _ Hr) as H.
  unfold frame in Hf. injection Hf as Hs Ho.
  pose proof (step_effect _ _ _ H Hstep) as E. cbv beta iota in E.
  destruct E as (Hin & r & Hn & E).
  destruct r as [p0 [|i|code p]]; cbn [cb] in E.
  - destruct E as (_ & Ho' & _). congruence.
  - destruct E as (sc' & offset' & Hs' & Ho' & ->).
    rewrite Hs in Hs'. rewrite Ho in Ho'. injection Hs' as <-.
    injection Ho' as <-. split.
    + unfold frame. projs. reflexivity.
    + left. split; [unfold secondary_request; now rewrite Hn|].
      projs. reflexivity.
  - destruct E as (km & Hg & [(sc' & offset' & Hs' & Ho' & ->)|(_ & Ho' & _)]);
      [|congruence].
    rewrite Hs in Hs'. rewrite Ho in Ho'. injection Hs' as <-.
    injection Ho' as <-. split.
    + unfold frame. projs. reflexivity.
    + right. exists code. split.
      * unfold key_request. rewrite Hn. apply String.eqb_refl.
      * unfold slot_mesh, swapped. rewrite Hg. projs. reflexivity.
Qed.

(** C2: the global scale and offset are assigned once in a session, by the
    callback of the first asset only: a run holds at most one delivery of
    the base model, the frame is undefined as long as there is none and is
    the frame of the delivered base asset afterwards.  Once assigned, the
    frame never changes, and every model in the scene (the base model, the
    further parts and the key variants) carries exactly that scale and that
    offset.  Every asset delivered from then on, whatever its geometry, is
    given that scale and the position [0 - offset] and is added to the
    scene with them: a further part of the model after the others, a key
    variant in the place of the mesh of its slot; and every load in flight
    can deliver any asset. *)
Theorem frame_assigned_once config :
  (forall tr s,
      run (init config) tr = Some s ->
      List.length (filter base_delivered tr) <= 1 /\
      (filter base_delivered tr = [] -> frame s = (None, None)) /\
      (forall g, In (LoadOk 0 g) tr -> frame s = frame_of config g)) /\
  (forall s1 tr s sc offset,
      reachable config s1 -> frame s1 = (Some sc, Some offset) ->
      run s1 tr = Some s ->
      frame s = (Some sc, Some offset) /\ all_normalized s sc offset) /\
  (forall s id g s' sc offset,
      reachable config s -> frame s = (Some sc, Some offset) ->
      step s (LoadOk id g) = Some s' ->
      let m := placed id g (modelRotation s) sc offset (enabledShadow s) in
      frame s' = frame s /\
      scale m = Vector3.setScalar sc /\
      position m = Vector3.sub Vector3.zero offset /\
      ((secondary_request s id = true /\ scene s' = scene s ++ [m]) \/
       (exists code,
           key_request s code id = true /\
           scene s' = swapped (slot_mesh s code) m (scene s)))) /\
  (forall s id g,
      reachable config s -> In id (pending s) ->
      exists s', step s (LoadOk id g) = Some s').
Proof.
  split; [|split; [|split]].
  - intros tr s Hrun.
    apply run_base_pending with (s0 := init config); auto using reach_init.
    destruct (init_fields config) as (_ & Hp & _). cbv zeta in Hp.
    rewrite Hp. now left.
  - intros s1 tr s sc offset. apply run_frame_kept.
  - intros s id g s' sc offset Hr Hf Hstep m.
    destruct (framed_delivery config s id g s' sc offset Hr Hf Hstep)
      as [A B].
    destruct (placed_scale_position id g (modelRotation s) sc offset
                (enabledShadow s)) as [C D].
    split; [exact A|]. split; [exact C|]. split; [exact D|exact B].
  - intros s id g Hr Hin. apply step_enabled; [|exact Hin].
    eapply reachable_Inv; eauto.
Qed.

Lemma frame_assigned_once_witness :
  run (init car_config) swapped_events = Some (after car_config swapped_events) /\
  reachable car_config both_loaded /\
  frame both_loaded
  = (Some (frame_scale (base_model car_config box_asset)),
     Some (frame_offset (base_model car_config box_asset))) /\
  run both_loaded [KeyDown "Digit1"; LoadOk 2 box_asset; LoadOk 3 box_asset]
  = Some (after car_config
            [LoadOk 0 box_asset; LoadOk 1 box_asset; KeyDown "Digit1";
             LoadOk 2 box_asset; LoadOk 3 box_asset]) /\
  step both_loaded (LoadOk 2 point_asset)
  = Some (after car_config
            [LoadOk 0 box_asset; LoadOk 1 box_asset; LoadOk 2 point_asset]) /\
  In 2 (pending both_loaded) /\
  frame (after car_config swapped_events) = frame_of car_config box_asset /\
  all_normalized
    (after car_config
       [LoadOk 0 box_asset; LoadOk 1 box_asset; KeyDown "Digit1";
        LoadOk 2 box_asset; LoadOk 3 box_asset])
    (frame_scale (base_model car_config box_asset))
    (frame_offset (base_model car_config box_asset)) /\
  (let m := placed 2 point_asset (modelRotation both_loaded)
              (frame_scale (base_model car_config box_asset))
              (frame_offset (base_model car_config box_asset))
              (enabledShadow both_loaded) in
   frame (after car_config
            [LoadOk 0 box_asset; LoadOk 1 box_asset; LoadOk 2 point_asset])
   = frame both_loaded /\
   scale m = Vector3.setScalar (frame_scale (base_model car_config box_asset)) /\
   position m
   = Vector3.sub Vector3.zero (frame_offset (base_model car_config box_asset)) /\
   ((secondary_request both_loaded 2 = true /\
     scene (after car_config
              [LoadOk 0 box_asset; LoadOk 1 box_asset; LoadOk 2 point_asset])
     = scene both_loaded ++ [m]) \/
    (exists code,
        key_request both_loaded code 2 = true /\
        scene (after car_config
                 [LoadOk 0 box_asset; LoadOk 1 box_asset; LoadOk 2 point_asset])
        = swapped (slot_mesh both_loaded code) m (scene both_loaded)))) /\
  exists s', step both_loaded (LoadOk 2 box_asset) = Some s'.
Proof.
  assert (H1 : run (init car_config) swapped_events
               = Some (after car_config swapped_events))
    by (apply run_after; vm_compute; discriminate).
  assert (H2 : reachable car_config both_loaded)
    by (apply after_reachable; vm_compute; discriminate).
  assert (H3 : frame both_loaded
               = (Some (frame_scale (base_model car_config box_asset)),
                  Some (frame_offset (base_model car_config box_asset))))
    by (vm_compute; reflexivity).
  assert (H4 : run both_loaded
                 [KeyDown "Digit1"; LoadOk 2 box_asset; LoadOk 3 box_asset]
               = Some (after car_config
                         [LoadOk 0 box_asset; LoadOk 1 box_asset;
                          KeyDown "Digit1"; LoadOk 2 box_asset;
                          LoadOk 3 box_asset]))
    by (vm_compute; reflexivity).
  assert (H5 : step both_loaded (LoadOk 2 point_asset)
               = Some (after car_config
                         [LoadOk 0 box_asset; LoadOk 1 box_asset;
                          LoadOk 2 point_asset]))
    by (vm_compute; reflexivity).
  assert (H6 : In 2 (pending both_loaded)) by (vm_compute; auto).
  split; [exact H1|]. split; [exact H2|]. split; [exact H3|].
  split; [exact H4|]. split; [exact H5|]. split; [exact H6|]. split; [|split].
  - apply (proj1 (frame_assigned_once car_config) swapped_events _ H1).
    left. reflexivity.
  - exact (proj2 (proj1 (proj2 (frame_assigned_once car_config))
                    both_loaded _ _ _ _ H2 H3 H4)).
  - split.
    + exact (proj1 (proj2 (proj2 (frame_assigned_once car_config)))
               both_loaded 2 point_asset _ _ _ H2 H3 H5).
    + exact (proj2 (proj2 (proj2 (frame_assigned_once car_config)))
               both_loaded 2 box_asset H2 H6).
Defined.

(** ** A degenerate base model *)

Lemma mul_PInf_not_finite c : isFinite (mul c PInf) = false.
Proof. destruct c; simpl; auto. destruct (sgn q); reflexivity. Qed.

Lemma sub_not_finite a b : isFinite b = false -> isFinite (JS.sub a b) = false.
Proof. destruct a, b; simpl; auto; discriminate. Qed.

Lemma div_two_zero : div (of_Z 2) (of_Z 0) = PInf.
Proof. reflexivity. Qed.

(** C9: if the bounding box of the base model is degenerate ([maxDim = 0]),
    the scale [2 / maxDim] is [+Infinity] and no component of the offset is
    finite.  Nothing detects it: the callback logs nothing, counts the model
    and goes on as usual; the non-finite scale and offset are stored, and
    in every later state they are still the frame and every model in the
    scene, the base model included, carries them (so no component of any
    position is finite).  Every asset delivered later, whatever its
    geometry, is given the scale [+Infinity] and a position with no finite
    component and is added to the scene with them: a further part of the
    model after the others, a key variant in the place of the mesh of its
    slot; and every load in flight can deliver any asset. *)
Theorem degenerate_base_not_guarded config s g s' :
  reachable config s ->
  step s (LoadOk 0 g) = Some s' ->
  maxDim (base_model config g) = of_Z 0 ->
  exists offset,
    frame s' = (Some PInf, Some offset) /\ non_finite offset /\
    console s' = console s /\ loaded s' = S (loaded s) /\
    forall tr s'',
      run s' tr = Some s'' ->
      frame s'' = (Some PInf, Some offset) /\
      all_normalized s'' PInf offset /\
      (exists m0, In m0 (scene s'') /\ uid m0 = 0) /\
      (forall o, In o (scene s'') -> non_finite (position o)) /\
      (forall id g2,
          In id (pending s'') -> exists s3, step s'' (LoadOk id g2) = Some s3) /\
      (forall id g2 s3,
          step s'' (LoadOk id g2) = Some s3 ->
          let m := placed id g2 (modelRotation s'') PInf offset
                     (enabledShadow s'') in
          scale m = Vector3.setScalar PInf /\ non_finite (position m) /\
          ((secondary_request s'' id = true /\ scene s3 = scene s'' ++ [m]) \/
           (exists code,
               key_request s'' code id = true /\
               scene s3 = swapped (slot_mesh s'' code) m (scene s'')))).
Proof.
  intros Hr Hstep Hmax.
  pose proof (reachable_Inv _ _ Hr) as H.
  assert (Hr' : reachable config s') by (eapply reach_step; eauto).
  pose proof (step_frame_base config s g s' Hr Hstep) as Hf.
  unfold frame_of in Hf. unfold frame_scale at 1 in Hf.
  rewrite Hmax, div_two_zero in Hf.
  exists (frame_offset (base_model config g)).
  assert (Hnf : non_finite (frame_offset (base_model config g))).
  { unfold frame_offset, frame_scale. rewrite Hmax, div_two_zero.
    repeat split; apply mul_PInf_not_finite. }
  assert (Hsub : forall v, v = Vector3.sub Vector3.zero
                                 (frame_offset (base_model config g)) ->
                           non_finite v).
  { intros v ->. destruct Hnf as (X & Y & Z).
    repeat split; apply sub_not_finite; assumption. }
  split; [exact Hf|]. split; [exact Hnf|].
  pose proof (step_effect _ _ _ H Hstep) as E. cbv beta iota in E.
  destruct E as (Hin & r & Hn & E).
  rewrite (inv_req0 s H) in Hn. injection Hn as <-. cbn [cb] in E.
  destruct E as (_ & _ & _ & E). cbv zeta in E.
  split; [subst s'; reflexivity|]. split; [subst s'; reflexivity|].
  intros tr s'' Hrun.
  destruct (run_frame_kept config s' tr s'' _ _ Hr' Hf Hrun) as [A B].
  assert (Hr'' : reachable config s'') by (eapply run_reachable; eauto).
  pose proof (reachable_Inv _ _ Hr'') as H''.
  split; [exact A|]. split; [exact B|]. split; [|split; [|split]].
  - apply (inv_base_in_scene s'' H''). unfold frame in A.
    injection A as _ A. congruence.
  - intros o Ho. destruct (B o Ho) as [_ Hp]. now apply Hsub.
  - intros id g2 Hin2. now apply step_enabled.
  - intros id g2 s3 Hstep3 m.
    destruct (framed_delivery config s'' id g2 s3 _ _ Hr'' A Hstep3)
      as [_ D].
    destruct (placed_scale_position id g2 (modelRotation s'') PInf
                (frame_offset (base_model config g)) (enabledShadow s''))
      as [P Q].
    split; [exact P|]. split; [now apply Hsub|exact D].
Qed.

Lemma degenerate_base_not_guarded_witness :
  reachable car_config (init car_config) /\
  step (init car_config) (LoadOk 0 point_asset)
  = Some (after car_config [LoadOk 0 point_asset]) /\
  maxDim (base_model car_config point_asset) = of_Z 0 /\
  exists offset,
    frame (after car_config [LoadOk 0 point_asset]) = (Some PInf, Some offset) /\
    non_finite offset /\
    (let s1 := after car_config [LoadOk 0 point_asset] in
     let m := placed 1 box_asset (modelRotation s1) PInf offset
                (enabledShadow s1) in
     scale m = Vector3.setScalar PInf /\ non_finite (position m) /\
     ((secondary_request s1 1 = true /\
       scene (after car_config [LoadOk 0 point_asset; LoadOk 1 box_asset])
       = scene s1 ++ [m]) \/
      (exists code,
          key_request s1 code 1 = true /\
          scene (after car_config [LoadOk 0 point_asset; LoadOk 1 box_asset])
          = swapped (slot_mesh s1 code) m (scene s1)))) /\
    (let s2 := after car_config [LoadOk 0 point_asset; LoadOk 1 box_asset] in
     let m := placed 2 box_asset (modelRotation s2) PInf offset
                (enabledShadow s2) in
     scale m = Vector3.setScalar PInf /\ non_finite (position m) /\
     ((secondary_request s2 2 = true /\
       scene (after car_config
                [LoadOk 0 point_asset; LoadOk 1 box_asset; LoadOk 2 box_asset])
       = scene s2 ++ [m]) \/
      (exists code,
          key_request s2 code 2 = true /\
          scene (after car_config
                   [LoadOk 0 point_asset; LoadOk 1 box_asset;
                    LoadOk 2 box_asset])
          = swapped (slot_mesh s2 code) m (scene s2)))).
Proof.
  assert (H1 : reachable car_config (init car_config)) by apply reach_init.
  assert (H2 : step (init car_config) (LoadOk 0 point_asset)
               = Some (after car_config [LoadOk 0 point_asset]))
    by (vm_compute; reflexivity).
  assert (H3 : maxDim (base_model car_config point_asset) = of_Z 0)
    by (vm_compute; reflexivity).
  assert (H4 : run (after car_config [LoadOk 0 point_asset]) []
               = Some (after car_config [LoadOk 0 point_asset]))
    by reflexivity.
  assert (H5 : step (after car_config [LoadOk 0 point_asset])
                 (LoadOk 1 box_asset)
               = Some (after car_config
                         [LoadOk 0 point_asset; LoadOk 1 box_asset]))
    by (vm_compute; reflexivity).
  assert (H6 : run (after car_config [LoadOk 0 point_asset])
                 [LoadOk 1 box_asset]
               = Some (after car_config
                         [LoadOk 0 point_asset; LoadOk 1 box_asset]))
    by (vm_compute; reflexivity).
  assert (H7 : step (after car_config
                       [LoadOk 0 point_asset; LoadOk 1 box_asset])
                 (LoadOk 2 box_asset)
               = Some (after car_config
                         [LoadOk 0 point_asset; LoadOk 1 box_asset;
                          LoadOk 2 box_asset]))
    by (vm_compute; reflexivity).
  split; [exact H1|]. split; [exact H2|]. split; [exact H3|].
  destruct (degenerate_base_not_guarded car_config (init car_config)
              point_asset _ H1 H2 H3) as (offset & A & B & _ & _ & L).
  exists offset. split; [exact A|]. split; [exact B|]. split.
  - exact (proj2 (proj2 (proj2 (proj2 (proj2 (L [] _ H4)))))
             1 box_asset _ H5).
  - exact (proj2 (proj2 (proj2 (proj2 (proj2 (L [LoadOk 1 box_asset] _ H6)))))
             2 box_asset _ H7).
Defined.

(** ** The base model first, then the others in any order *)

Lemma step_requests s e s' :
  Inv s -> step s e = Some s' -> exists rs, requests s' = requests s ++ rs.
Proof.
  intros H Hstep. step_cases H Hstep; subst s'; try rewrite E0;
    try (destruct (cb r)); projs; rewrite <- ?app_assoc;
    solve [exists []; now rewrite app_nil_r | eexists; reflexivity].
Qed.

Lemma step_pending_keep s id g s' x :
  Inv s -> step s (LoadOk id g) = Some s' ->
  In x (pending s) -> x <> id -> In x (pending s').
Proof.
  intros H Hstep Hx Hne.
  assert (Hrem : In x (List.remove Nat.eq_dec id (pending s)))
    by (apply in_in_remove; auto).
  pose proof (step_effect _ _ _ H Hstep) as E. cbv beta iota in E.
  destruct E as (Hin & r & Hn & E).
  destruct r as [p0 [|i|code p]]; cbn [cb] in E.
  - destruct E as (-> & _ & _ & E). cbv zeta in E. subst s'. projs.
    rewrite !in_app_iff. auto.
  - destruct E as (sc & offset & _ & _ & ->). projs. rewrite in_app_iff. auto.
  - destruct E as (km & _ & [(sc & offset & _ & _ & ->)|(_ & _ & _ & ->)]);
      projs; auto.
Qed.

Lemma reachable_counted config s :
  reachable config s -> _globalOffset s <> None -> 1 <= loaded s.
Proof.
  induction 1 as [|s e s' Hr IH Hstep].
  - destruct (init_fields config) as (_ & _ & _ & Ho & _). cbv zeta in Ho.
    congruence.
  - pose proof (reachable_Inv _ _ Hr) as H.
    step_cases H Hstep; subst s'; try rewrite E0;
      try (destruct (cb r)); projs; auto; intros _; lia.
Qed.

Lemma secondary_request_inv s id :
  secondary_request s id = true ->
  exists p i, nth_error (requests s) id = Some (mkRequest p (CbSecondary i)).
Proof.
  unfold secondary_request.
  destruct (nth_error (requests s) id) as [[p [|i|c q]]|]; try discriminate.
  eauto.
Qed.

Lemma secondary_base_placed config s r i :
  reachable config s -> In r (requests s) -> cb r = CbSecondary i ->
  base_placed s.
Proof.
  intros Hr Hin Hcb. pose proof (reachable_Inv _ _ Hr) as H.
  assert (Ho : _globalOffset s <> None).
  { intros Ho. destruct (inv_noframe s H Ho) as (_ & _ & C).
    eapply C; eauto. }
  split; [|split].
  - intros Hp. apply Ho. now apply (inv_base_pending s H).
  - eapply reachable_counted; eauto.
  - destruct (inv_base_in_scene s H Ho) as (m0 & A & B).
    exists m0. repeat split; auto. apply (inv_scene s H m0 A).
Qed.

Lemma secondary_delivered config s id g s' :
  reachable config s -> secondary_request s id = true ->
  step s (LoadOk id g) = Some s' ->
  exists sc offset,
    frame s = (Some sc, Some offset) /\ frame s' = frame s /\
    scene s'
    = scene s ++ [placed id g (modelRotation s) sc offset (enabledShadow s)] /\
    mixers s' = mixers s ++ new_mixers id g /\
    loaded s' = S (loaded s).
Proof.
  intros Hr Hsec Hstep. pose proof (reachable_Inv _ _ Hr) as H.
  apply secondary_request_inv in Hsec. destruct Hsec as (p & i & Hn).
  pose proof (step_effect _ _ _ H Hstep) as E. cbv beta iota in E.
  destruct E as (Hin & r & Hn' & E). rewrite Hn in Hn'. injection Hn' as <-.
  cbn [cb] in E. destruct E as (sc & offset & Hs & Ho & ->).
  exists sc, offset. unfold frame. projs. rewrite Hs, Ho. repeat split.
Qed.

Lemma deliveries_any_order config assets ids :
  forall s,
    reachable config s -> NoDup ids ->
    (forall id, In id ids ->
                In id (pending s) /\ secondary_request s id = true) ->
    exists s',
      run s (deliveries assets ids) = Some s' /\
      loaded s' = loaded s + List.length ids.
Proof.
  induction ids as [|id ids IH]; intros s Hr Hnd Hall.
  - exists s. split; [reflexivity|simpl; lia].
  - pose proof (reachable_Inv _ _ Hr) as H.
    destruct (Hall id (or_introl eq_refl)) as [Hp Hsec].
    destruct (step_enabled s id (assets id) H Hp) as [s1 Hstep].
    assert (Hr1 : reachable config s1) by (eapply reach_step; eauto).
    destruct (secondary_delivered config s id _ s1 Hr Hsec Hstep)
      as (sc & offset & _ & _ & _ & _ & Hl).
    inversion Hnd as [|? ? Hnin Hnd']; subst.
    destruct (IH s1 Hr1 Hnd') as (s' & Hrun & Hl').
    + intros x Hx. destruct (Hall x (or_intror Hx)) as [Hxp Hxs]. split.
      * eapply step_pending_keep; eauto. intros ->. tauto.
      * destruct (step_requests s _ s1 H Hstep) as [rs Hrs].
        apply secondary_request_inv in Hxs. destruct Hxs as (p & i & Hn).
        unfold secondary_request. rewrite Hrs.
        now rewrite (nth_error_app_old _ rs _ _ Hn).
    + exists s'. split.
      * cbn [deliveries map run]. rewrite Hstep. exact Hrun.
      * rewrite Hl', Hl. simpl. lia.
Qed.

(** C4: [init] requests the base model [paths[0]] and nothing else.  In the
    callback of the base model the loads of [paths[1..]] are issued last:
    before them the base model has been rotated, normalized, flagged for
    shadows, put in the scene, animated and counted, and no load of
    [paths[1..]] exists.  So whenever a load of some [paths[i]] exists, the
    base model is placed.  Each of these loads, when it arrives, applies
    the frame already computed and adds one to the same count; and they can
    arrive in any order. *)
Theorem base_model_first config :
  (requests (init config)
   = [mkRequest (nth 0 (modelPaths (init config)) None) CbBase] /\
   pending (init config) = [0]) /\
  (forall s g s',
      reachable config s -> step s (LoadOk 0 g) = Some s' ->
      let mid := onLoad_base_place 0 g (settle 0 s) in
      no_secondary_request mid /\ base_placed mid /\
      frame mid = frame_of config g /\ loaded mid = 1 /\
      mixers mid = mixers s ++ new_mixers 0 g /\
      s' = load_secondary mid /\ schedules mid s' (secondary_requests s)) /\
  (forall s r i,
      reachable config s -> In r (requests s) -> cb r = CbSecondary i ->
      base_placed s) /\
  (forall s id g s',
      reachable config s -> secondary_request s id = true ->
      step s (LoadOk id g) = Some s' ->
      exists sc offset,
        frame s = (Some sc, Some offset) /\ frame s' = frame s /\
        scene s'
        = scene s ++ [placed id g (modelRotation s) sc offset (enabledShadow s)] /\
        mixers s' = mixers s ++ new_mixers id g /\
        loaded s' = S (loaded s)) /\
  (forall s assets ids,
      reachable config s -> NoDup ids ->
      (forall id, In id ids ->
                  In id (pending s) /\ secondary_request s id = true) ->
      exists s',
        run s (deliveries assets ids) = Some s' /\
        loaded s' = loaded s + List.length ids).
Proof.
  split; [|split; [|split; [|split]]].
  - destruct (init_fields config) as (Hr & Hp & _). cbv zeta in Hr, Hp.
    split; assumption.
  - intros s g s' Hr Hstep mid.
    pose proof (reachable_Inv _ _ Hr) as H.
    pose proof (step_frame_base config s g s' Hr Hstep) as Hf.
    assert (Hr' : reachable config s') by (eapply reach_step; eauto).
    pose proof (reachable_Inv _ _ Hr') as H'.
    pose proof (step_effect _ _ _ H Hstep) as E. cbv beta iota in E.
    destruct E as (Hin & r & Hn & E).
    rewrite (inv_req0 s H) in Hn. injection Hn as <-. cbn [cb] in E.
    destruct E as (_ & Ho & Hs & E). cbv zeta in E.
    destruct (inv_noframe s H Ho) as (Hscn & Hld & Hnosec).
    assert (Emid : mid
                   = model_placed 0 g
                       (frame_scale (set_rotation (modelRotation s) (gltf_scene 0 g)))
                       (frame_offset (set_rotation (modelRotation s) (gltf_scene 0 g)))
                       (set_frame (settle 0 s)
                          (frame_scale (set_rotation (modelRotation s) (gltf_scene 0 g)))
                          (frame_offset (set_rotation (modelRotation s) (gltf_scene 0 g))))).
    { unfold mid, onLoad_base_place. cbv zeta. rewrite bind_animations_eq.
      rewrite _updateProgress_eq. reflexivity. }
    assert (Es' : s' = load_secondary mid).
    { rewrite E, load_secondary_eq, Emid. reflexivity. }
    assert (Hfm : frame mid = frame s')
      by (rewrite Es', load_secondary_eq; reflexivity).
    split; [|split; [|split; [|split; [|split; [|split]]]]].
    + intros r i. rewrite Emid. projs. rewrite in_app_iff. intros [Hr0|Hr0].
      * now apply Hnosec.
      * destruct (_ =? _); [|destruct Hr0].
        apply key_requests_In in Hr0. destruct Hr0 as (c & km & _ & ->).
        discriminate.
    + split; [|split].
      * rewrite Emid. projs. rewrite in_app_iff, in_seq. intros [Hx|Hx].
        -- apply in_remove in Hx. tauto.
        -- pose proof (requests_nonempty s H). lia.
      * rewrite Emid. projs. lia.
      * eexists. split; [|split].
        -- rewrite Emid. projs. apply in_app_iff. right. left. reflexivity.
        -- reflexivity.
        -- rewrite Emid.
           apply framed_same
             with (s := set_frame (settle 0 s)
                          (frame_scale (set_rotation (modelRotation s) (gltf_scene 0 g)))
                          (frame_offset (set_rotation (modelRotation s) (gltf_scene 0 g))));
             try reflexivity.
           apply (placed_framed
                    (set_frame (settle 0 s)
                       (frame_scale (set_rotation (modelRotation s) (gltf_scene 0 g)))
                       (frame_offset (set_rotation (modelRotation s) (gltf_scene 0 g)))));
             reflexivity.
    + now rewrite Hfm.
    + rewrite Emid. projs. now rewrite Hld.
    + rewrite Emid. reflexivity.
    + exact Es'.
    + rewrite Es', load_secondary_eq, Emid. split; reflexivity.
  - intros s r i. apply secondary_base_placed.
  - intros s id g s'. apply secondary_delivered.
  - intros s assets ids. apply deliveries_any_order.
Qed.

Lemma base_model_first_witness :
  reachable truck_config cab_loaded /\
  NoDup [2; 1] /\
  (forall id, In id [2; 1] ->
              In id (pending cab_loaded) /\
              secondary_request cab_loaded id = true) /\
  exists s',
    run cab_loaded (deliveries (fun _ => box_asset) [2; 1]) = Some s' /\
    loaded s' = loaded cab_loaded + 2.
Proof.
  assert (H1 : reachable truck_config cab_loaded)
    by (apply after_reachable; vm_compute; discriminate).
  assert (H2 : NoDup [2; 1])
    by (repeat constructor; simpl; intuition discriminate).
  assert (H3 : forall id, In id [2; 1] ->
                 In id (pending cab_loaded) /\
                 secondary_request cab_loaded id = true).
  { intros id [<-|[<-|[]]]; split; vm_compute; auto. }
  split; [exact H1|]. split; [exact H2|]. split; [exact H3|].
  exact (proj2 (proj2 (proj2 (proj2 (base_model_first truck_config))))
           cab_loaded (fun _ => box_asset) [2; 1] H1 H2 H3).
Defined.

(** ** Progress *)

Lemma this_qz z : (this (qz z) == inject_Z z)%Q.
Proof. unfold qz, Q2Qc. cbn [this]. apply Qred_correct. Qed.

Lemma this_Q2Qc q : (this (Q2Qc q) == q)%Q.
Proof. unfold Q2Qc. cbn [this]. apply Qred_correct. Qed.

Lemma this_add a b : (this (a + b)%Qc == this a + this b)%Q.
Proof. unfold Qcplus. apply this_Q2Qc. Qed.

Lemma this_mul a b : (this (a * b)%Qc == this a * this b)%Q.
Proof. unfold Qcmult. apply this_Q2Qc. Qed.

Lemma this_div a b : (this (a / b)%Qc == this a / this b)%Q.
Proof.
  unfold Qcdiv, Qcinv. rewrite this_mul, this_Q2Qc. reflexivity.
Qed.

Lemma sgn_qz z : sgn (qz z) = (z ?= 0)%Z.
Proof.
  unfold sgn, Qccompare. rewrite !this_qz.
  unfold Qcompare, inject_Z. simpl. now rewrite Z.mul_1_r.
Qed.

(** *** The rounding to binary64 *)

Lemma Qrne_bounds q :
  (Qfloor q <= Qrne q <= Qfloor q + 1)%Z.
Proof.
  unfold Qrne. destruct (Qcompare (q - inject_Z (Qfloor q)) (1 # 2));
    try destruct (Z.even (Qfloor q)); lia.
Qed.

Lemma Qrne_Z z : Qrne (inject_Z z) = z.
Proof.
  unfold Qrne. rewrite Qfloor_Z.
  assert (E : (inject_Z z - inject_Z z == 0)%Q) by ring.
  rewrite E. reflexivity.
Qed.

Lemma Qrne_mono p q : (p <= q)%Q -> (Qrne p <= Qrne q)%Z.
Proof.
  intros Hpq. pose proof (Qfloor_resp_le _ _ Hpq) as Hf.
  pose proof (Qrne_bounds p) as Bp. pose proof (Qrne_bounds q) as Bq.
  destruct (Z.eq_dec (Qfloor p) (Qfloor q)) as [E|E]; [|lia].
  unfold Qrne. rewrite E.
  assert (Hr : (p - inject_Z (Qfloor q) <= q - inject_Z (Qfloor q))%Q).
  { apply Qplus_le_compat; [exact Hpq|apply Qle_refl]. }
  destruct (Qcompare_spec (p - inject_Z (Qfloor q)) (1 # 2)) as [A|A|A];
    destruct (Qcompare_spec (q - inject_Z (Qfloor q)) (1 # 2)) as [B|B|B];
    try destruct (Z.even (Qfloor q)); try lia; exfalso;
    apply (Qlt_irrefl (1 # 2)).
  all: try (rewrite A in Hr); try (rewrite B in Hr).
  all: try (eapply Qle_lt_trans; eassumption).
  all: try (eapply Qlt_le_trans; eassumption).
  all: try (eapply Qlt_trans; [exact A|]; eapply Qle_lt_trans; eassumption).
  all: try (eapply Qlt_trans; [exact A|]; exact B).
Qed.

Lemma two_ne_0 : ~ (2 == 0)%Q.
Proof. discriminate. Qed.

Lemma pow2_pos e : (0 < 2 ^ e)%Q.
Proof. apply Qpower_0_lt. reflexivity. Qed.

Lemma pow2_Z n : (0 <= n)%Z -> (2 ^ n == inject_Z (2 ^ n))%Q.
Proof. intros Hn. rewrite (Zpower_Qpower 2 n Hn). reflexivity. Qed.

Lemma Z_log2_Q a :
  (0 < a)%Z ->
  (2 ^ Z.log2 a <= inject_Z a)%Q /\ (inject_Z a < 2 ^ (Z.log2 a + 1))%Q.
Proof.
  intros Ha. destruct (Z.log2_spec a Ha) as [L U].
  pose proof (Z.log2_nonneg a) as Hn.
  rewrite !pow2_Z by lia. rewrite <- Zle_Qle, <- Zlt_Qlt.
  split; [exact L|]. now rewrite Z.add_1_r.
Qed.

Lemma Qlog2_spec q :
  (0 < q)%Q -> (2 ^ Qlog2 q <= q)%Q /\ (q < 2 ^ (Qlog2 q + 1))%Q.
Proof.
  intros Hq. destruct q as [a b].
  assert (Ha : (0 < a)%Z).
  { unfold Qlt in Hq. cbn in Hq. lia. }
  destruct (Z_log2_Q a Ha) as [La Ua].
  destruct (Z_log2_Q (Zpos b) (Pos2Z.is_pos b)) as [Lb Ub].
  assert (Hb : (0 < inject_Z (Zpos b))%Q) by reflexivity.
  assert (Eq : ((a # b) * inject_Z (Zpos b) == inject_Z a)%Q).
  { rewrite (Qmake_Qdiv a b). field. discriminate. }
  set (la := Z.log2 a) in *. set (lb := Z.log2 (Zpos b)) in *.
  assert (Up : (a # b < 2 ^ (la - lb + 1))%Q).
  { replace (la - lb + 1)%Z with (la + 1 - lb)%Z by lia.
    rewrite (Qpower_minus 2 _ _ two_ne_0).
    apply Qlt_shift_div_l; [apply pow2_pos|].
    eapply Qle_lt_trans; [|exact Ua]. rewrite <- Eq.
    apply Qmult_le_l; [exact Hq|exact Lb]. }
  assert (Lo : (2 ^ (la - lb - 1) < a # b)%Q).
  { replace (la - lb - 1)%Z with (la - (lb + 1))%Z by lia.
    rewrite (Qpower_minus 2 _ _ two_ne_0).
    apply Qlt_shift_div_r; [apply pow2_pos|].
    eapply Qle_lt_trans; [exact La|]. rewrite <- Eq.
    apply Qmult_lt_l; [exact Hq|exact Ub]. }
  unfold Qlog2. cbn [Qnum Qden]. fold la lb.
  destruct (Qle_bool (2 ^ (la - lb)) (a # b)) eqn:E.
  - apply Qle_bool_iff in E. split; [exact E|exact Up].
  - split; [apply Qlt_le_weak; exact Lo|].
    replace (la - lb - 1 + 1)%Z with (la - lb)%Z by lia.
    apply Qnot_le_lt. intros C. apply Qle_bool_iff in C. congruence.
Qed.

Lemma Qlog2_mono p q : (0 < p)%Q -> (p <= q)%Q -> (Qlog2 p <= Qlog2 q)%Z.
Proof.
  intros Hp Hpq.
  assert (Hq : (0 < q)%Q) by (eapply Qlt_le_trans; eauto).
  destruct (Qlog2_spec p Hp) as [L _]. destruct (Qlog2_spec q Hq) as [_ U].
  assert (A : (Qlog2 p < Qlog2 q + 1)%Z).
  { apply (Qpower_lt_compat_l_inv 2); [|reflexivity].
    eapply Qle_lt_trans; [exact L|]. eapply Qle_lt_trans; eauto. }
  lia.
Qed.

Lemma ulp_exp_mono p q : (0 < p)%Q -> (p <= q)%Q -> (ulp_exp p <= ulp_exp q)%Z.
Proof.
  intros Hp Hpq. unfold ulp_exp. pose proof (Qlog2_mono p q Hp Hpq). lia.
Qed.

(** A multiple of the spacing of [q] above [q] is above the nearest one, and a
    point below is below. *)
Lemma nearest_le_grid q n :
  (q <= inject_Z n * 2 ^ ulp_exp q)%Q ->
  (nearest q <= inject_Z n * 2 ^ ulp_exp q)%Q.
Proof.
  intros H. unfold nearest. apply Qmult_le_compat_r.
  - rewrite <- Zle_Qle. rewrite <- (Qrne_Z n). apply Qrne_mono.
    apply Qle_shift_div_r; [apply pow2_pos|exact H].
  - apply Qlt_le_weak, pow2_pos.
Qed.

Lemma nearest_ge_grid q n :
  (inject_Z n * 2 ^ ulp_exp q <= q)%Q ->
  (inject_Z n * 2 ^ ulp_exp q <= nearest q)%Q.
Proof.
  intros H. unfold nearest. apply Qmult_le_compat_r.
  - rewrite <- Zle_Qle. rewrite <- (Qrne_Z n) at 1. apply Qrne_mono.
    apply Qle_shift_div_l; [apply pow2_pos|exact H].
  - apply Qlt_le_weak, pow2_pos.
Qed.

Lemma pow2_split a b : (b <= a)%Z -> (2 ^ a == inject_Z (2 ^ (a - b)) * 2 ^ b)%Q.
Proof.
  intros H. rewrite <- pow2_Z by lia.
  rewrite <- (Qpower_plus 2 _ _ two_ne_0). now replace (a - b + b)%Z with a by lia.
Qed.

Lemma nearest_mono p q : (0 < p)%Q -> (p <= q)%Q -> (nearest p <= nearest q)%Q.
Proof.
  intros Hp Hpq.
  assert (Hq : (0 < q)%Q) by (eapply Qlt_le_trans; eauto).
  pose proof (ulp_exp_mono p q Hp Hpq) as Hu.
  destruct (Z.eq_dec (ulp_exp p) (ulp_exp q)) as [E|E].
  - unfold nearest. rewrite E. apply Qmult_le_compat_r.
    + rewrite <- Zle_Qle. apply Qrne_mono.
      apply Qmult_le_compat_r; [exact Hpq|].
      apply Qlt_le_weak, Qinv_lt_0_compat, pow2_pos.
    + apply Qlt_le_weak, pow2_pos.
  - destruct (Qlog2_spec p Hp) as [_ Up]. destruct (Qlog2_spec q Hq) as [Lq _].
    assert (Hlt : (ulp_exp p < ulp_exp q)%Z) by lia.
    unfold ulp_exp in Hlt.
    apply Qle_trans with (2 ^ Qlog2 q)%Q.
    + rewrite (pow2_split (Qlog2 q) (ulp_exp p)) by (unfold ulp_exp; lia).
      apply nearest_le_grid.
      rewrite <- (pow2_split (Qlog2 q) (ulp_exp p)) by (unfold ulp_exp; lia).
      apply Qlt_le_weak. eapply Qlt_le_trans; [exact Up|].
      apply Qpower_le_compat_l; [lia|discriminate].
    + rewrite (pow2_split (Qlog2 q) (ulp_exp q)) by (unfold ulp_exp; lia).
      apply nearest_ge_grid.
      rewrite <- (pow2_split (Qlog2 q) (ulp_exp q)) by (unfold ulp_exp; lia).
      exact Lq.
Qed.

Lemma Qrne_error t :
  (inject_Z (Qrne t) - t <= 1 # 2)%Q /\ (t - inject_Z (Qrne t) <= 1 # 2)%Q.
Proof.
  pose proof (Qfloor_le t) as L. pose proof (Qlt_floor t) as U.
  rewrite inject_Z_plus in U. change (inject_Z 1) with 1%Q in U.
  unfold Qrne.
  destruct (Qcompare_spec (t - inject_Z (Qfloor t)) (1 # 2)) as [E|E|E];
    try destruct (Z.even (Qfloor t));
    rewrite ?inject_Z_plus; change (inject_Z 1) with 1%Q; split; lra.
Qed.

Lemma nearest_error q :
  (nearest q - q <= 2 ^ ulp_exp q * (1 # 2))%Q /\
  (q - nearest q <= 2 ^ ulp_exp q * (1 # 2))%Q.
Proof.
  unfold nearest. set (u := ulp_exp q).
  pose proof (pow2_pos u) as Hu.
  destruct (Qrne_error (q / 2 ^ u)) as [A B].
  assert (E : (q == q / 2 ^ u * 2 ^ u)%Q).
  { field. intros C. rewrite C in Hu. discriminate. }
  split.
  - rewrite E at 2.
    setoid_replace (inject_Z (Qrne (q / 2 ^ u)) * 2 ^ u - q / 2 ^ u * 2 ^ u)%Q
      with ((inject_Z (Qrne (q / 2 ^ u)) - q / 2 ^ u) * 2 ^ u)%Q by ring.
    rewrite (Qmult_comm (2 ^ u)). apply Qmult_le_compat_r; [exact A|lra].
  - rewrite E at 1.
    setoid_replace (q / 2 ^ u * 2 ^ u - inject_Z (Qrne (q / 2 ^ u)) * 2 ^ u)%Q
      with ((q / 2 ^ u - inject_Z (Qrne (q / 2 ^ u))) * 2 ^ u)%Q by ring.
    rewrite (Qmult_comm (2 ^ u)). apply Qmult_le_compat_r; [exact B|lra].
Qed.

Lemma scaled_half_up (r n : Z) :
  (inject_Z ((2 * r + 1) * n) == (inject_Z r + (1 # 2)) * inject_Z (2 * n))%Q.
Proof.
  rewrite !inject_Z_mult, inject_Z_plus, inject_Z_mult.
  change (inject_Z 2) with 2%Q. change (inject_Z 1) with 1%Q. ring.
Qed.

Lemma scaled_half_down (r n : Z) :
  (inject_Z ((2 * r - 1) * n) == (inject_Z r - (1 # 2)) * inject_Z (2 * n))%Q.
Proof.
  replace (2 * r - 1)%Z with (2 * r + -1)%Z by lia.
  rewrite !inject_Z_mult, inject_Z_plus, inject_Z_mult.
  change (inject_Z 2) with 2%Q. change (inject_Z (-1)) with (-1 # 1)%Q. ring.
Qed.

Lemma scaled_percent (k n : Z) :
  (0 < n)%Z ->
  (inject_Z (100 * k) / inject_Z n * inject_Z (2 * n) == inject_Z (200 * k))%Q.
Proof.
  intros Hn.
  assert (Hn' : ~ (inject_Z n == 0)%Q).
  { intros C. apply (inject_Z_injective n 0) in C. lia. }
  replace (200 * k)%Z with (2 * (100 * k))%Z by lia.
  rewrite !inject_Z_mult. field. exact Hn'.
Qed.

(** If [yy] is within [eps] of [y = 100 k / n] and [eps] is less than
    [1 / (2 n)], rounding [yy] gives what rounding [y] gives, or one less
    when [y] is half way between two integers. *)
Lemma round_near_tie (k n : Z) (yy eps : Q) :
  (0 < n)%Z ->
  (eps * inject_Z (2 * n) < 1)%Q ->
  (yy - inject_Z (100 * k) / inject_Z n <= eps)%Q ->
  (inject_Z (100 * k) / inject_Z n - yy <= eps)%Q ->
  let r := Qfloor (inject_Z (100 * k) / inject_Z n + (1 # 2)) in
  Qfloor (yy + (1 # 2)) = r \/
  (Qfloor (yy + (1 # 2)) = (r - 1)%Z /\ (200 * k = (2 * r - 1) * n)%Z).
Proof.
  intros Hn He Hup Hlo.
  pose proof (scaled_percent k n Hn) as Hy.
  generalize dependent (inject_Z (100 * k) / inject_Z n)%Q. intros y Hup Hlo Hy.
  cbv zeta.
  pose proof (Qfloor_le (yy + (1 # 2))) as Lz.
  pose proof (Qlt_floor (yy + (1 # 2))) as Uz.
  pose proof (Qfloor_le (y + (1 # 2))) as Lr.
  pose proof (Qlt_floor (y + (1 # 2))) as Ur.
  generalize dependent (Qfloor (yy + (1 # 2))). intros z Lz Uz.
  generalize dependent (Qfloor (y + (1 # 2))). intros r Lr Ur.
  rewrite inject_Z_plus in Uz, Ur. change (inject_Z 1) with 1%Q in Uz, Ur.
  assert (H2n : (1 <= inject_Z (2 * n))%Q).
  { change 1%Q with (inject_Z 1). rewrite <- Zle_Qle. lia. }
  (* in units of [1 / (2 n)] *)
  assert (S1 : (200 * k < (2 * r + 1) * n)%Z).
  { rewrite Zlt_Qlt, <- Hy, scaled_half_up.
    apply Qmult_lt_compat_r; lra. }
  assert (S2 : ((2 * r - 1) * n <= 200 * k)%Z).
  { rewrite Zle_Qle, <- Hy, scaled_half_down.
    apply Qmult_le_compat_r; lra. }
  assert (S3 : ((2 * z - 1) * n < 200 * k + 1)%Z).
  { rewrite Zlt_Qlt, inject_Z_plus, <- Hy, scaled_half_down.
    change (inject_Z 1) with 1%Q.
    apply Qle_lt_trans with ((y + eps) * inject_Z (2 * n))%Q.
    - apply Qmult_le_compat_r; lra.
    - rewrite Qmult_plus_distr_l. lra. }
  assert (S4 : (200 * k - 1 < (2 * z + 1) * n)%Z).
  { rewrite Zlt_Qlt. replace (200 * k - 1)%Z with (200 * k + -1)%Z by lia.
    rewrite inject_Z_plus, <- Hy, scaled_half_up.
    change (inject_Z (-1)) with (-1 # 1)%Q.
    apply Qlt_le_trans with ((y - eps) * inject_Z (2 * n))%Q.
    - setoid_replace ((y - eps) * inject_Z (2 * n))%Q
        with (y * inject_Z (2 * n) - eps * inject_Z (2 * n))%Q by ring.
      lra.
    - apply Qmult_le_compat_r; lra. }
  destruct (Z.lt_trichotomy z r) as [C|[C|C]].
  - right. assert (z = r - 1)%Z by nia. split; [assumption|]. nia.
  - now left.
  - exfalso. nia.
Qed.

(** [fl] gives what the binary64 division and multiplication of the
    Standard Library give, for the quotient and the product of the
    percentage of [k] models of [n], [n] up to 40. *)
Lemma fl_SpecFloat :
  forallb
    (fun n =>
       forallb
         (fun k =>
            let q := SFdiv 53 1024 (SF_of_nat k) (SF_of_nat n) in
            let p := SFmul 53 1024 q (SF_of_nat 100) in
            same_num (fl (div (of_nat k) (of_nat n))) (SF2num q)
            && same_num
                 (fl (mul (fl (div (of_nat k) (of_nat n))) (of_Z 100)))
                 (SF2num p))
         (seq 0 (S n)))
    (seq 1 40)
  = true.
Proof. vm_compute. reflexivity. Qed.

Lemma sgn_spec q :
  match sgn q with
  | Eq => q = qz 0
  | Lt => (this q < 0)%Q
  | Gt => (0 < this q)%Q
  end.
Proof.
  unfold sgn, Qccompare. change (this (qz 0)) with 0%Q.
  destruct (Qcompare_spec (this q) 0) as [E|L|G]; auto.
Qed.

Lemma round64_zero : round64 (qz 0) = Fin (qz 0).
Proof. reflexivity. Qed.

Lemma round64_pos (q : Qc) :
  (0 < q)%Q -> (nearest q < 2 ^ 1024)%Q -> round64 q = Fin (Q2Qc (nearest q)).
Proof.
  intros Hq Hmax. unfold round64. pose proof (sgn_spec q) as S.
  destruct (sgn q); cbv beta iota in S.
  - subst q. discriminate.
  - exfalso. apply (Qlt_irrefl 0). eapply Qlt_trans; eauto.
  - cbv zeta. destruct (Qle_bool (2 ^ 1024) (nearest q)) eqn:E; auto.
    apply Qle_bool_iff in E. exfalso. apply (Qlt_irrefl (nearest q)).
    eapply Qlt_le_trans; eauto.
Qed.

(** A non-negative rational below a binary64 number [b] is rounded to a
    number from 0 to [b], at most half the spacing below [b] away. *)
Lemma round64_small (q : Qc) (b : Q) :
  (0 <= q)%Q -> (q <= b)%Q -> (nearest b == b)%Q -> (b < 2 ^ 1024)%Q ->
  exists r : Qc,
    round64 q = Fin r /\ (0 <= r)%Q /\ (r <= b)%Q /\
    (r - q <= 2 ^ ulp_exp b * (1 # 2))%Q /\
    (q - r <= 2 ^ ulp_exp b * (1 # 2))%Q.
Proof.
  intros H0 Hb Eb Hmax.
  pose proof (pow2_pos (ulp_exp b)) as Hu.
  destruct (Qlt_le_dec 0 q) as [Hq|Hq].
  - assert (Hle : (nearest q <= b)%Q).
    { rewrite <- Eb. apply nearest_mono; assumption. }
    exists (Q2Qc (nearest q)). rewrite this_Q2Qc.
    split; [apply round64_pos; [exact Hq|lra]|].
    assert (Z0 : (inject_Z 0 * 2 ^ ulp_exp q <= q)%Q).
    { rewrite Qmult_0_l. exact H0. }
    apply nearest_ge_grid in Z0. rewrite Qmult_0_l in Z0.
    destruct (nearest_error q) as [A B].
    assert (Hp : (2 ^ ulp_exp q <= 2 ^ ulp_exp b)%Q).
    { apply Qpower_le_compat_l; [|discriminate].
      now apply ulp_exp_mono. }
    repeat split; lra.
  - assert (E : q = qz 0).
    { apply Qc_is_canon. change (this (qz 0)) with 0%Q. lra. }
    subst q. exists (qz 0). rewrite round64_zero.
    change (this (qz 0)) with 0%Q. repeat split; lra.
Qed.

(** On the non-negative rationals the rounding is monotone. *)
Lemma round64_le (p q p' q' : Qc) :
  (0 <= p)%Q -> (p <= q)%Q -> round64 p = Fin p' -> round64 q = Fin q' ->
  (p' <= q')%Q.
Proof.
  intros H0 Hpq.
  assert (Hnn : forall x : Qc, (0 < x)%Q -> forall x', round64 x = Fin x' ->
                               (x' == nearest x)%Q).
  { intros x Hx x'. unfold round64. pose proof (sgn_spec x) as S.
    destruct (sgn x); cbv beta iota in S.
    - subst x. discriminate.
    - exfalso. apply (Qlt_irrefl 0). eapply Qlt_trans; eauto.
    - cbv zeta. destruct (Qle_bool _ _); [discriminate|].
      intros [= <-]. apply this_Q2Qc. }
  destruct (Qlt_le_dec 0 p) as [Hp|Hp].
  - intros Ep Eq. rewrite (Hnn p Hp p' Ep).
    rewrite (Hnn q (Qlt_le_trans _ _ _ Hp Hpq) q' Eq).
    now apply nearest_mono.
  - assert (E : p = qz 0).
    { apply Qc_is_canon. change (this (qz 0)) with 0%Q. lra. }
    subst p. rewrite round64_zero. intros [= <-].
    change (this (qz 0)) with 0%Q.
    destruct (Qlt_le_dec 0 q) as [Hq|Hq].
    + intros Eq. rewrite (Hnn q Hq q' Eq).
      assert (Z0 : (inject_Z 0 * 2 ^ ulp_exp q <= q)%Q).
      { rewrite Qmult_0_l. lra. }
      apply nearest_ge_grid in Z0. now rewrite Qmult_0_l in Z0.
    + assert (E : q = qz 0).
      { apply Qc_is_canon. change (this (qz 0)) with 0%Q. lra. }
      subst q. rewrite round64_zero. intros [= <-]. apply Qle_refl.
Qed.

Lemma round64_pair (p q : Qc) (b : Q) :
  (0 <= p)%Q -> (p <= q)%Q -> (q <= b)%Q ->
  (nearest b == b)%Q -> (b < 2 ^ 1024)%Q ->
  exists p' q' : Qc,
    round64 p = Fin p' /\ round64 q = Fin q' /\
    (0 <= p')%Q /\ (p' <= q')%Q /\ (q' <= b)%Q.
Proof.
  intros H0 Hpq Hb Eb Hmax.
  destruct (round64_small p b H0 (Qle_trans _ _ _ Hpq Hb) Eb Hmax)
    as (p' & Ep & Hp0 & _).
  destruct (round64_small q b (Qle_trans _ _ _ H0 Hpq) Hb Eb Hmax)
    as (q' & Eq & _ & Hqb & _).
  exists p', q'. split; [exact Ep|]. split; [exact Eq|]. split; [exact Hp0|].
  split; [|exact Hqb]. exact (round64_le p q p' q' H0 Hpq Ep Eq).
Qed.

Lemma of_Z_inj a b : of_Z a = of_Z b -> a = b.
Proof.
  unfold of_Z. intros E. assert (E' : qz a = qz b) by congruence.
  assert (H : (this (qz a) == this (qz b))%Q) by (now rewrite E').
  rewrite !this_qz in H. now apply inject_Z_injective.
Qed.

Lemma div_counts k n :
  1 <= n ->
  div (of_nat k) (of_nat n) = Fin (qz (Z.of_nat k) / qz (Z.of_nat n)).
Proof.
  intros Hn. unfold of_nat, of_Z. cbn [div]. rewrite sgn_qz.
  destruct (Z.compare_spec (Z.of_nat n) 0) as [E|E|E]; try lia. reflexivity.
Qed.

(** The percentages of two counts [k <= k'] of [n]. *)
Lemma percent_steps k k' n :
  k <= k' -> k' <= n -> 1 <= n ->
  exists z z',
    percent k n = of_Z z /\ percent k' n = of_Z z' /\
    (0 <= z)%Z /\ (z <= z')%Z /\ (z' <= 100)%Z.
Proof.
  intros Hk Hk' Hn. unfold percent. rewrite !div_counts by exact Hn.
  assert (Hpos : (0 < inject_Z (Z.of_nat n))%Q).
  { replace 0%Q with (inject_Z 0) by reflexivity. rewrite <- Zlt_Qlt. lia. }
  assert (Hx0 : (0 <= (qz (Z.of_nat k) / qz (Z.of_nat n))%Qc)%Q).
  { rewrite this_div, !this_qz. apply Qle_shift_div_l; [exact Hpos|].
    rewrite Qmult_0_l. replace 0%Q with (inject_Z 0) by reflexivity.
    rewrite <- Zle_Qle. lia. }
  assert (Hxx : ((qz (Z.of_nat k) / qz (Z.of_nat n))%Qc
                 <= (qz (Z.of_nat k') / qz (Z.of_nat n))%Qc)%Q).
  { rewrite !this_div, !this_qz. apply Qmult_le_compat_r.
    - rewrite <- Zle_Qle. lia.
    - apply Qlt_le_weak, Qinv_lt_0_compat, Hpos. }
  assert (Hx1 : ((qz (Z.of_nat k') / qz (Z.of_nat n))%Qc <= 1)%Q).
  { rewrite this_div, !this_qz. apply Qle_shift_div_r; [exact Hpos|].
    rewrite Qmult_1_l. rewrite <- Zle_Qle. lia. }
  destruct (round64_pair _ _ 1%Q Hx0 Hxx Hx1) as (x & x' & Ex & Ex' & A & B & C);
    [vm_compute; reflexivity|vm_compute; reflexivity|].
  cbn [fl]. rewrite Ex, Ex'. change (of_Z 100) with (Fin (qz 100)).
  cbn [mul fl].
  assert (Hy0 : (0 <= (x * qz 100)%Qc)%Q).
  { rewrite this_mul, this_qz. apply Qmult_le_0_compat; [exact A|discriminate]. }
  assert (Hyy : ((x * qz 100)%Qc <= (x' * qz 100)%Qc)%Q).
  { rewrite !this_mul, this_qz. apply Qmult_le_compat_r; [exact B|discriminate]. }
  assert (Hy1 : ((x' * qz 100)%Qc <= 100)%Q).
  { rewrite this_mul, this_qz.
    apply Qle_trans with (1 * inject_Z 100)%Q; [|discriminate].
    apply Qmult_le_compat_r; [exact C|discriminate]. }
  destruct (round64_pair _ _ 100%Q Hy0 Hyy Hy1)
    as (y & y' & Ey & Ey' & A' & B' & C');
    [vm_compute; reflexivity|vm_compute; reflexivity|].
  rewrite Ey, Ey'. cbn [Math_round].
  eexists. eexists. split; [reflexivity|]. split; [reflexivity|].
  split; [|split].
  - replace 0%Z with (Qfloor 0) by reflexivity. apply Qfloor_resp_le.
    rewrite this_add, this_Q2Qc.
    apply Qle_trans with (0 + 0)%Q; [discriminate|].
    apply Qplus_le_compat; [exact A'|discriminate].
  - apply Qfloor_resp_le. rewrite !this_add.
    apply Qplus_le_compat; [exact B'|apply Qle_refl].
  - replace 100%Z with (Qfloor (201 # 2)) by reflexivity. apply Qfloor_resp_le.
    rewrite this_add, this_Q2Qc.
    apply Qle_trans with (100 + (1 # 2))%Q; [|discriminate].
    apply Qplus_le_compat; [exact C'|apply Qle_refl].
Qed.

(** All the models counted: 100. *)
Lemma percent_full n : 1 <= n -> percent n n = of_Z 100.
Proof.
  intros Hn. unfold percent. rewrite div_counts by exact Hn.
  assert (E : (qz (Z.of_nat n) / qz (Z.of_nat n))%Qc = Q2Qc 1).
  { apply Qc_is_canon. rewrite this_div, !this_qz, this_Q2Qc.
    field. unfold Qeq, inject_Z. simpl. lia. }
  rewrite E. vm_compute. reflexivity.
Qed.

(** The percentage is [Math.round] of a number within [2^-45] of
    [100 k / n]. *)
Lemma percent_error k n :
  k <= n -> 1 <= n ->
  exists yy : Q,
    percent k n = of_Z (Qfloor (yy + (1 # 2))) /\
    (yy - inject_Z (100 * Z.of_nat k) / inject_Z (Z.of_nat n)
     <= 1 # 2 ^ 45)%Q /\
    (inject_Z (100 * Z.of_nat k) / inject_Z (Z.of_nat n) - yy
     <= 1 # 2 ^ 45)%Q.
Proof.
  intros Hk Hn. unfold percent. rewrite div_counts by exact Hn.
  assert (Hpos : (0 < inject_Z (Z.of_nat n))%Q).
  { replace 0%Q with (inject_Z 0) by reflexivity. rewrite <- Zlt_Qlt. lia. }
  assert (EY : (inject_Z (100 * Z.of_nat k) / inject_Z (Z.of_nat n)
                == 100 * (inject_Z (Z.of_nat k) / inject_Z (Z.of_nat n)))%Q).
  { rewrite inject_Z_mult. change (inject_Z 100) with 100%Q. field. lra. }
  assert (EX : ((qz (Z.of_nat k) / qz (Z.of_nat n))%Qc
                == inject_Z (Z.of_nat k) / inject_Z (Z.of_nat n))%Q).
  { now rewrite this_div, !this_qz. }
  assert (Hx0 : (0 <= inject_Z (Z.of_nat k) / inject_Z (Z.of_nat n))%Q).
  { apply Qle_shift_div_l; [exact Hpos|].
    rewrite Qmult_0_l. replace 0%Q with (inject_Z 0) by reflexivity.
    rewrite <- Zle_Qle. lia. }
  assert (Hx1 : (inject_Z (Z.of_nat k) / inject_Z (Z.of_nat n) <= 1)%Q).
  { apply Qle_shift_div_r; [exact Hpos|].
    rewrite Qmult_1_l. rewrite <- Zle_Qle. lia. }
  revert EY EX Hx0 Hx1.
  generalize (inject_Z (100 * Z.of_nat k) / inject_Z (Z.of_nat n))%Q as Y.
  generalize (inject_Z (Z.of_nat k) / inject_Z (Z.of_nat n))%Q as X.
  generalize (qz (Z.of_nat k) / qz (Z.of_nat n))%Qc as x.
  intros x X Y EY EX Hx0 Hx1.
  destruct (round64_small x 1%Q) as (x' & Ex & A & B & C & D);
    [lra|lra|vm_compute; reflexivity|vm_compute; reflexivity|].
  cbn [fl]. rewrite Ex. change (of_Z 100) with (Fin (qz 100)). cbn [mul fl].
  assert (EM : ((x' * qz 100)%Qc == x' * 100)%Q).
  { now rewrite this_mul, this_qz. }
  destruct (round64_small (x' * qz 100)%Qc 100%Q)
    as (y' & Ey & A' & B' & C' & D');
    [lra|lra|vm_compute; reflexivity|vm_compute; reflexivity|].
  rewrite Ey. cbn [Math_round].
  exists (this y'). split.
  - f_equal. apply Qfloor_comp. now rewrite this_add, this_Q2Qc.
  - assert (U1 : (2 ^ ulp_exp 1 * (1 # 2) == 1 # 2 ^ 53)%Q)
      by (vm_compute; reflexivity).
    assert (U2 : (2 ^ ulp_exp 100 * (1 # 2) == 1 # 2 ^ 47)%Q)
      by (vm_compute; reflexivity).
    rewrite U1 in C, D. rewrite U2 in C', D'.
    change (1 # 2 ^ 53)%Q with (1 # 9007199254740992)%Q in C, D.
    change (1 # 2 ^ 47)%Q with (1 # 140737488355328)%Q in C', D'.
    change (1 # 2 ^ 45)%Q with (1 # 35184372088832)%Q.
    split; lra.
Qed.

(** For [n] below [2^32] (an array is shorter) the percentage is
    [round(100 k / n)], unless [100 k / n] is half way between two
    integers, where it is that or one less. *)
Lemma percent_round_pct k n :
  k <= n -> 1 <= n -> (Z.of_nat n < 2 ^ 32)%Z ->
  percent k n = of_Z (round_pct k n) \/
  (percent k n = of_Z (round_pct k n - 1) /\
   (200 * Z.of_nat k = (2 * round_pct k n - 1) * Z.of_nat n)%Z).
Proof.
  intros Hk Hn H32.
  destruct (percent_error k n Hk Hn) as (yy & Ep & A & B).
  assert (He : ((1 # 2 ^ 45) * inject_Z (2 * Z.of_nat n) < 1)%Q).
  { assert (H : (inject_Z (2 * Z.of_nat n) < inject_Z (2 ^ 33))%Q)
      by (rewrite <- Zlt_Qlt; lia).
    change (inject_Z (2 ^ 33)) with (8589934592 # 1)%Q in H.
    change (1 # 2 ^ 45)%Q with (1 # 35184372088832)%Q.
    generalize dependent (inject_Z (2 * Z.of_nat n)). intros a H. lra. }
  destruct (round_near_tie (Z.of_nat k) (Z.of_nat n) yy (1 # 2 ^ 45)
              ltac:(lia) He A B) as [E|[E T]];
    fold (round_pct k n) in *; rewrite E in Ep; auto.
Qed.

Lemma step_loaded s e s' :
  Inv s -> step s e = Some s' ->
  loaded s'
  = loaded s + match e with
               | LoadOk id _ => if model_request s id then 1 else 0
               | _ => 0
               end.
Proof.
  intros H Hstep. step_cases H Hstep; subst s'; try rewrite E0;
    try (destruct (cb r)); unfold model_request; rewrite ?Hn; projs; lia.
Qed.

Lemma run_requests config s0 tr s :
  reachable config s0 -> run s0 tr = Some s ->
  exists rs, requests s = requests s0 ++ rs.
Proof.
  revert s0. induction tr as [|e tr IH]; intros s0 Hr; cbn [run].
  - intros [= <-]. exists []. now rewrite app_nil_r.
  - destruct (step s0 e) as [s1|] eqn:E; [|discriminate]. intros Hrun.
    destruct (step_requests s0 e s1 (reachable_Inv _ _ Hr) E) as [rs1 H1].
    destruct (IH s1 (reach_step _ _ _ _ Hr E) Hrun) as [rs2 H2].
    exists (rs1 ++ rs2). now rewrite H2, H1, app_assoc.
Qed.

Lemma run_loaded config s0 tr s :
  reachable config s0 -> run s0 tr = Some s ->
  loaded s = loaded s0 + List.length (delivered s tr).
Proof.
  revert s0. induction tr as [|e tr IH]; intros s0 Hr; cbn [run].
  - intros [= <-]. simpl. lia.
  - destruct (step s0 e) as [s1|] eqn:E; [|discriminate]. intros Hrun.
    pose proof (reachable_Inv _ _ Hr) as H.
    assert (Hr1 : reachable config s1) by (eapply reach_step; eauto).
    rewrite (IH s1 Hr1 Hrun), (step_loaded s0 e s1 H E).
    unfold delivered. cbn [filter].
    destruct e as [id g| | | |]; try (simpl; lia).
    assert (Hm : model_request s id = model_request s0 id).
    { destruct (run_requests config s0 (LoadOk id g :: tr) s Hr) as [rs Hrs].
      - cbn [run]. now rewrite E.
      - apply model_request_old with (rs := rs); auto.
        apply step_LoadOk in E. destruct E as (r & Hin & _).
        now apply (inv_pending_lt s0 H). }
    rewrite Hm. destruct (model_request s0 id); simpl; lia.
Qed.

Lemma secondary_requests_single s : total s = 1 -> secondary_requests s = [].
Proof. unfold secondary_requests, total. now intros ->. Qed.

Lemma secondary_requests_all_model s :
  forallb is_model (secondary_requests s) = true.
Proof.
  unfold secondary_requests.
  induction (seq 1 (List.length (modelPaths s) - 1)); simpl; auto.
Qed.

Lemma delivery_reaching_total config s id g s' :
  reachable config s -> step s (LoadOk id g) = Some s' ->
  if (loaded s' =? total (init config)) && negb (loaded s' =? loaded s)
  then loadingScreen_hidden s' = true /\ issues s s' (key_requests s)
  else loadingScreen_hidden s' = loadingScreen_hidden s /\
       exists rs, issues s s' rs /\ forallb is_model rs = true.
Proof.
  intros Hr Hstep. pose proof (reachable_Inv _ _ Hr) as H.
  destruct (reachable_settings _ _ Hr) as (_ & _ & _ & _ & Hmp & _).
  assert (Et : total (init config) = total s) by (unfold total; now rewrite Hmp).
  rewrite Et. unfold issues.
  pose proof (step_effect _ _ _ H Hstep) as E. cbv beta iota in E.
  destruct E as (Hin & r & Hn & E).
  destruct r as [p0 [|i|code p]]; cbn [cb] in E.
  - destruct E as (-> & Ho & _ & E). cbv zeta in E. subst s'. projs.
    destruct (inv_noframe s H Ho) as (_ & Hld & _). rewrite Hld.
    destruct (1 =? total s) eqn:E1; cbn [andb negb Nat.eqb].
    + apply Nat.eqb_eq in E1. symmetry in E1.
      rewrite (secondary_requests_single s E1), !app_nil_r. auto.
    + rewrite app_nil_r. split; auto.
      exists (secondary_requests s). split; auto.
      apply secondary_requests_all_model.
  - destruct E as (sc & offset & _ & _ & ->). projs.
    assert (E2 : (S (loaded s) =? loaded s) = false) by (apply Nat.eqb_neq; lia).
    rewrite E2. destruct (S (loaded s) =? total s); cbn [andb negb]; auto.
    split; auto. exists []. now rewrite app_nil_r.
  - assert (E2 : forall b, b && negb (loaded s =? loaded s) = false)
      by (intros b; rewrite Nat.eqb_refl; now destruct b).
    destruct E as (km & _ & [(sc & offset & _ & _ & ->)|(_ & _ & _ & ->)]);
      projs; rewrite E2; (split; auto); exists []; now rewrite app_nil_r.
Qed.

(** C5, as the claim words it, fails: the code computes
    [Math.round((loaded / total) * 100)] in binary64.  With 40 paths, after
    the 23rd delivery the quotient is the binary64 number next below 0.575,
    its product by 100 is rounded to the binary64 number next below 57.5,
    and the width written is 57; [round(100 * 23 / 40)] is 58. *)
Lemma round_pct_counterexample :
  option_map (fun s => (loaded s, total s, progress_width s))
    (run (init fleet_config) fleet_events)
  = Some (23, 40, Some (of_Z 57)) /\
  percent 23 40 = of_Z 57 /\
  round_pct 23 40 = 58%Z /\
  of_Z 57 <> of_Z 58.
Proof.
  split; [vm_compute; reflexivity|]. split; [vm_compute; reflexivity|].
  split; [vm_compute; reflexivity|].
  intros E. apply of_Z_inj in E. discriminate.
Qed.

(** C5 (amended): in a run, after the [k]-th delivery of a model of
    [loadModels] the count is [k] and the percentage shown is
    [Math.round((k / N) * 100)] as binary64 arithmetic gives it.  For
    [N >= 1] paths and [k <= N] this is a whole number from 0 to 100; it
    does not decrease when [k] grows, and it is 100 for [k = N]; this holds
    for every run, so for every order of completion.  It is
    [round(100 * k / N)] unless [100 * k / N] is half way between two whole
    numbers, where it is that or one less ([N] below [2^32], as the length
    of an array is).  The overlay is hidden
    exactly when the count has reached [N]; the delivery that makes the count
    reach [N] hides it and issues the initial [off] load of every key slot,
    and a delivery that does not issues no load of a key model and leaves
    the overlay as it is. *)
Theorem load_progress config :
  (forall tr s,
      run (init config) tr = Some s ->
      let k := List.length (delivered s tr) in
      let N := total (init config) in
      loaded s = k /\
      (1 <= k -> progress_width s = Some (percent k N)) /\
      (loadingScreen_hidden s = true <-> 1 <= k /\ k = N)) /\
  (forall k k' n,
      k <= k' -> k' <= n -> 1 <= n ->
      exists z z',
        percent k n = of_Z z /\ percent k' n = of_Z z' /\
        (0 <= z)%Z /\ (z <= z')%Z /\ (z' <= 100)%Z) /\
  (forall n, 1 <= n -> percent n n = of_Z 100) /\
  (forall k n,
      k <= n -> 1 <= n -> (Z.of_nat n < 2 ^ 32)%Z ->
      percent k n = of_Z (round_pct k n) \/
      (percent k n = of_Z (round_pct k n - 1) /\
       (200 * Z.of_nat k = (2 * round_pct k n - 1) * Z.of_nat n)%Z)) /\
  (forall s id g s',
      reachable config s -> step s (LoadOk id g) = Some s' ->
      if (loaded s' =? total (init config)) && negb (loaded s' =? loaded s)
      then loadingScreen_hidden s' = true /\ issues s s' (key_requests s)
      else loadingScreen_hidden s' = loadingScreen_hidden s /\
           exists rs, issues s s' rs /\ forallb is_model rs = true).
Proof.
  split; [|split; [|split; [|split]]].
  - intros tr s Hrun k N.
    assert (Hr : reachable config s)
      by (eapply run_reachable; [apply reach_init|exact Hrun]).
    pose proof (reachable_Inv _ _ Hr) as H.
    destruct (reachable_settings _ _ Hr) as (_ & _ & _ & _ & Hmp & _).
    assert (Et : N = total s) by (unfold N, total; now rewrite Hmp).
    assert (Hk : loaded s = k).
    { unfold k. rewrite (run_loaded config (init config) tr s (reach_init _) Hrun).
      destruct (init_fields config) as (_ & _ & _ & _ & _ & _ & Hl & _).
      cbv zeta in Hl. now rewrite Hl. }
    rewrite Et, <- Hk. split; [reflexivity|]. split.
    + intros H1. apply (inv_progress s H H1).
    + split.
      * intros Hh. destruct (inv_hidden s H Hh). auto.
      * intros [H1 H2]. now apply (inv_progress s H H1).
  - apply percent_steps.
  - apply percent_full.
  - apply percent_round_pct.
  - apply delivery_reaching_total.
Qed.

Lemma load_progress_witness :
  run (init car_config) swapped_events = Some (after car_config swapped_events) /\
  loaded (after car_config swapped_events) = 2 /\
  progress_width (after car_config swapped_events)
  = Some (percent 2 (total (init car_config))) /\
  (exists z z',
      percent 1 2 = of_Z z /\ percent 2 2 = of_Z z' /\
      (0 <= z)%Z /\ (z <= z')%Z /\ (z' <= 100)%Z) /\
  percent 2 2 = of_Z 100 /\
  (percent 23 40 = of_Z (round_pct 23 40) \/
   (percent 23 40 = of_Z (round_pct 23 40 - 1) /\
    (200 * Z.of_nat 23 = (2 * round_pct 23 40 - 1) * Z.of_nat 40)%Z)).
Proof.
  assert (H1 : run (init car_config) swapped_events
               = Some (after car_config swapped_events))
    by (apply run_after; vm_compute; discriminate).
  assert (H2 : 1 <= 2) by lia.
  assert (H3 : 2 <= 2) by lia.
  destruct (proj1 (load_progress car_config) swapped_events _ H1)
    as (A & B & _).
  assert (Hk : List.length
                 (delivered (after car_config swapped_events) swapped_events)
               = 2) by (vm_compute; reflexivity).
  rewrite Hk in A, B.
  split; [exact H1|]. split; [exact A|]. split; [exact (B H2)|].
  split; [|split].
  - exact (proj1 (proj2 (load_progress car_config)) 1 2 2 H2 H3 H2).
  - exact (proj1 (proj2 (proj2 (load_progress car_config))) 2 H2).
  - apply (proj1 (proj2 (proj2 (proj2 (load_progress car_config)))) 23 40);
      [lia|lia|reflexivity].
Defined.

(** ** One mesh per key slot *)

Lemma filter_none {A : Type} (f : A -> bool) (l : list A) :
  (forall o, In o l -> f o = false) -> filter f l = [].
Proof.
  induction l as [|c l IH]; simpl; auto. intros H.
  rewrite (H c (or_introl eq_refl)). apply IH. auto.
Qed.



Lemma key_delivered config s id g s' code :
  reachable config s -> key_request s code id = true ->
  _globalOffset s <> None ->
  step s (LoadOk id g) = Some s' ->
  exists sc offset,
    frame s = (Some sc, Some offset) /\
    let m := placed id g (modelRotation s) sc offset (enabledShadow s) in
    scene s' = swapped (slot_mesh s code) m (scene s) /\
    slot_mesh s' code = Some m /\
    slot_pressed s' code = slot_pressed s code.
Proof.
  intros Hr Hk Ho Hstep. pose proof (reachable_Inv _ _ Hr) as H.
  apply key_request_inv in Hk. destruct Hk as (p0 & p & Hn).
  pose proof (step_effect _ _ _ H Hstep) as E. cbv beta iota in E.
  destruct E as (Hin & r & Hn' & E). rewrite Hn in Hn'. injection Hn' as <-.
  cbn [cb] in E.
  destruct E as (km & Hg & [(sc & offset & Hs & Hoff & ->)|(_ & Hnone & _)]);
    [|congruence].
  exists sc, offset. unfold frame, slot_mesh, slot_pressed, swapped.
  rewrite Hs, Hoff, Hg. projs. rewrite get_put_same. repeat split.
Qed.




Lemma step_key_request s e s' code id :
  Inv s -> step s e = Some s' -> id < List.length (requests s) ->
  key_request s' code id = key_request s code id.
Proof.
  intros H Hstep Hlt. destruct (step_requests s e s' H Hstep) as [rs Hrs].
  now apply key_request_old with (rs := rs).
Qed.

Lemma run_key_request config s0 tr s code id :
  reachable config s0 -> run s0 tr = Some s -> id < List.length (requests s0) ->
  key_request s code id = key_request s0 code id.
Proof.
  intros Hr Hrun Hlt. destruct (run_requests config s0 tr s Hr Hrun) as [rs Hrs].
  now apply key_request_old with (rs := rs).
Qed.








(** ** When the previous mesh is read *)

(** C8, as the claim words it, fails: were the previous mesh captured before
    the load begins, the run [early_key_events] would leave two meshes of
    the slot in the scene (requests 2 and 3); the code leaves one
    (request 3), because the closure of request 3 reads the slot when the
    asset arrives and removes the mesh of request 2. *)
Lemma captured_before_load_counterexample :
  option_map (fun s => option_map uid (slot_mesh s "Digit1"))
    (run (init car_config)
       [LoadOk 0 box_asset; LoadOk 1 box_asset; KeyDown "Digit1"])
  = Some None /\
  option_map scene_uids
    (run (init car_config)
       [LoadOk 0 box_asset; LoadOk 1 box_asset; KeyDown "Digit1";
        LoadOk 2 box_asset])
  = Some [0; 1; 2] /\
  option_map scene_uids (run (init car_config) early_key_events)
  = Some [0; 1; 3] /\
  option_map (fun sc => scene_uids (fst sc))
    (run_captured (init_captured car_config) early_key_events)
  = Some [0; 1; 2; 3].
Proof. repeat split; vm_compute; reflexivity. Qed.

Lemma key_event_quiet s e s' :
  Inv s -> step s e = Some s' -> key_event e = true ->
  scene s' = scene s /\ forall c, slot_mesh s' c = slot_mesh s c.
Proof.
  intros H Hstep Hk. destruct e as [| |code|code|]; try discriminate;
    injection Hstep as <-.
  - destruct (keydown_cases code s) as [->|(km & Hg & _ & ->)]; auto.
    split; [reflexivity|]. intros c. unfold slot_mesh. projs. rewrite get_put.
    destruct (String.eqb code c) eqn:E; auto.
    apply String.eqb_eq in E; subst c. now rewrite Hg.
  - destruct (keyup_cases code s) as [->|(km & Hg & _ & ->)]; auto.
    split; [reflexivity|]. intros c. unfold slot_mesh. projs. rewrite get_put.
    destruct (String.eqb code c) eqn:E; auto.
    apply String.eqb_eq in E; subst c. now rewrite Hg.
Qed.

Lemma mesh_leaves_on_arrival config s e s' code m :
  reachable config s -> slot_mesh s code = Some m ->
  step s e = Some s' -> ~ In m (scene s') ->
  exists id g m',
    e = LoadOk id g /\ key_request s code id = true /\
    uid m' = id /\ In m' (scene s') /\ slot_mesh s' code = Some m'.
Proof.
  intros Hr Hm Hstep Hgone. pose proof (reachable_Inv _ _ Hr) as H.
  destruct (inv_mesh_in s H code m Hm) as [Hin Hk].
  assert (Ho : _globalOffset s <> None).
  { intros Ho. destruct (inv_noframe s H Ho) as (Hnil & _).
    rewrite Hnil in Hin. destruct Hin. }
  revert Hgone. pose proof Hstep as Hstep0.
  step_cases H Hstep; subst s'; try rewrite E0;
    try (destruct (cb r)); projs; rewrite ?in_app_iff; try tauto.
  (* a key model arrives *)
  intros Hgone.
    assert (Hkr : key_request s code0 id = true).
    { unfold key_request. rewrite Hn. apply String.eqb_refl. }
    assert (code0 = code); [|subst code0].
    { destruct (mesh km) as [prev|] eqn:Hprev; [|tauto].
      destruct (inv_mesh_in s H code0 prev) as [Hpin Hpk].
      { unfold slot_mesh. now rewrite H0. }
      destruct (Nat.eq_dec (uid m) (uid prev)) as [Eu|Eu].
      - rewrite Eu in Hk. eapply key_request_functional; eauto.
      - exfalso. apply Hgone. left. now apply remove_child_keep. }
    destruct (key_delivered config s id g _ code Hr Hkr Ho Hstep0)
      as (sc' & offset' & _ & Hscn & Hsm & _).
    exists id, g, (placed id g (modelRotation s) sc' offset' (enabledShadow s)).
    split; [reflexivity|]. split; [exact Hkr|].
    split; [reflexivity|]. split; [|exact Hsm].
    change (In (placed id g (modelRotation s) sc' offset' (enabledShadow s))
              (scene (key_placed id code km g sc offset (settle id s)))).
    rewrite Hscn. unfold swapped. apply in_app_iff. right. now left.
Qed.

(** C8, amended: in a key-swap transition the key event only issues the
    load: it changes neither the scene nor the mesh of any slot.  The
    previous mesh is read when the new asset arrives, not before the load
    begins: the mesh the slot refers to at that moment leaves the scene and
    the new one enters it.  So the mesh of a slot stays in the scene until
    an asset for that slot arrives. *)
Theorem previous_mesh_read_on_arrival config s :
  reachable config s ->
  (forall e s',
      step s e = Some s' -> key_event e = true ->
      scene s' = scene s /\ forall c, slot_mesh s' c = slot_mesh s c) /\
  (forall id g s' code,
      key_request s code id = true -> _globalOffset s <> None ->
      step s (LoadOk id g) = Some s' ->
      exists m, uid m = id /\
                scene s' = swapped (slot_mesh s code) m (scene s) /\
                slot_mesh s' code = Some m) /\
  (forall e s' code m,
      slot_mesh s code = Some m -> step s e = Some s' ->
      ~ In m (scene s') ->
      exists id g m',
        e = LoadOk id g /\ key_request s code id = true /\
        uid m' = id /\ In m' (scene s') /\ slot_mesh s' code = Some m').
Proof.
  intros Hr. pose proof (reachable_Inv _ _ Hr) as H.
  split; [|split].
  - intros e s'. now apply key_event_quiet.
  - intros id g s' code Hk Ho Hstep.
    destruct (key_delivered config s id g s' code Hr Hk Ho Hstep)
      as (sc & offset & _ & Hscn & Hm & _).
    eexists. split; [|split; [exact Hscn|exact Hm]]. reflexivity.
  - intros e s' code m. now apply (mesh_leaves_on_arrival config).
Qed.

Lemma previous_mesh_read_on_arrival_witness :
  reachable car_config light_requested /\
  forall e s',
    step light_requested e = Some s' -> key_event e = true ->
    scene s' = scene light_requested /\
    forall c, slot_mesh s' c = slot_mesh light_requested c.
Proof.
  assert (H1 : reachable car_config light_requested)
    by (apply after_reachable; vm_compute; discriminate).
  split; [exact H1|].
  exact (proj1 (previous_mesh_read_on_arrival car_config light_requested H1)).
Defined.

(** ** The bounding box of finite geometry *)































(** ** The Normalization Frame of the base model *)




(** * More properties of the class *)

Lemma turned_step n speed r :
  turned n speed (add r speed) = turned (S n) speed r.
Proof.
  unfold turned. now rewrite Nat.iter_succ_r.
Qed.

Lemma step_rotation s e s' :
  Inv s -> step s e = Some s' ->
  scene_rotation_y s'
  = if is_frame e && autoRotate s
    then add (scene_rotation_y s) (rotationSpeed s)
    else scene_rotation_y s.
Proof.
  intros H Hstep. destruct (is_frame e) eqn:Ef.
  - destruct e; try discriminate. injection Hstep as <-.
    unfold animate. projs. now destruct (autoRotate s).
  - step_cases H Hstep; try discriminate; subst s'; try rewrite E0;
      try (destruct (cb r)); reflexivity.
Qed.

Lemma run_rotation config s0 tr s :
  reachable config s0 -> run s0 tr = Some s ->
  scene_rotation_y s
  = if autoRotate s0
    then turned (frames tr) (rotationSpeed s0) (scene_rotation_y s0)
    else scene_rotation_y s0.
Proof.
  revert s0. induction tr as [|e tr IH]; intros s0 Hr; cbn [run].
  - intros [= <-]. now destruct (autoRotate s0).
  - destruct (step s0 e) as [s1|] eqn:E; [|discriminate]. intros Hrun.
    pose proof (reachable_Inv _ _ Hr) as H.
    rewrite (IH s1 (reach_step _ _ _ _ Hr E) Hrun).
    destruct (step_same_settings s0 e s1 H E) as (_ & _ & -> & -> & _).
    rewrite (step_rotation s0 e s1 H E).
    unfold frames. cbn [filter].
    destruct (autoRotate s0); [|now rewrite andb_false_r].
    rewrite andb_true_r. destruct (is_frame e); [|reflexivity].
    cbn [List.length]. apply turned_step.
Qed.

(** X1: the angle of the scene counts the turns of [animate].  With
    [autoRotate] set, after a run with [n] frames [scene.rotation.y] is 0
    with [rotationSpeed] added [n + 1] times (the first turn runs inside
    [init]), whatever the deltas of the clock and whatever else happened in
    between; without it the angle stays 0. *)
Theorem rotation_counts_frames config tr s :
  run (init config) tr = Some s ->
  scene_rotation_y s
  = if cfg_autoRotate config
    then turned (S (frames tr)) (cfg_rotationSpeed config) (of_Z 0)
    else of_Z 0.
Proof.
  intros Hrun.
  rewrite (run_rotation config (init config) tr s (reach_init _) Hrun).
  unfold init, animate. cbv zeta.
  match goal with |- context [_setupKeyModels ?s0] =>
    destruct (_setupKeyModels_spec s0 eq_refl) as [H1 _]; revert H1;
    generalize (keyModels (_setupKeyModels s0)) as kms
  end.
  intros kms ->. cbn.
  destruct (cfg_autoRotate config); cbn; [|reflexivity].
  now rewrite turned_step.
Qed.

Lemma rotation_counts_frames_witness :
  run (init car_config) [Frame (of_Z 1); LoadOk 0 box_asset; Frame (of_Z 2)]
  = Some (after car_config
            [Frame (of_Z 1); LoadOk 0 box_asset; Frame (of_Z 2)]) /\
  scene_rotation_y
    (after car_config [Frame (of_Z 1); LoadOk 0 box_asset; Frame (of_Z 2)])
  = turned 3 (Fin (Q2Qc (1 # 500))) (of_Z 0).
Proof.
  assert (H1 : run (init car_config)
                 [Frame (of_Z 1); LoadOk 0 box_asset; Frame (of_Z 2)]
               = Some (after car_config
                         [Frame (of_Z 1); LoadOk 0 box_asset; Frame (of_Z 2)]))
    by (apply run_after; vm_compute; discriminate).
  split; [exact H1|].
  exact (rotation_counts_frames car_config _ _ H1).
Defined.

(** ** Mixers *)

Lemma step_mixers s e s' :
  Inv s -> step s e = Some s' ->
  match e with
  | Frame d => mixers s' = map (update d) (mixers s)
  | LoadOk id g =>
      mixers s' = mixers s ++ new_mixers id g \/
      (_globalOffset s = None /\ mixers s' = mixers s)
  | _ => mixers s' = mixers s
  end.
Proof.
  intros H Hstep. destruct (is_frame e) eqn:Ef.
  - destruct e; try discriminate. injection Hstep as <-.
    unfold animate. projs. now destruct (autoRotate s).
  - step_cases H Hstep; try discriminate; subst s'; try rewrite E0;
      try (destruct (cb r)); projs; subst; auto.
Qed.

Lemma new_mixers_loop id g m a :
  In m (new_mixers id g) -> In a (actions m) -> loops_forever a.
Proof.
  unfold new_mixers. destruct (animations g) as [|c clips]; [intros []|].
  intros [<-|[]]. cbn [actions]. rewrite in_map_iff.
  intros (c0 & <- & _). repeat split.
Qed.

Lemma reachable_loops config s m a :
  reachable config s -> In m (mixers s) -> In a (actions m) -> loops_forever a.
Proof.
  intros Hr. revert m a. induction Hr as [|s e s' Hr IH Hstep].
  - destruct (init_fields config) as (_ & _ & _ & _ & _ & Hm & _).
    cbv zeta in Hm. rewrite Hm. intros m a [].
  - intros m a. pose proof (reachable_Inv _ _ Hr) as H.
    pose proof (step_mixers s e s' H Hstep) as E.
    destruct e as [id g|id|code|code|d]; try (rewrite E; apply IH).
    + destruct E as [-> |[_ ->]]; [|apply IH].
      rewrite in_app_iff. intros [Hm|Hm]; [now apply IH|].
      now apply (new_mixers_loop id g).
    + rewrite E, in_map_iff. intros (m0 & <- & Hm0). apply (IH m0 a Hm0).
Qed.

Lemma run_mixers config s0 tr s :
  reachable config s0 -> run s0 tr = Some s ->
  exists new, mixers s = map (advanced (deltas tr)) (mixers s0) ++ new.
Proof.
  revert s0. induction tr as [|e tr IH]; intros s0 Hr; cbn [run].
  - intros [= <-]. exists []. cbn. now rewrite map_id, app_nil_r.
  - destruct (step s0 e) as [s1|] eqn:E; [|discriminate]. intros Hrun.
    pose proof (reachable_Inv _ _ Hr) as H.
    destruct (IH s1 (reach_step _ _ _ _ Hr E) Hrun) as [new Hnew].
    pose proof (step_mixers s0 e s1 H E) as Hm.
    destruct e as [id g|id|code|code|d]; cbn [deltas flat_map app];
      fold (deltas tr); try (rewrite Hm in Hnew; eauto).
    + destruct Hm as [Hm|[_ Hm]]; rewrite Hm in Hnew; eauto.
      rewrite map_app, <- app_assoc in Hnew. eauto.
    + rewrite map_map in Hnew. eauto.
Qed.

(** X2: no mixer is ever removed.  Along a run every mixer stays in
    [this.mixers], in place, with its root and its actions, its clock advanced
    by the delta of every frame since; every action of every mixer repeats
    for ever and plays; and when a key model replaces the mesh of its slot,
    the old mesh leaves the scene while the mixers bound to it all stay. *)
Theorem mixers_never_removed config :
  (forall s0 tr s,
      reachable config s0 -> run s0 tr = Some s ->
      exists new, mixers s = map (advanced (deltas tr)) (mixers s0) ++ new) /\
  (forall s m a,
      reachable config s -> In m (mixers s) -> In a (actions m) ->
      loops_forever a) /\
  (forall s id g s' code prev,
      reachable config s -> key_request s code id = true ->
      slot_mesh s code = Some prev ->
      step s (LoadOk id g) = Some s' ->
      ~ In prev (scene s') /\
      forall m, In m (mixers s) -> root m = uid prev -> In m (mixers s')).
Proof.
  split; [|split].
  - apply run_mixers.
  - intros s m a. apply reachable_loops.
  - intros s id g s' code prev Hr Hk Hm Hstep.
    pose proof (reachable_Inv _ _ Hr) as H.
    destruct (inv_mesh_in s H code prev Hm) as [Hin _].
    assert (Ho : _globalOffset s <> None).
    { intros Ho. destruct (inv_noframe s H Ho) as (Hnil & _).
      rewrite Hnil in Hin. destruct Hin. }
    destruct (key_delivered config s id g s' code Hr Hk Ho Hstep)
      as (sc & offset & _ & Hscn & _).
    cbv zeta in Hscn. split.
    + rewrite Hscn, Hm. unfold swapped. rewrite in_app_iff.
      intros [Hp|[Hp|[]]].
      * apply (remove_child_gone prev (scene s) (inv_scene_nodup s H)).
        now apply in_map.
      * destruct (inv_scene s H prev Hin) as (_ & Hnp & _).
        apply Hnp. rewrite <- Hp. cbn.
        apply step_LoadOk in Hstep. now destruct Hstep as (r & Hp' & _).
    + intros m Hmx _.
      destruct (step_mixers s _ s' H Hstep) as [-> |[_ ->]]; auto.
      apply in_app_iff. now left.
Qed.

Lemma mixers_never_removed_witness :
  reachable car_config light_requested /\
  key_request light_requested "Digit1" 3 = true /\
  slot_mesh light_requested "Digit1"
  = Some (placed 2 box_asset Vector3.zero
            (frame_scale (base_model car_config box_asset))
            (frame_offset (base_model car_config box_asset)) false) /\
  step light_requested (LoadOk 3 box_asset)
  = Some (after car_config
            [LoadOk 0 box_asset; LoadOk 1 box_asset; LoadOk 2 box_asset;
             KeyDown "Digit1"; LoadOk 3 box_asset]) /\
  ~ In (placed 2 box_asset Vector3.zero
          (frame_scale (base_model car_config box_asset))
          (frame_offset (base_model car_config box_asset)) false)
       (scene (after car_config
                 [LoadOk 0 box_asset; LoadOk 1 box_asset; LoadOk 2 box_asset;
                  KeyDown "Digit1"; LoadOk 3 box_asset])) /\
  forall m,
    In m (mixers light_requested) -> root m = 2 ->
    In m (mixers (after car_config
                    [LoadOk 0 box_asset; LoadOk 1 box_asset;
                     LoadOk 2 box_asset; KeyDown "Digit1";
                     LoadOk 3 box_asset])).
Proof.
  assert (H1 : reachable car_config light_requested)
    by (apply after_reachable; vm_compute; discriminate).
  assert (H2 : key_request light_requested "Digit1" 3 = true)
    by (vm_compute; reflexivity).
  assert (H3 : slot_mesh light_requested "Digit1"
               = Some (placed 2 box_asset Vector3.zero
                         (frame_scale (base_model car_config box_asset))
                         (frame_offset (base_model car_config box_asset))
                         false))
    by (vm_compute; reflexivity).
  assert (H4 : step light_requested (LoadOk 3 box_asset)
               = Some (after car_config
                         [LoadOk 0 box_asset; LoadOk 1 box_asset;
                          LoadOk 2 box_asset; KeyDown "Digit1";
                          LoadOk 3 box_asset]))
    by (vm_compute; reflexivity).
  split; [exact H1|]. split; [exact H2|]. split; [exact H3|].
  split; [exact H4|].
  exact (proj2 (proj2 (mixers_never_removed car_config)) light_requested 3
           box_asset _ "Digit1"%string _ H1 H2 H3 H4).
Defined.

(** ** A key model that arrives before the base model *)

(** X3: a key model that arrives while the frame is not set (the base model
    has not arrived yet, or has failed) is dropped: [position.sub(undefined)]
    raises a [TypeError], nothing enters the scene, no mixer is added, the
    slots and the frame are as before and the slot has no mesh. *)
Theorem key_model_before_frame config s id g code :
  reachable config s -> key_request s code id = true ->
  In id (pending s) -> _globalOffset s = None ->
  exists s',
    step s (LoadOk id g) = Some s' /\
    console s' = console s ++ [TypeError id] /\
    scene s' = [] /\ mixers s' = mixers s /\ keyModels s' = keyModels s /\
    slot_mesh s' code = None /\ frame s' = frame s.
Proof.
  intros Hr Hk Hin Ho. pose proof (reachable_Inv _ _ Hr) as H.
  destruct (step_enabled s id g H Hin) as [s' Hstep]. exists s'.
  split; [exact Hstep|].
  apply key_request_inv in Hk. destruct Hk as (p0 & p & Hn).
  pose proof (step_effect _ _ _ H Hstep) as E. cbv beta iota in E.
  destruct E as (_ & r & Hn' & E). rewrite Hn in Hn'. injection Hn' as <-.
  cbn [cb] in E.
  destruct E as (km & Hg & [(sc & offset & _ & Hoff & _)|(_ & _ & Hm & ->)]);
    [congruence|].
  destruct (inv_noframe s H Ho) as (Hnil & _).
  unfold slot_mesh, frame. projs. rewrite Hg, Hm, Hnil. repeat split.
Qed.

Lemma key_model_before_frame_witness :
  reachable car_config eager_key /\
  key_request eager_key "Digit1" 1 = true /\
  In 1 (pending eager_key) /\ _globalOffset eager_key = None /\
  exists s',
    step eager_key (LoadOk 1 box_asset) = Some s' /\
    console s' = console eager_key ++ [TypeError 1] /\
    scene s' = [] /\ mixers s' = mixers eager_key /\
    keyModels s' = keyModels eager_key /\
    slot_mesh s' "Digit1" = None /\ frame s' = frame eager_key.
Proof.
  assert (H1 : reachable car_config eager_key)
    by (apply after_reachable; vm_compute; discriminate).
  assert (H2 : key_request eager_key "Digit1" 1 = true)
    by (vm_compute; reflexivity).
  assert (H3 : In 1 (pending eager_key)) by (vm_compute; auto).
  assert (H4 : _globalOffset eager_key = None) by (vm_compute; reflexivity).
  split; [exact H1|]. split; [exact H2|]. split; [exact H3|].
  split; [exact H4|].
  exact (key_model_before_frame car_config eager_key 1 box_asset "Digit1"
           H1 H2 H3 H4).
Defined.

Lemma step_type_error s e s' x :
  Inv s -> step s e = Some s' ->
  In (TypeError x) (console s') ->
  In (TypeError x) (console s) \/
  (_globalOffset s = None /\ exists g code, e = LoadOk x g /\ key_request s code x = true).
Proof.
  intros H Hstep. step_cases H Hstep; subst s'; try rewrite E0;
    try (destruct (cb r)); projs; rewrite ?in_app_iff; auto.
  all: try (intros [Hx|[Hx|[]]]; [auto|discriminate]).
  intros [Hx|[Hx|[]]]; [auto|]. injection Hx as <-. right. split; auto.
  exists g, code. split; auto. unfold key_request. rewrite Hn.
  apply String.eqb_refl.
Qed.

(** X4: only a key model without a frame throws.  Every [TypeError] of the
    console belongs to a request of [_loadKeyModel]; and once the frame is
    set no callback, of whatever kind, raises one. *)
Theorem type_errors_only_before_frame config :
  (forall s x,
      reachable config s -> In (TypeError x) (console s) ->
      exists code, key_request s code x = true) /\
  (forall s e s' x,
      reachable config s -> _globalOffset s <> None ->
      step s e = Some s' ->
      In (TypeError x) (console s') -> In (TypeError x) (console s)).
Proof.
  split.
  - intros s x Hr. induction Hr as [|s e s' Hr IH Hstep].
    + destruct (init_fields config)
        as (_ & _ & _ & _ & _ & _ & _ & _ & _ & _ & Hc & _).
      cbv zeta in Hc. rewrite Hc. intros [].
    + intros Hx. pose proof (reachable_Inv _ _ Hr) as H.
      destruct (step_type_error s e s' x H Hstep Hx)
        as [Hold|(_ & g & code & _ & Hk)].
      * destruct (IH Hold) as [code Hk]. exists code.
        rewrite (step_key_request s e s' code x H Hstep); auto.
        now apply (key_request_lt s code).
      * exists code.
        rewrite (step_key_request s e s' code x H Hstep); auto.
        now apply (key_request_lt s code).
  - intros s e s' x Hr Ho Hstep Hx. pose proof (reachable_Inv _ _ Hr) as H.
    destruct (step_type_error s e s' x H Hstep Hx) as [Hold|(Hn & _)]; tauto.
Qed.

Lemma type_errors_only_before_frame_witness :
  reachable car_config
    (after car_config [KeyDown "Digit1"; LoadOk 1 box_asset]) /\
  In (TypeError 1)
    (console (after car_config [KeyDown "Digit1"; LoadOk 1 box_asset])) /\
  exists code,
    key_request (after car_config [KeyDown "Digit1"; LoadOk 1 box_asset])
      code 1 = true.
Proof.
  assert (H1 : reachable car_config
                 (after car_config [KeyDown "Digit1"; LoadOk 1 box_asset]))
    by (apply after_reachable; vm_compute; discriminate).
  assert (H2 : In (TypeError 1)
                 (console (after car_config
                             [KeyDown "Digit1"; LoadOk 1 box_asset])))
    by (vm_compute; auto).
  split; [exact H1|]. split; [exact H2|].
  exact (proj1 (type_errors_only_before_frame car_config) _ 1 H1 H2).
Defined.

(** ** The [pressed] flag *)

Lemma step_pressed s e s' code b :
  Inv s -> step s e = Some s' -> slot_pressed s code = Some b ->
  slot_pressed s' code = Some (last_key code [e] b).
Proof.
  intros H Hstep. unfold slot_pressed.
  step_cases H Hstep; subst s'; try rewrite E0;
    try (destruct (cb r)); projs; cbn [last_key]; auto.
  - (* a key model arrives *)
    rewrite get_put. destruct (String.eqb code0 code) eqn:Ec; auto.
    apply String.eqb_eq in Ec; subst code0. now rewrite H0.
  - (* key down, nothing to do *)
    destruct (String.eqb code0 code) eqn:Ec; auto.
    apply String.eqb_eq in Ec; subst code0. intros Hb.
    destruct (get (keyModels s) code) as [km|] eqn:Hg; [|discriminate].
    cbn [option_map] in Hb |- *. injection Hb as <-.
    destruct (pressed km) eqn:Hp; [reflexivity|].
    exfalso. rewrite (keydown_eq code s km Hg Hp) in E0.
    apply (f_equal (fun x => List.length (requests x))) in E0.
    revert E0. projs. rewrite length_app. cbn. lia.
  - (* key down *)
    rewrite get_put. destruct (String.eqb code0 code) eqn:Ec; auto.
  - (* key up, nothing to do *)
    destruct (String.eqb code0 code) eqn:Ec; auto.
    apply String.eqb_eq in Ec; subst code0. intros Hb.
    destruct (get (keyModels s) code) as [km|] eqn:Hg; [|discriminate].
    cbn [option_map] in Hb |- *. injection Hb as <-.
    destruct (pressed km) eqn:Hp; [|reflexivity].
    exfalso. rewrite (keyup_eq code s km Hg Hp) in E0.
    apply (f_equal (fun x => List.length (requests x))) in E0.
    revert E0. projs. rewrite length_app. cbn. lia.
  - (* key up *)
    rewrite get_put. destruct (String.eqb code0 code) eqn:Ec; auto.
Qed.

(** X5: the [pressed] flag of a slot follows its key.  After a run it is
    [true] exactly when the last event of the key was a key-down (and what it
    was when the key had no event), whatever arrived or failed meanwhile. *)
Theorem pressed_follows_key config s0 tr s code b :
  reachable config s0 -> slot_pressed s0 code = Some b ->
  run s0 tr = Some s ->
  slot_pressed s code = Some (last_key code tr b).
Proof.
  revert s0 b. induction tr as [|e tr IH]; intros s0 b Hr Hb; cbn [run].
  - intros [= <-]. exact Hb.
  - destruct (step s0 e) as [s1|] eqn:E; [|discriminate]. intros Hrun.
    pose proof (step_pressed s0 e s1 code b (reachable_Inv _ _ Hr) E Hb) as H1.
    rewrite (IH s1 _ (reach_step _ _ _ _ Hr E) H1 Hrun).
    f_equal. cbn [last_key]. now destruct e.
Qed.

Lemma pressed_follows_key_witness :
  reachable car_config (init car_config) /\
  slot_pressed (init car_config) "Digit1" = Some false /\
  run (init car_config)
    [KeyDown "Digit1"; KeyDown "Digit1"; KeyUp "Digit1"; KeyDown "Digit1"]
  = Some (after car_config
            [KeyDown "Digit1"; KeyDown "Digit1"; KeyUp "Digit1";
             KeyDown "Digit1"]) /\
  slot_pressed
    (after car_config
       [KeyDown "Digit1"; KeyDown "Digit1"; KeyUp "Digit1"; KeyDown "Digit1"])
    "Digit1" = Some true.
Proof.
  assert (H1 : reachable car_config (init car_config)) by apply reach_init.
  assert (H2 : slot_pressed (init car_config) "Digit1" = Some false)
    by (vm_compute; reflexivity).
  assert (H3 : run (init car_config)
                 [KeyDown "Digit1"; KeyDown "Digit1"; KeyUp "Digit1";
                  KeyDown "Digit1"]
               = Some (after car_config
                         [KeyDown "Digit1"; KeyDown "Digit1"; KeyUp "Digit1";
                          KeyDown "Digit1"]))
    by (apply run_after; vm_compute; discriminate).
  split; [exact H1|]. split; [exact H2|]. split; [exact H3|].
  exact (pressed_follows_key car_config _ _ _ "Digit1" false H1 H2 H3).
Defined.

(** ** The mesh of a slot is the last arrival *)

Lemma latest_app {A : Type} (l1 l2 : list A) :
  latest (l1 ++ l2)
  = match latest l2 with
    | Some x => Some x
    | None => latest l1
    end.
Proof.
  unfold latest. induction l2 as [|x l2 IH] using rev_ind.
  - now rewrite app_nil_r.
  - rewrite app_assoc, !map_app. cbn [map]. rewrite !last_last. reflexivity.
Qed.

Lemma step_slot_mesh s e s' code sc offset :
  Inv s -> _globalScale s = Some sc -> _globalOffset s = Some offset ->
  step s e = Some s' ->
  slot_mesh s' code
  = match e with
    | LoadOk id g =>
        if key_request s code id
        then Some (placed id g (modelRotation s) sc offset (enabledShadow s))
        else slot_mesh s code
    | _ => slot_mesh s code
    end.
Proof.
  intros H Hsc Hoff Hstep. unfold slot_mesh, key_request.
  step_cases H Hstep; subst s'; try rewrite E0;
    try (destruct (cb r)); projs; rewrite ?Hn; try reflexivity;
    try congruence.
  - (* a key model arrives *)
    rewrite get_put.
    assert (sc0 = sc) by congruence. assert (offset0 = offset) by congruence.
    subst. destruct (String.eqb code0 code); reflexivity.
  - rewrite get_put. destruct (String.eqb code0 code) eqn:Ec; auto.
    apply String.eqb_eq in Ec; subst code0. now rewrite H0.
  - rewrite get_put. destruct (String.eqb code0 code) eqn:Ec; auto.
    apply String.eqb_eq in Ec; subst code0. now rewrite H0.
Qed.

(** X6: the mesh of a slot is the asset that arrived last for it, placed in
    the frame; the order in which the loads were issued plays no part (and
    without an arrival the mesh is the one the slot had).  So when the load
    of a key-down arrives after the load of the key-up that followed it, the
    slot ends with its [on] variant while the key is up. *)
Theorem last_arrival_wins config s0 tr s code sc offset :
  reachable config s0 ->
  _globalScale s0 = Some sc -> _globalOffset s0 = Some offset ->
  run s0 tr = Some s ->
  slot_mesh s code
  = match latest (arrivals s code tr) with
    | Some (id, g) =>
        Some (placed id g (modelRotation s0) sc offset (enabledShadow s0))
    | None => slot_mesh s0 code
    end.
Proof.
  revert s0. induction tr as [|e tr IH]; intros s0 Hr Hsc Hoff; cbn [run].
  - intros [= <-]. reflexivity.
  - destruct (step s0 e) as [s1|] eqn:E; [|discriminate]. intros Hrun.
    pose proof (reachable_Inv _ _ Hr) as H.
    assert (Hr1 : reachable config s1) by (eapply reach_step; eauto).
    assert (Hn0 : ~ In 0 (pending s0)).
    { intros Hp. rewrite (inv_base_pending s0 H Hp) in Hoff. discriminate. }
    destruct (step_frame_kept s0 e s1 H E Hn0) as [Hsc1 Hoff1].
    rewrite Hsc in Hsc1. rewrite Hoff in Hoff1.
    destruct (step_same_settings s0 e s1 H E) as (Hrot & Hsh & _).
    rewrite (IH s1 Hr1 Hsc1 Hoff1 Hrun), Hrot, Hsh.
    change (arrivals s code (e :: tr))
      with (match e with
            | LoadOk id g => if key_request s code id then [(id, g)] else []
            | _ => []
            end ++ arrivals s code tr).
    rewrite latest_app.
    destruct (latest (arrivals s code tr)) as [[id g]|]; [reflexivity|].
    rewrite (step_slot_mesh s0 e s1 code sc offset H Hsc Hoff E).
    destruct e as [id g| | | |]; try reflexivity.
    assert (Hk : key_request s code id = key_request s0 code id).
    { apply (run_key_request config s0 (LoadOk id g :: tr) s); auto.
      - cbn [run]. now rewrite E.
      - apply step_LoadOk in E. destruct E as (r & Hin & _).
        now apply (inv_pending_lt s0 H). }
    rewrite Hk. now destruct (key_request s0 code id).
Qed.

Lemma last_arrival_wins_witness :
  reachable car_config both_loaded /\
  _globalScale both_loaded
  = Some (frame_scale (base_model car_config box_asset)) /\
  _globalOffset both_loaded
  = Some (frame_offset (base_model car_config box_asset)) /\
  run both_loaded late_on_events
  = Some (after car_config
            ([LoadOk 0 box_asset; LoadOk 1 box_asset] ++ late_on_events)) /\
  slot_pressed
    (after car_config
       ([LoadOk 0 box_asset; LoadOk 1 box_asset] ++ late_on_events))
    "Digit1" = Some false /\
  slot_mesh
    (after car_config
       ([LoadOk 0 box_asset; LoadOk 1 box_asset] ++ late_on_events))
    "Digit1"
  = Some (placed 3 box_asset Vector3.zero
            (frame_scale (base_model car_config box_asset))
            (frame_offset (base_model car_config box_asset)) false) /\
  option_map url
    (nth_error
       (requests
          (after car_config
             ([LoadOk 0 box_asset; LoadOk 1 box_asset] ++ late_on_events))) 3)
  = Some (Some "light_on.glb"%string).
Proof.
  assert (H1 : reachable car_config both_loaded)
    by (apply after_reachable; vm_compute; discriminate).
  assert (H2 : _globalScale both_loaded
               = Some (frame_scale (base_model car_config box_asset)))
    by (vm_compute; reflexivity).
  assert (H3 : _globalOffset both_loaded
               = Some (frame_offset (base_model car_config box_asset)))
    by (vm_compute; reflexivity).
  assert (H4 : run both_loaded late_on_events
               = Some (after car_config
                         ([LoadOk 0 box_asset; LoadOk 1 box_asset]
                          ++ late_on_events)))
    by (vm_compute; reflexivity).
  split; [exact H1|]. split; [exact H2|]. split; [exact H3|].
  split; [exact H4|]. split; [vm_compute; reflexivity|].
  split; [|vm_compute; reflexivity].
  exact (last_arrival_wins car_config both_loaded late_on_events _ "Digit1"
           _ _ H1 H2 H3 H4).
Defined.

(** ** Models of [loadModels] stay in the scene *)

Lemma step_model_stays s e s' o :
  Inv s -> step s e = Some s' ->
  In o (scene s) -> model_request s (uid o) = true -> In o (scene s').
Proof.
  intros H Hstep Hin Hm.
  step_cases H Hstep; subst s'; try rewrite E0;
    try (destruct (cb r)); projs; rewrite ?in_app_iff; auto.
  (* a key model arrives *)
  left. destruct (mesh km) as [prev|] eqn:Hprev; auto.
  apply remove_child_keep; auto. intros Eu.
  destruct (inv_mesh_in s H code prev) as [_ Hk].
  { unfold slot_mesh. now rewrite H0. }
  rewrite <- Eu in Hk. apply key_request_model in Hk. congruence.
Qed.

(** X7: a model of [loadModels] that is in the scene stays in the scene,
    whatever happens next: [scene.remove] only ever takes the mesh of a key
    slot. *)
Theorem models_stay config s0 tr s o :
  reachable config s0 -> run s0 tr = Some s ->
  In o (scene s0) -> model_request s0 (uid o) = true ->
  In o (scene s) /\ model_request s (uid o) = true.
Proof.
  revert s0. induction tr as [|e tr IH]; intros s0 Hr; cbn [run].
  - intros [= <-]. auto.
  - destruct (step s0 e) as [s1|] eqn:E; [|discriminate]. intros Hrun Hin Hm.
    pose proof (reachable_Inv _ _ Hr) as H.
    apply (IH s1); auto.
    + eapply reach_step; eauto.
    + eapply step_model_stays; eauto.
    + destruct (step_requests s0 e s1 H E) as [rs Hrs].
      rewrite (model_request_old s0 s1 rs (uid o) Hrs); auto.
      apply (inv_scene s0 H o Hin).
Qed.

Lemma models_stay_witness :
  reachable car_config both_loaded /\
  run both_loaded reversed_events = Some reversed_done /\
  In (placed 0 box_asset Vector3.zero
        (frame_scale (base_model car_config box_asset))
        (frame_offset (base_model car_config box_asset)) false)
     (scene both_loaded) /\
  model_request both_loaded 0 = true /\
  In (placed 0 box_asset Vector3.zero
        (frame_scale (base_model car_config box_asset))
        (frame_offset (base_model car_config box_asset)) false)
     (scene reversed_done) /\
  model_request reversed_done 0 = true.
Proof.
  assert (H1 : reachable car_config both_loaded)
    by (apply after_reachable; vm_compute; discriminate).
  assert (H2 : run both_loaded reversed_events = Some reversed_done)
    by (vm_compute; reflexivity).
  assert (H3 : In (placed 0 box_asset Vector3.zero
                     (frame_scale (base_model car_config box_asset))
                     (frame_offset (base_model car_config box_asset)) false)
                  (scene both_loaded))
    by (vm_compute; left; reflexivity).
  assert (H4 : model_request both_loaded 0 = true) by (vm_compute; reflexivity).
  split; [exact H1|]. split; [exact H2|]. split; [exact H3|].
  split; [exact H4|].
  exact (models_stay car_config both_loaded reversed_events reversed_done _
           H1 H2 H3 H4).
Defined.

(** ** Keys without a configuration *)

(** X8: a key without an entry in [config.keyModels] is ignored, when its
    code is not the name of a property of [Object.prototype] (the codes of
    the physical keys are not).  In every state of a session its key-down
    and its key-up leave the state as it is, and no load was ever issued for
    it.  (For a code such as ['constructor'] the listeners find the
    inherited value in [this.keyModels]; the statement leaves these codes
    out.) *)
Theorem unconfigured_key_ignored config s code :
  reachable config s -> inherited code = false ->
  configured config code = None ->
  step s (KeyDown code) = Some s /\ step s (KeyUp code) = Some s /\
  forall id, key_request s code id = false.
Proof.
  intros Hr _ Hc. pose proof (reachable_Inv _ _ Hr) as H.
  destruct (reachable_settings config s Hr) as (_ & _ & _ & _ & _ & Hk).
  destruct (init_fields config)
    as (_ & _ & _ & _ & _ & _ & _ & _ & _ & _ & _ & Hkc & _).
  cbv zeta in Hkc.
  assert (Hg : get (keyModels s) code = None).
  { pose proof (inv_slots s H code) as Hs. rewrite Hk, Hkc in Hs.
    unfold configured in Hc.
    destruct (cfg_keyModels config) as [k|];
      [rewrite Hc in Hs|cbn in Hs];
      now destruct (get (keyModels s) code). }
  split; [|split].
  - cbn [step]. unfold keydown. now rewrite Hg.
  - cbn [step]. unfold keyup. now rewrite Hg.
  - intros id. destruct (key_request s code id) eqn:Ek; auto.
    apply key_request_inv in Ek. destruct Ek as (p0 & p & Hn).
    destruct (inv_key_req s H id _ code p Hn eq_refl) as [km Hkm]. congruence.
Qed.

Lemma unconfigured_key_ignored_witness :
  reachable car_config both_loaded /\
  inherited "KeyA" = false /\
  configured car_config "KeyA" = None /\
  step both_loaded (KeyDown "KeyA") = Some both_loaded /\
  step both_loaded (KeyUp "KeyA") = Some both_loaded /\
  forall id, key_request both_loaded "KeyA" id = false.
Proof.
  assert (H1 : reachable car_config both_loaded)
    by (apply after_reachable; vm_compute; discriminate).
  assert (H2 : inherited "KeyA" = false) by reflexivity.
  assert (H3 : configured car_config "KeyA" = None) by reflexivity.
  split; [exact H1|]. split; [exact H2|]. split; [exact H3|].
  exact (unconfigured_key_ignored car_config both_loaded "KeyA" H1 H2 H3).
Defined.

(** ** What the scene holds *)

Lemma step_placed_asset s e s' :
  Inv s -> step s e = Some s' ->
  (forall o, In o (scene s) -> placed_asset s o) ->
  forall o, In o (scene s') -> placed_asset s' o.
Proof.
  intros H Hstep IH o. unfold placed_asset in *.
  step_cases H Hstep; subst s'; try rewrite E0;
    try (destruct (cb r)); projs; rewrite ?in_app_iff; auto.
  - (* the base model *)
    destruct (inv_noframe s H H1) as (Hnil & _). rewrite Hnil.
    intros [[]|[<-|[]]]. exists g. do 2 eexists. repeat split.
  - intros [Ho|[<-|[]]]; [auto|]. exists g, sc, offset. auto.
  - intros [Ho|[<-|[]]].
    + apply IH. destruct (mesh km); eauto using remove_child_incl.
    + exists g, sc, offset. auto.
Qed.

(** X9: every object of the scene is the scene of a delivered asset with the
    rotation of the configuration ([0, 0, 0] when none is given), the scale
    and the offset of the frame; each of its meshes carries
    [config.enabledShadow] in both shadow flags and its other nodes are as
    the asset has them. *)
Theorem scene_holds_placed_assets config s o :
  reachable config s -> In o (scene s) ->
  exists g sc offset,
    frame s = (Some sc, Some offset) /\
    o = placed (uid o) g
          (match cfg_modelRotation config with
           | Some r => r
           | None => Vector3.zero
           end)
          sc offset (cfg_enabledShadow config) /\
    nodes o
    = map (fun n =>
             if isMesh n
             then mkNode true (cfg_enabledShadow config)
                    (cfg_enabledShadow config)
             else n)
          (gltf_nodes g).
Proof.
  intros Hr Hin.
  assert (Hp : forall o, In o (scene s) -> placed_asset s o).
  { clear o Hin. induction Hr as [|s e s' Hr IH Hstep].
    - destruct (init_fields config) as (_ & _ & _ & _ & Hs & _).
      cbv zeta in Hs. rewrite Hs. intros o [].
    - eapply step_placed_asset; eauto using reachable_Inv. }
  destruct (Hp o Hin) as (g & sc & offset & Hsc & Hoff & Ho).
  destruct (reachable_settings config s Hr) as (Hrot & Hsh & _).
  assert (Hrot0 : modelRotation (init config)
                  = match cfg_modelRotation config with
                    | Some r => r
                    | None => Vector3.zero
                    end).
  { unfold init, animate. cbv zeta.
    match goal with |- context [_setupKeyModels ?s0] =>
      destruct (_setupKeyModels_spec s0 eq_refl) as [H1 _]; revert H1;
      generalize (keyModels (_setupKeyModels s0)) as kms
    end.
    intros kms ->. cbn. now destruct (cfg_autoRotate config). }
  assert (Hsh0 : enabledShadow (init config) = cfg_enabledShadow config).
  { unfold init, animate. cbv zeta.
    match goal with |- context [_setupKeyModels ?s0] =>
      destruct (_setupKeyModels_spec s0 eq_refl) as [H1 _]; revert H1;
      generalize (keyModels (_setupKeyModels s0)) as kms
    end.
    intros kms ->. cbn. now destruct (cfg_autoRotate config). }
  rewrite Hrot, Hrot0, Hsh, Hsh0 in Ho.
  exists g, sc, offset. unfold frame. rewrite Hsc, Hoff.
  split; [reflexivity|]. split; [exact Ho|].
  rewrite Ho. unfold placed, traverse. cbn [nodes set_nodes set_position set_scale set_rotation gltf_scene].
  apply map_ext. intros n. unfold shadow_flags. now destruct (isMesh n) eqn:E.
Qed.

Lemma scene_holds_placed_assets_witness :
  reachable car_config both_loaded /\
  In (placed 1 box_asset Vector3.zero
        (frame_scale (base_model car_config box_asset))
        (frame_offset (base_model car_config box_asset)) false)
     (scene both_loaded) /\
  exists g sc offset,
    frame both_loaded = (Some sc, Some offset) /\
    placed 1 box_asset Vector3.zero
      (frame_scale (base_model car_config box_asset))
      (frame_offset (base_model car_config box_asset)) false
    = placed 1 g Vector3.zero sc offset false /\
    [mkNode true false false]
    = map (fun n => if isMesh n then mkNode true false false else n)
        (gltf_nodes g).
Proof.
  assert (H1 : reachable car_config both_loaded)
    by (apply after_reachable; vm_compute; discriminate).
  assert (H2 : In (placed 1 box_asset Vector3.zero
                     (frame_scale (base_model car_config box_asset))
                     (frame_offset (base_model car_config box_asset)) false)
                  (scene both_loaded))
    by (vm_compute; right; left; reflexivity).
  split; [exact H1|]. split; [exact H2|].
  exact (scene_holds_placed_assets car_config both_loaded _ H1 H2).
Defined.

(** ** What the overlay shows *)

Lemma reachable_text config s :
  reachable config s ->
  loadingText s = option_map progress_text (progress_width s).
Proof.
  induction 1 as [|s e s' Hr IH Hstep].
  - destruct (init_fields config)
      as (_ & _ & _ & _ & _ & _ & _ & Hw & Ht & _).
    cbv zeta in Hw, Ht. now rewrite Hw, Ht.
  - pose proof (reachable_Inv _ _ Hr) as H.
    step_cases H Hstep; subst s'; try rewrite E0;
      try (destruct (cb r)); projs; auto.
Qed.

Lemma geb_of_Z a b : geb (of_Z a) (of_Z b) = (b <=? a)%Z.
Proof.
  unfold geb, of_Z, ltb, Qccompare. rewrite !this_qz.
  unfold Qcompare, inject_Z. cbn [Qnum Qden]. rewrite !Z.mul_1_r.
  rewrite Z.leb_antisym, Z.ltb_compare.
  now destruct (a ?= b)%Z.
Qed.

(** X10: what the overlay shows when at least one path is configured.  Until
    a model is counted neither the bar nor the text is written.  From then
    on the width is a whole percentage between 0 and 100, it is 100 when all
    the models are counted, and the text is ['Finalizing...'] exactly when
    the percentage is 100 and ['Loading p%'] with the same percentage
    otherwise. *)
Theorem progress_display config s :
  reachable config s -> 1 <= total s ->
  match progress_width s with
  | None => loaded s = 0 /\ loadingText s = None
  | Some w =>
      exists z,
        w = of_Z z /\ (0 <= z <= 100)%Z /\
        (loaded s = total s -> z = 100%Z) /\
        loadingText s
        = Some (if (z =? 100)%Z then Finalizing else Loading w)
  end.
Proof.
  intros Hr Hn. pose proof (reachable_Inv _ _ Hr) as H.
  rewrite (reachable_text config s Hr).
  destruct (progress_width s) as [w|] eqn:Hw; cbn [option_map].
  - assert (Hl : 1 <= loaded s).
    { destruct (loaded s) eqn:E; [|lia].
      rewrite (inv_idle s H E) in Hw. discriminate. }
    destruct (inv_progress s H Hl) as (_ & Hp & _).
    rewrite Hw in Hp. injection Hp as ->.
    pose proof (inv_count s H) as Hc.
    assert (Hle : loaded s <= total s) by lia.
    destruct (percent_steps (loaded s) (loaded s) (total s)
                (Nat.le_refl _) Hle Hn) as (z & z' & Ez & Ez' & A & B & C).
    rewrite Ez in Ez'. apply of_Z_inj in Ez'. subst z'.
    exists z. rewrite Ez.
    split; [reflexivity|]. split; [lia|]. split.
    + intros El. rewrite El, (percent_full _ Hn) in Ez.
      symmetry. now apply of_Z_inj.
    + unfold progress_text. rewrite geb_of_Z. f_equal.
      destruct (Z.leb_spec 100 z); destruct (Z.eqb_spec z 100);
        try reflexivity; lia.
  - split; [|reflexivity].
    destruct (loaded s) eqn:E; [reflexivity|].
    destruct (inv_progress s H) as (_ & Hp & _); [lia|]. congruence.
Qed.

Lemma progress_display_witness :
  reachable truck_config cab_loaded /\
  1 <= total cab_loaded /\
  exists z,
    Fin (Q2Qc 33) = of_Z z /\ (0 <= z <= 100)%Z /\
    (1 = 3 -> z = 100%Z) /\
    Some (Loading (Fin (Q2Qc 33)))
    = Some (if (z =? 100)%Z then Finalizing else Loading (Fin (Q2Qc 33))).
Proof.
  assert (H1 : reachable truck_config cab_loaded)
    by (apply after_reachable; vm_compute; discriminate).
  assert (H2 : 1 <= total cab_loaded) by (vm_compute; lia).
  split; [exact H1|]. split; [exact H2|].
  exact (progress_display truck_config cab_loaded H1 H2).
Defined.

(** ** An empty array of paths *)

Lemma percent_one_zero : percent 1 0 = PInf.
Proof. vm_compute. reflexivity. Qed.

(** X11: an empty array of paths.  With [modelPaths: []] the class requests
    [undefined]; the overlay is never hidden; at most one model is counted,
    and when it is the count is 1 of 0: the width is [Infinity%] and the text
    ['Finalizing...']. *)
Theorem empty_model_paths config s :
  reachable config s -> cfg_modelPaths config = Some [] ->
  nth_error (requests s) 0 = Some (mkRequest None CbBase) /\
  loadingScreen_hidden s = false /\
  loaded s <= 1 /\
  (1 <= loaded s ->
   progress_width s = Some PInf /\ loadingText s = Some Finalizing).
Proof.
  intros Hr Hc. pose proof (reachable_Inv _ _ Hr) as H.
  destruct (reachable_settings config s Hr) as (_ & _ & _ & _ & Hmp & _).
  destruct (init_fields config)
    as (_ & _ & _ & _ & _ & _ & _ & _ & _ & _ & _ & _ & Hmp0 & _).
  cbv zeta in Hmp0. rewrite Hc in Hmp0. rewrite Hmp0 in Hmp.
  assert (Ht : total s = 0) by (unfold total; now rewrite Hmp).
  split; [|split; [|split]].
  - rewrite (inv_req0 s H), Hmp. reflexivity.
  - destruct (loadingScreen_hidden s) eqn:Eh; [|reflexivity].
    destruct (inv_hidden s H Eh). lia.
  - pose proof (inv_count s H) as Hcount. rewrite Ht in Hcount.
    cbn in Hcount. lia.
  - intros Hl. pose proof (inv_count s H) as Hcount. rewrite Ht in Hcount.
    cbn in Hcount. assert (El : loaded s = 1) by lia.
    destruct (inv_progress s H Hl) as (_ & Hp & _).
    rewrite Ht, El, percent_one_zero in Hp.
    rewrite (reachable_text config s Hr), Hp. split; reflexivity.
Qed.

Lemma empty_model_paths_witness :
  reachable empty_config (after empty_config [LoadOk 0 box_asset]) /\
  cfg_modelPaths empty_config = Some [] /\
  nth_error (requests (after empty_config [LoadOk 0 box_asset])) 0
  = Some (mkRequest None CbBase) /\
  loadingScreen_hidden (after empty_config [LoadOk 0 box_asset]) = false /\
  loaded (after empty_config [LoadOk 0 box_asset]) <= 1 /\
  (1 <= loaded (after empty_config [LoadOk 0 box_asset]) ->
   progress_width (after empty_config [LoadOk 0 box_asset]) = Some PInf /\
   loadingText (after empty_config [LoadOk 0 box_asset]) = Some Finalizing).
Proof.
  assert (H1 : reachable empty_config (after empty_config [LoadOk 0 box_asset]))
    by (apply after_reachable; vm_compute; discriminate).
  assert (H2 : cfg_modelPaths empty_config = Some []) by reflexivity.
  split; [exact H1|]. split; [exact H2|].
  exact (empty_model_paths empty_config _ H1 H2).
Defined.

(** ** A model of [loadModels] that fails *)

Lemma step_loader s e s' :
  Inv s -> step s e = Some s' ->
  exists rs,
    requests s' = requests s ++ rs /\
    pending s'
    = match e with
      | LoadOk id _ | LoadErr id => List.remove Nat.eq_dec id (pending s)
      | _ => pending s
      end ++ seq (List.length (requests s)) (List.length rs) /\
    List.length (filter is_model rs)
    = if base_delivered e then total s - 1 else 0.
Proof.
  intros H Hstep.
  step_cases H Hstep; subst s'; try rewrite E0;
    try (destruct (cb r)); projs.
  - (* the base model *)
    subst id. cbn [base_delivered].
    exists ((if S (loaded s) =? total s then key_requests s else [])
            ++ secondary_requests s).
    rewrite <- !app_assoc, (length_app (requests s)), <- seq_app, <- length_app.
    split; [reflexivity|]. split; [reflexivity|].
    rewrite filter_app, length_app, secondary_requests_length.
    destruct (S (loaded s) =? total s);
      [rewrite key_requests_not_model|]; reflexivity.
  - assert (Hb : base_delivered (LoadOk id g) = false).
    { destruct id; [|reflexivity]. exfalso.
      rewrite (inv_req0 s H) in Hn. discriminate. }
    rewrite Hb. destruct (S (loaded s) =? total s).
    + exists (key_requests s). repeat split.
      now rewrite key_requests_not_model.
    + exists []. now rewrite !app_nil_r.
  - assert (Hb : base_delivered (LoadOk id g) = false).
    { destruct id; [|reflexivity]. exfalso.
      rewrite (inv_req0 s H) in Hn. discriminate. }
    rewrite Hb. exists []. now rewrite !app_nil_r.
  - assert (Hb : base_delivered (LoadOk id g) = false).
    { destruct id; [|reflexivity]. exfalso.
      rewrite (inv_req0 s H) in Hn. discriminate. }
    rewrite Hb. exists []. now rewrite !app_nil_r.
  - exists []. now rewrite !app_nil_r.
  - exists []. now rewrite !app_nil_r.
  - exists []. now rewrite !app_nil_r.
  - exists []. now rewrite !app_nil_r.
  - eexists. repeat split.
  - exists []. now rewrite !app_nil_r.
  - eexists. repeat split.
  - exists []. now rewrite !app_nil_r.
  - exists []. now rewrite !app_nil_r.
Qed.

Lemma step_outstanding s e s' :
  Inv s -> step s e = Some s' ->
  loaded s' + List.length (model_pending s')
  + match e with
    | LoadErr id => if model_request s id then 1 else 0
    | _ => 0
    end
  = loaded s + List.length (model_pending s)
    + (if base_delivered e then total s - 1 else 0).
Proof.
  intros H Hstep.
  destruct (step_loader s e s' H Hstep) as (rs & Hrs & Hps & Hmod).
  rewrite (step_loaded s e s' H Hstep).
  assert (Hmp : forall l,
             (forall x, In x l -> In x (pending s)) ->
             pending s' = l ++ seq (List.length (requests s)) (List.length rs) ->
             List.length (model_pending s')
             = List.length (filter (model_request s) l)
               + (if base_delivered e then total s - 1 else 0)).
  { intros l Hl Hp. unfold model_pending. rewrite Hp, filter_app, length_app.
    f_equal.
    - apply filter_ext_In_length. intros x Hx.
      apply (model_request_old s s' rs x Hrs).
      apply (inv_pending_lt s H). auto.
    - unfold model_request. rewrite Hrs, filter_new_requests. exact Hmod. }
  pose proof (inv_pending_nodup s H) as Hnd.
  destruct e as [id g|id|code|code|d].
  - apply step_LoadOk in Hstep. destruct Hstep as (r & Hin & _).
    rewrite (Hmp _ (fun x Hx => proj1 (in_remove _ _ _ _ Hx)) Hps).
    pose proof (filter_remove_length (model_request s) id _ Hnd Hin).
    unfold model_pending. destruct (model_request s id); lia.
  - apply step_LoadErr in Hstep. destruct Hstep as (r & Hin & _).
    rewrite (Hmp _ (fun x Hx => proj1 (in_remove _ _ _ _ Hx)) Hps).
    pose proof (filter_remove_length (model_request s) id _ Hnd Hin).
    unfold model_pending. cbn [base_delivered].
    destruct (model_request s id); lia.
  - rewrite (Hmp _ (fun x Hx => Hx) Hps). unfold model_pending.
    cbn [base_delivered]. lia.
  - rewrite (Hmp _ (fun x Hx => Hx) Hps). unfold model_pending.
    cbn [base_delivered]. lia.
  - rewrite (Hmp _ (fun x Hx => Hx) Hps). unfold model_pending.
    cbn [base_delivered]. lia.
Qed.

Lemma settled_not_delivered s e s' :
  step s e = Some s' -> ~ In 0 (pending s) -> base_delivered e = false.
Proof.
  intros Hstep Hn0. destruct e as [[|id] g| | | |]; auto. exfalso.
  apply step_LoadOk in Hstep. destruct Hstep as (_ & Hin & _). tauto.
Qed.

Lemma run_outstanding config s0 tr s :
  reachable config s0 -> ~ In 0 (pending s0) -> run s0 tr = Some s ->
  loaded s + List.length (model_pending s)
  <= loaded s0 + List.length (model_pending s0).
Proof.
  revert s0. induction tr as [|e tr IH]; intros s0 Hr Hn0; cbn [run].
  - intros [= <-]. lia.
  - destruct (step s0 e) as [s1|] eqn:E; [|discriminate]. intros Hrun.
    pose proof (reachable_Inv _ _ Hr) as H.
    pose proof (step_outstanding s0 e s1 H E) as H1.
    rewrite (settled_not_delivered s0 e s1 E Hn0) in H1.
    pose proof (IH s1 (reach_step _ _ _ _ Hr E)
                  (step_base_settled s0 e s1 H E Hn0) Hrun) as H2.
    lia.
Qed.

(** X12: if a load of [loadModels] fails, that of the base model or of any
    other path, then at every later moment the count is below the number of
    paths and the overlay is not hidden. *)
Theorem model_failure_stalls config tr s id :
  run (init config) tr = Some s ->
  In (LoadErr id) tr -> model_request s id = true ->
  loadingScreen_hidden s = false /\
  loaded s < Nat.max 1 (total s) /\
  (1 <= total s -> loaded s < total s).
Proof.
  intros Hrun Hin Hm.
  apply in_split in Hin. destruct Hin as (tr1 & tr2 & ->).
  rewrite run_app in Hrun.
  destruct (run (init config) tr1) as [s1|] eqn:E1; [|discriminate].
  cbn [run] in Hrun.
  destruct (step s1 (LoadErr id)) as [s2|] eqn:E2; [|discriminate].
  assert (Hr1 : reachable config s1)
    by (eapply run_reachable; [apply reach_init|exact E1]).
  assert (Hr2 : reachable config s2) by (eapply reach_step; eauto).
  assert (Hr : reachable config s) by (eapply run_reachable; eauto).
  pose proof (reachable_Inv _ _ Hr1) as H1.
  pose proof (reachable_Inv _ _ Hr) as H.
  pose proof E2 as E2'. apply step_LoadErr in E2'.
  destruct E2' as (r & Hp & Hn & Es2).
  assert (Hm1 : model_request s1 id = true).
  { rewrite <- Hm. symmetry.
    destruct (run_requests config s1 (LoadErr id :: tr2) s Hr1) as [rs Hrs].
    - cbn [run]. now rewrite E2.
    - apply (model_request_old s1 s rs id Hrs).
      now apply (inv_pending_lt s1 H1). }
  assert (Hn0 : ~ In 0 (pending s2)).
  { destruct (Nat.eq_dec id 0) as [->|Hne].
    - rewrite Es2. destruct (cb r); projs; apply remove_In.
    - assert (Ho : _globalOffset s1 <> None).
      { intros Ho. destruct (inv_noframe s1 H1 Ho) as (_ & _ & Hsec).
        unfold model_request in Hm1. rewrite Hn in Hm1.
        destruct r as [p0 [|i|c p]]; try discriminate.
        - apply Hne. apply (inv_base_unique s1 H1 id _ Hn eq_refl).
        - apply (Hsec _ i (nth_error_In _ _ Hn)). reflexivity. }
      apply (step_base_settled s1 _ s2 H1 E2).
      intros Hp0. apply Ho. now apply (inv_base_pending s1 H1). }
  assert (Hout : loaded s + List.length (model_pending s) + 1
                 <= Nat.max 1 (total s1)).
  { pose proof (run_outstanding config s2 tr2 s Hr2 Hn0 Hrun) as A.
    pose proof (inv_count s1 H1) as B.
    pose proof (step_outstanding s1 _ s2 H1 E2) as C.
    cbn [base_delivered] in C. rewrite Hm1 in C. lia. }
  destruct (reachable_settings config s1 Hr1) as (_ & _ & _ & _ & Hmp1 & _).
  destruct (reachable_settings config s Hr) as (_ & _ & _ & _ & Hmp & _).
  assert (Et : total s1 = total s) by (unfold total; now rewrite Hmp1, Hmp).
  rewrite Et in Hout.
  split; [|split; lia].
  destruct (loadingScreen_hidden s) eqn:Eh; [|reflexivity].
  destruct (inv_hidden s H Eh). lia.
Qed.

Lemma model_failure_stalls_witness :
  run (init car_config) [LoadOk 0 box_asset; LoadErr 1; Frame (of_Z 1)]
  = Some (after car_config [LoadOk 0 box_asset; LoadErr 1; Frame (of_Z 1)]) /\
  In (LoadErr 1) [LoadOk 0 box_asset; LoadErr 1; Frame (of_Z 1)] /\
  model_request
    (after car_config [LoadOk 0 box_asset; LoadErr 1; Frame (of_Z 1)]) 1
  = true /\
  loadingScreen_hidden
    (after car_config [LoadOk 0 box_asset; LoadErr 1; Frame (of_Z 1)])
  = false /\
  loaded (after car_config [LoadOk 0 box_asset; LoadErr 1; Frame (of_Z 1)])
  < Nat.max 1
      (total (after car_config [LoadOk 0 box_asset; LoadErr 1; Frame (of_Z 1)])) /\
  (1 <= total (after car_config [LoadOk 0 box_asset; LoadErr 1; Frame (of_Z 1)]) ->
   loaded (after car_config [LoadOk 0 box_asset; LoadErr 1; Frame (of_Z 1)])
   < total (after car_config [LoadOk 0 box_asset; LoadErr 1; Frame (of_Z 1)])).
Proof.
  assert (H1 : run (init car_config)
                 [LoadOk 0 box_asset; LoadErr 1; Frame (of_Z 1)]
               = Some (after car_config
                         [LoadOk 0 box_asset; LoadErr 1; Frame (of_Z 1)]))
    by (apply run_after; vm_compute; discriminate).
  assert (H2 : In (LoadErr 1) [LoadOk 0 box_asset; LoadErr 1; Frame (of_Z 1)])
    by (right; left; reflexivity).
  assert (H3 : model_request
                 (after car_config
                    [LoadOk 0 box_asset; LoadErr 1; Frame (of_Z 1)]) 1 = true)
    by (vm_compute; reflexivity).
  split; [exact H1|]. split; [exact H2|]. split; [exact H3|].
  exact (model_failure_stalls car_config _ _ 1 H1 H2 H3).
Defined.

(** ** The slots and the configuration *)

Lemma get_In {V : Type} (o : JSObject V) k v :
  NoDup (map fst o) -> In (k, v) o -> get o k = Some v.
Proof.
  induction o as [|[k' v'] o IH]; cbn [map fst get]; [intros _ []|].
  intros Hnd Hin. apply NoDup_cons_iff in Hnd. destruct Hnd as [Hk Hnd].
  destruct Hin as [Hin|Hin].
  - injection Hin as -> ->. now rewrite String.eqb_refl.
  - destruct (String.eqb k' k) eqn:E; [|auto].
    apply String.eqb_eq in E. subst k'. exfalso. apply Hk.
    apply in_map_iff. exists (k, v). auto.
Qed.

Lemma get_None_keys {V : Type} (o : JSObject V) k :
  ~ In k (map fst o) -> get o k = None.
Proof.
  induction o as [|[k' v'] o IH]; cbn [map fst get]; auto.
  intros Hk. cbn in Hk. destruct (String.eqb k' k) eqn:E.
  - apply String.eqb_eq in E. tauto.
  - apply IH. tauto.
Qed.

Lemma put_new {V : Type} (o : JSObject V) k v :
  get o k = None -> put o k v = o ++ [(k, v)].
Proof.
  induction o as [|[k' v'] o IH]; cbn [get put app]; auto.
  destruct (String.eqb k' k); [discriminate|].
  intros H. now rewrite IH.
Qed.

Lemma put_old {V W : Type} (f : V -> W) (o : JSObject V) k v v0 :
  get o k = Some v0 -> f v = f v0 ->
  map (fun kv => (fst kv, f (snd kv))) (put o k v)
  = map (fun kv => (fst kv, f (snd kv))) o.
Proof.
  induction o as [|[k' v'] o IH]; cbn [get put]; [discriminate|].
  destruct (String.eqb k' k).
  - intros [= ->] Hf. cbn. now rewrite Hf.
  - intros Hg Hf. cbn. now rewrite IH.
Qed.

Lemma _setupKeyModels_order (done todo : JSObject KeyPaths) (s : State) :
  NoDup (map fst (done ++ todo)) ->
  keyModelsConfig s = done ++ todo ->
  keyModels s = map (fun kv => (fst kv, mkKeySlot (snd kv) None false)) done ->
  keyModels
    (fold_left
       (fun st code =>
          match get (keyModelsConfig st) code with
          | Some p =>
              set_keyModels st (put (keyModels st) code (mkKeySlot p None false))
          | None => st
          end) (map fst todo) s)
  = map (fun kv => (fst kv, mkKeySlot (snd kv) None false)) (done ++ todo).
Proof.
  revert done s. induction todo as [|[c p] todo IH]; intros done s Hnd Hc Hk.
  - cbn. now rewrite app_nil_r.
  - cbn [map fst fold_left].
    assert (Hg : get (keyModelsConfig s) c = Some p).
    { rewrite Hc. apply get_In; auto. apply in_app_iff. right. now left. }
    rewrite Hg.
    replace (done ++ (c, p) :: todo) with ((done ++ [(c, p)]) ++ todo) in *
      by now rewrite <- app_assoc.
    apply IH; auto.
    cbn [keyModels set_keyModels]. rewrite Hk, map_app. cbn [map fst snd].
    apply put_new. apply get_None_keys.
    rewrite map_map. cbn [fst].
    rewrite !map_app in Hnd. rewrite <- app_assoc in Hnd.
    apply NoDup_remove_2 in Hnd. rewrite in_app_iff in Hnd.
    change (map (fun x : string * KeyPaths => fst x) done) with (map fst done).
    tauto.
Qed.

Lemma init_keyModels config :
  NoDup (map fst (key_config config)) ->
  keyModels (init config)
  = map (fun kv => (fst kv, mkKeySlot (snd kv) None false)) (key_config config).
Proof.
  intros Hnd. unfold init, animate. cbv zeta.
  match goal with |- context [_setupKeyModels ?s0] =>
    assert (E : keyModels (_setupKeyModels s0)
                = map (fun kv => (fst kv, mkKeySlot (snd kv) None false))
                    (key_config config));
    [|revert E; generalize (_setupKeyModels s0) as st]
  end.
  - unfold _setupKeyModels. apply (_setupKeyModels_order []); auto.
  - intros st E. cbn. now destruct (autoRotate st).
Qed.

Lemma step_slot_paths s e s' :
  Inv s -> step s e = Some s' -> slot_paths s' = slot_paths s.
Proof.
  intros H Hstep. unfold slot_paths.
  step_cases H Hstep; subst s'; try rewrite E0;
    try (destruct (cb r)); projs; auto;
    eapply (put_old paths); eauto.
Qed.

Lemma reachable_slot_paths config s :
  NoDup (map fst (key_config config)) ->
  reachable config s -> slot_paths s = key_config config.
Proof.
  intros Hnd. induction 1 as [|s e s' Hr IH Hstep].
  - unfold slot_paths. rewrite (init_keyModels config Hnd), map_map. cbn.
    rewrite <- (map_id (key_config config)) at 2. apply map_ext. now intros [].
  - rewrite <- IH. eapply step_slot_paths; eauto using reachable_Inv.
Qed.

Lemma key_requests_slot_paths s :
  NoDup (map fst (keyModels s)) ->
  key_requests s = map initial_load (slot_paths s).
Proof.
  unfold key_requests, slot_paths. intros Hnd. rewrite map_map.
  assert (Hg : forall kv, In kv (keyModels s) ->
                          get (keyModels s) (fst kv) = Some (snd kv)).
  { intros [k v] Hin. now apply get_In. }
  revert Hg. generalize (keyModels s) at 1 4 5 as l.
  induction l as [|kv l IH]; intros Hg; [reflexivity|].
  cbn [map flat_map]. rewrite (Hg kv (or_introl eq_refl)).
  cbn [app]. f_equal. apply IH. intros kv' Hin. apply Hg. now right.
Qed.

Lemma slot_paths_keys s : map fst (slot_paths s) = map fst (keyModels s).
Proof. unfold slot_paths. now rewrite map_map. Qed.

Lemma reachable_key_requests config s :
  NoDup (map fst (key_config config)) ->
  reachable config s ->
  slot_paths s = key_config config /\
  key_requests s = map initial_load (key_config config).
Proof.
  intros Hnd Hr. pose proof (reachable_slot_paths config s Hnd Hr) as E.
  split; [exact E|].
  rewrite <- E. apply key_requests_slot_paths.
  now rewrite <- slot_paths_keys, E.
Qed.

(** X13: the slots mirror the configuration, when the configured keys are
    plain names, none of them twice ([for (code in ...)] then goes through
    them in the order of the configuration).  [_setupKeyModels] makes one
    slot per configured key, in the order of the configuration, with its
    paths, no mesh and not pressed; in every state of a session the slots are
    these keys with these paths in this order, and the loads [_initKeyModels]
    issues are the [off] load of every configured key, in this order. *)
Theorem slots_mirror_configuration config :
  NoDup (map fst (key_config config)) ->
  forallb plain_name (map fst (key_config config)) = true ->
  keyModels (init config)
  = map (fun kv => (fst kv, mkKeySlot (snd kv) None false)) (key_config config) /\
  forall s,
    reachable config s ->
    slot_paths s = key_config config /\
    key_requests s = map initial_load (key_config config).
Proof.
  intros Hnd _. split; [now apply init_keyModels|].
  intros s Hr. now apply reachable_key_requests.
Qed.

Lemma slots_mirror_configuration_witness :
  NoDup (map fst (key_config car_config)) /\
  forallb plain_name (map fst (key_config car_config)) = true /\
  keyModels (init car_config)
  = [("Digit1"%string,
      mkKeySlot (mkKeyPaths (Some "light_off.glb"%string)
                   (Some "light_on.glb"%string)) None false)] /\
  forall s,
    reachable car_config s ->
    slot_paths s = key_config car_config /\
    key_requests s = map initial_load (key_config car_config).
Proof.
  assert (H1 : NoDup (map fst (key_config car_config))).
  { vm_compute. constructor; [intros []|constructor]. }
  assert (H2 : forallb plain_name (map fst (key_config car_config)) = true)
    by reflexivity.
  split; [exact H1|]. split; [exact H2|].
  exact (slots_mirror_configuration car_config H1 H2).
Defined.

(** ** The loads of a slot *)

Lemma secondary_requests_no_key s code :
  filter (fun r => match cb r with
                   | CbKey c _ => String.eqb c code
                   | _ => false
                   end) (secondary_requests s) = [].
Proof.
  unfold secondary_requests.
  induction (seq 1 (List.length (modelPaths s) - 1)); simpl; auto.
Qed.

Lemma initial_loads_one (k : JSObject KeyPaths) code :
  NoDup (map fst k) -> In code (map fst k) ->
  List.length
    (filter (fun r => match cb r with
                      | CbKey c _ => String.eqb c code
                      | _ => false
                      end) (map initial_load k)) = 1.
Proof.
  induction k as [|[c p] k IH]; cbn [map fst]; [intros _ []|].
  intros Hnd Hin. apply NoDup_cons_iff in Hnd. destruct Hnd as [Hc Hnd].
  cbn [filter initial_load cb fst snd].
  destruct (String.eqb c code) eqn:E.
  - apply String.eqb_eq in E. subst c. cbn [List.length]. f_equal.
    rewrite filter_none; [reflexivity|].
    intros r Hr. apply in_map_iff in Hr. destruct Hr as ([c' p'] & <- & Hr).
    cbn. apply String.eqb_neq. intros ->. apply Hc.
    apply in_map_iff. exists (code, p'). auto.
  - apply IH; auto. destruct Hin as [->|Hin]; auto.
    rewrite String.eqb_refl in E. discriminate.
Qed.

Lemma step_key_loads config s e s' code b :
  NoDup (map fst (key_config config)) ->
  reachable config s -> step s e = Some s' ->
  slot_pressed s code = Some b ->
  key_loads s' code
  = key_loads s code
    + (if loadingScreen_hidden s' && negb (loadingScreen_hidden s)
       then 1 else 0)
    + edges code [e] b.
Proof.
  intros Hnd Hr Hstep Hb. pose proof (reachable_Inv _ _ Hr) as H.
  assert (Hone : List.length
                   (filter (fun r => match cb r with
                                     | CbKey c _ => String.eqb c code
                                     | _ => false
                                     end) (key_requests s)) = 1).
  { destruct (reachable_key_requests config s Hnd Hr) as [Hp ->].
    apply initial_loads_one; auto.
    rewrite <- Hp, slot_paths_keys. unfold slot_pressed in Hb.
    destruct (get (keyModels s) code) as [km|] eqn:Hg; [|discriminate].
    clear -Hg. induction (keyModels s) as [|[k v] l IH]; [discriminate|].
    cbn in *. destruct (String.eqb k code) eqn:E.
    - apply String.eqb_eq in E. auto.
    - auto. }
  assert (Hh : loadingScreen_hidden s = true -> (S (loaded s) =? total s) = false).
  { intros Hh. destruct (inv_hidden s H Hh). apply Nat.eqb_neq. lia. }
  unfold key_loads.
  step_cases H Hstep; subst s'; try rewrite E0;
    try (destruct (cb r)); projs; cbn [edges];
    rewrite ?filter_app, ?length_app, ?secondary_requests_no_key,
      ?andb_negb_r; cbn [List.length]; try lia.
  1-2: destruct (loadingScreen_hidden s) eqn:Eh;
         [rewrite (Hh eq_refl)|destruct (S (loaded s) =? total s)];
         cbn [filter List.length andb negb]; rewrite ?Hone; lia.
  - (* key down, nothing to do *)
    destruct (String.eqb code0 code) eqn:Ec; [|lia].
    apply String.eqb_eq in Ec. subst code0.
    pose proof (step_pressed s _ _ code b H Hstep Hb) as Hp.
    rewrite E0, Hb in Hp. cbn [last_key] in Hp.
    rewrite String.eqb_refl in Hp. injection Hp as ->. lia.
  - (* key down *)
    cbn [filter cb]. destruct (String.eqb code0 code) eqn:Ec; [|cbn; lia].
    apply String.eqb_eq in Ec. subst code0.
    unfold slot_pressed in Hb. rewrite H0 in Hb. cbn in Hb.
    injection Hb as <-. rewrite H1. cbn. lia.
  - (* key up, nothing to do *)
    destruct (String.eqb code0 code) eqn:Ec; [|lia].
    apply String.eqb_eq in Ec. subst code0.
    pose proof (step_pressed s _ _ code b H Hstep Hb) as Hp.
    rewrite E0, Hb in Hp. cbn [last_key] in Hp.
    rewrite String.eqb_refl in Hp. injection Hp as ->. lia.
  - (* key up *)
    cbn [filter cb]. destruct (String.eqb code0 code) eqn:Ec; [|cbn; lia].
    apply String.eqb_eq in Ec. subst code0.
    unfold slot_pressed in Hb. rewrite H0 in Hb. cbn in Hb.
    injection Hb as <-. rewrite H1. cbn. lia.
Qed.

Lemma step_hidden_kept s e s' :
  Inv s -> step s e = Some s' ->
  loadingScreen_hidden s = true -> loadingScreen_hidden s' = true.
Proof.
  intros H Hstep Hh.
  step_cases H Hstep; subst s'; try rewrite E0;
    try (destruct (cb r)); projs; auto;
    now destruct (S (loaded s) =? total s).
Qed.

(** X14: the loads of a slot are its initial [off] load, present exactly
    when the overlay is hidden, and one load per edge of its key.  So nothing
    else calls [_loadKeyModel], holding a key or releasing a key that is up
    loads nothing, and [_initKeyModels] runs at most once. *)
Theorem key_loads_counted config tr s code ps :
  NoDup (map fst (key_config config)) ->
  configured config code = Some ps ->
  run (init config) tr = Some s ->
  key_loads s code
  = (if loadingScreen_hidden s then 1 else 0) + edges code tr false.
Proof.
  intros Hnd Hc Hrun.
  assert (G : forall tr s0 s b,
             reachable config s0 -> slot_pressed s0 code = Some b ->
             run s0 tr = Some s ->
             key_loads s code + (if loadingScreen_hidden s0 then 1 else 0)
             = key_loads s0 code
               + (if loadingScreen_hidden s then 1 else 0)
               + edges code tr b).
  { clear tr s Hrun. induction tr as [|e tr IH]; intros s0 s b Hr Hb; cbn [run].
    - intros [= <-]. cbn [edges]. lia.
    - destruct (step s0 e) as [s1|] eqn:E; [|discriminate]. intros Hrun.
      pose proof (reachable_Inv _ _ Hr) as H.
      pose proof (step_key_loads config s0 e s1 code b Hnd Hr E Hb) as H1.
      pose proof (step_pressed s0 e s1 code b H E Hb) as Hb1.
      pose proof (IH s1 s _ (reach_step _ _ _ _ Hr E) Hb1 Hrun) as H2.
      pose proof (step_hidden_kept s0 e s1 H E) as Hk.
      assert (Ee : edges code (e :: tr) b
                   = edges code [e] b + edges code tr (last_key code [e] b)).
      { destruct e as [| |c|c|]; cbn [edges last_key]; try lia;
          destruct (String.eqb c code); lia. }
      rewrite Ee.
      destruct (loadingScreen_hidden s0); [rewrite Hk in * by reflexivity|];
        destruct (loadingScreen_hidden s1); cbn [andb negb] in H1; lia. }
  destruct (reachable_slot config (init config) code ps (reach_init _) Hc)
    as (km & Hg & _).
  destruct (init_fields config)
    as (Hreq & _ & _ & _ & _ & _ & _ & _ & _ & Hh & _ & _ & _ & Hslot).
  cbv zeta in Hreq, Hh, Hslot.
  assert (Hb : slot_pressed (init config) code = Some false).
  { unfold slot_pressed. rewrite Hslot.
    rewrite Hslot in Hg. now destruct (get (keyModelsConfig (init config)) code). }
  pose proof (G tr (init config) s false (reach_init _) Hb Hrun) as E.
  rewrite Hh in E. unfold key_loads at 2 in E. rewrite Hreq in E.
  cbn in E. lia.
Qed.

Lemma key_loads_counted_witness :
  NoDup (map fst (key_config car_config)) /\
  configured car_config "Digit1"
  = Some (mkKeyPaths (Some "light_off.glb"%string) (Some "light_on.glb"%string)) /\
  run (init car_config) swapped_events = Some (after car_config swapped_events) /\
  key_loads (after car_config swapped_events) "Digit1" = 1 + 2.
Proof.
  assert (H1 : NoDup (map fst (key_config car_config))).
  { vm_compute. constructor; [intros []|constructor]. }
  assert (H2 : configured car_config "Digit1"
               = Some (mkKeyPaths (Some "light_off.glb"%string)
                         (Some "light_on.glb"%string))) by reflexivity.
  assert (H3 : run (init car_config) swapped_events
               = Some (after car_config swapped_events))
    by (apply run_after; vm_compute; discriminate).
  split; [exact H1|]. split; [exact H2|]. split; [exact H3|].
  assert (Hh : loadingScreen_hidden (after car_config swapped_events) = true)
    by (vm_compute; reflexivity).
  pose proof (key_loads_counted car_config swapped_events _ "Digit1"%string _
                H1 H2 H3) as E.
  rewrite Hh in E. exact E.
Defined.

(** ** The models in the scene are the models counted *)

Lemma filter_remove_child (f : Object3D -> bool) p l :
  (forall o, uid o = uid p -> f o = false) ->
  filter f (remove_child p l) = filter f l.
Proof.
  intros Hf. induction l as [|c l IH]; [reflexivity|].
  cbn [remove_child filter]. destruct (uid c =? uid p) eqn:E.
  - apply Nat.eqb_eq in E. now rewrite (Hf c E).
  - cbn [filter]. now rewrite IH.
Qed.

Lemma step_scene s e s' :
  Inv s -> step s e = Some s' ->
  match e with
  | LoadOk id g =>
      (exists m, uid m = id /\
         ((model_request s id = true /\ scene s' = scene s ++ [m]) \/
          (exists code,
              key_request s code id = true /\
              scene s' = swapped (slot_mesh s code) m (scene s)))) \/
      scene s' = scene s
  | _ => scene s' = scene s
  end.
Proof.
  intros H Hstep. destruct e as [id g|id|code|code|d].
  - pose proof (step_effect _ _ _ H Hstep) as E. cbv beta iota in E.
    destruct E as (Hin & r & Hn & E).
    destruct r as [p0 [|i|code p]]; cbn [cb] in E.
    + destruct E as (-> & Ho & _ & E). cbv zeta in E. subst s'. left.
      eexists. split.
      2:{ left. split; [|projs; reflexivity].
          unfold model_request. now rewrite Hn. }
      reflexivity.
    + destruct E as (sc & offset & _ & _ & ->). left.
      eexists. split.
      2:{ left. split; [|projs; reflexivity].
          unfold model_request. now rewrite Hn. }
      reflexivity.
    + destruct E as (km & Hg & [(sc & offset & _ & _ & ->)|(_ & _ & _ & ->)]);
        [|now right].
      left. eexists. split.
      2:{ right. exists code. split.
          - unfold key_request. rewrite Hn. apply String.eqb_refl.
          - unfold swapped, slot_mesh. rewrite Hg. projs. reflexivity. }
      reflexivity.
  - apply step_LoadErr in Hstep. destruct Hstep as (r & _ & _ & ->).
    now destruct (cb r).
  - injection Hstep as <-.
    now destruct (keydown_cases code s) as [->|(km & _ & _ & ->)].
  - injection Hstep as <-.
    now destruct (keyup_cases code s) as [->|(km & _ & _ & ->)].
  - injection Hstep as <-. now destruct (animate_cases d s) as [->| ->].
Qed.

Lemma step_models s e s' :
  Inv s -> step s e = Some s' ->
  List.length (models s')
  = List.length (models s)
    + match e with
      | LoadOk id _ => if model_request s id then 1 else 0
      | _ => 0
      end.
Proof.
  intros H Hstep.
  destruct (step_requests s e s' H Hstep) as [rs Hrs].
  assert (Hold : forall l,
             (forall o, In o l -> In o (scene s)) ->
             filter (fun o => model_request s' (uid o)) l
             = filter (fun o => model_request s (uid o)) l).
  { intros l Hl. apply filter_ext_in. intros o Ho.
    apply (model_request_old s s' rs (uid o) Hrs).
    apply (inv_scene s H o (Hl o Ho)). }
  pose proof (step_scene s e s' H Hstep) as Hs. unfold models.
  destruct e as [id g|id|code|code|d];
    try (rewrite Hs, Hold by auto; lia).
  assert (Hid : model_request s' id = model_request s id).
  { apply (model_request_old s s' rs id Hrs).
    apply step_LoadOk in Hstep. destruct Hstep as (r & Hin & _).
    now apply (inv_pending_lt s H). }
  destruct Hs as [(m & Hu & [[Hm ->]|(code & Hk & ->)])|Hs].
  - rewrite filter_app, length_app, Hold by auto.
    cbn [filter]. rewrite Hu, Hid, Hm. reflexivity.
  - rewrite (key_request_model s code id Hk). unfold swapped.
    rewrite filter_app, length_app. cbn [filter].
    rewrite Hu, Hid, (key_request_model s code id Hk). cbn [List.length].
    destruct (slot_mesh s code) as [prev|] eqn:Hp.
    + destruct (inv_mesh_in s H code prev Hp) as [Hpin Hpk].
      rewrite filter_remove_child.
      * rewrite Hold by auto. lia.
      * intros o Ho. rewrite Ho.
        rewrite (model_request_old s s' rs (uid prev) Hrs).
        -- now apply (key_request_model s code).
        -- apply (inv_scene s H prev Hpin).
    + rewrite Hold by auto. lia.
  - rewrite Hs, Hold by auto.
    destruct (model_request s id) eqn:Hm; [|lia].
    (* a model never throws *)
    exfalso. pose proof (step_effect _ _ _ H Hstep) as E. cbv beta iota in E.
    destruct E as (Hin & r & Hn & E). unfold model_request in Hm.
    rewrite Hn in Hm.
    destruct r as [p0 [|i|code p]]; cbn [cb] in E; try discriminate.
    + destruct E as (-> & Ho & _ & E). cbv zeta in E.
      apply (f_equal (fun x => List.length (scene x))) in E.
      revert E. projs. rewrite Hs, length_app. cbn. lia.
    + destruct E as (sc & offset & _ & _ & E).
      apply (f_equal (fun x => List.length (scene x))) in E.
      revert E. projs. rewrite Hs, length_app. cbn. lia.
Qed.

(** X15: the models of [loadModels] in the scene are as many as the count
    [loaded], and every other object of the scene is the mesh of a key
    slot. *)
Theorem models_counted config s :
  reachable config s ->
  List.length (models s) = loaded s /\
  forall o, In o (scene s) ->
    model_request s (uid o) = true \/
    exists code, slot_mesh s code = Some o.
Proof.
  intros Hr. split.
  - induction Hr as [|s e s' Hr IH Hstep].
    + destruct (init_fields config) as (_ & _ & _ & _ & Hs & _ & Hl & _).
      cbv zeta in Hs, Hl. unfold models. now rewrite Hs, Hl.
    + pose proof (reachable_Inv _ _ Hr) as H.
      rewrite (step_models s e s' H Hstep), (step_loaded s e s' H Hstep), IH.
      reflexivity.
  - intros o Ho. pose proof (reachable_Inv _ _ Hr) as H.
    destruct (inv_scene s H o Ho) as (Hlt & _).
    unfold model_request.
    destruct (nth_error (requests s) (uid o)) as [[p0 [|i|code p]]|] eqn:En;
      auto.
    + right. exists code. apply (inv_resident s H o code Ho).
      unfold key_request. rewrite En. apply String.eqb_refl.
    + apply nth_error_None in En. lia.
Qed.

Lemma models_counted_witness :
  reachable car_config reversed_done /\
  List.length (models reversed_done) = loaded reversed_done /\
  forall o, In o (scene reversed_done) ->
    model_request reversed_done (uid o) = true \/
    exists code, slot_mesh reversed_done code = Some o.
Proof.
  assert (H1 : reachable car_config reversed_done)
    by (apply after_reachable; vm_compute; discriminate).
  split; [exact H1|].
  exact (models_counted car_config reversed_done H1).
Defined.

(** ** Every path is counted, in flight or failed *)

Lemma run_accounted config s0 tr s :
  reachable config s0 -> run s0 tr = Some s ->
  loaded s + List.length (model_pending s) + List.length (failed s tr)
  = loaded s0 + List.length (model_pending s0)
    + List.length (filter base_delivered tr) * (total s0 - 1).
Proof.
  revert s0. induction tr as [|e tr IH]; intros s0 Hr; cbn [run].
  - intros [= <-]. cbn. lia.
  - destruct (step s0 e) as [s1|] eqn:E; [|discriminate]. intros Hrun.
    pose proof (reachable_Inv _ _ Hr) as H.
    assert (Hr1 : reachable config s1) by (eapply reach_step; eauto).
    pose proof (IH s1 Hr1 Hrun) as H1.
    pose proof (step_outstanding s0 e s1 H E) as H2.
    destruct (step_same_settings s0 e s1 H E) as (_ & _ & _ & _ & Hmp & _).
    assert (Et : total s1 = total s0) by (unfold total; now rewrite Hmp).
    rewrite Et in H1. unfold failed in *. cbn [filter].
    destruct e as [id g|id|code|code|d]; cbn [base_delivered] in *;
      try (cbn [List.length]; lia).
    + destruct id; cbn [List.length]; lia.
    + assert (Hm : model_request s id = model_request s0 id).
      { destruct (run_requests config s0 (LoadErr id :: tr) s Hr) as [rs Hrs].
        - cbn [run]. now rewrite E.
        - apply model_request_old with (rs := rs); auto.
          apply step_LoadErr in E. destruct E as (r & Hin & _).
          now apply (inv_pending_lt s0 H). }
      rewrite Hm. destruct (model_request s0 id); cbn [List.length]; lia.
Qed.

(** X16: every path is counted, in flight or failed.  After a run in which
    the base model was delivered, the models counted, the loads of
    [loadModels] in flight and those that failed add up to the number of
    paths (to 1 for an empty array); before that they add up to 1.  So with
    at least one path the overlay is hidden exactly when no load of
    [loadModels] is in flight and none has failed. *)
Theorem models_accounted config tr s :
  run (init config) tr = Some s ->
  loaded s + List.length (model_pending s) + List.length (failed s tr)
  = match filter base_delivered tr with
    | [] => 1
    | _ => Nat.max 1 (total s)
    end /\
  (1 <= total s ->
   (loadingScreen_hidden s = true <->
    model_pending s = [] /\ failed s tr = [])).
Proof.
  intros Hrun.
  assert (Hr : reachable config s)
    by (eapply run_reachable; [apply reach_init|exact Hrun]).
  pose proof (reachable_Inv _ _ Hr) as H.
  pose proof (run_accounted config (init config) tr s (reach_init _) Hrun) as A.
  destruct (init_fields config)
    as (Hreq & Hp & _ & _ & _ & _ & Hl & _).
  cbv zeta in Hreq, Hp, Hl.
  assert (H0 : loaded (init config) + List.length (model_pending (init config))
               = 1).
  { unfold model_pending, model_request. rewrite Hl, Hp, Hreq. reflexivity. }
  destruct (reachable_settings config s Hr) as (_ & _ & _ & _ & Hmp & _).
  assert (Et : total (init config) = total s) by (unfold total; now rewrite Hmp).
  rewrite H0, Et in A.
  assert (Hp0 : In 0 (pending (init config))) by (rewrite Hp; now left).
  destruct (run_base_pending config (init config) tr s (reach_init _) Hp0 Hrun)
    as (B & C & _).
  assert (Hsum : loaded s + List.length (model_pending s)
                 + List.length (failed s tr)
                 = match filter base_delivered tr with
                   | [] => 1
                   | _ => Nat.max 1 (total s)
                   end).
  { rewrite A. destruct (filter base_delivered tr) as [|e [|e' l]];
      cbn [List.length] in *; lia. }
  split; [exact Hsum|].
  intros Hn. split.
  - intros Hh. destruct (inv_hidden s H Hh) as [Hlt Hl1].
    destruct (filter base_delivered tr) as [|e l] eqn:Ef.
    + specialize (C eq_refl). injection C as _ Ho.
      destruct (inv_noframe s H Ho) as (_ & Hz & _). lia.
    + split; apply length_zero_iff_nil; lia.
  - intros [Hm Hf]. rewrite Hm, Hf in Hsum. cbn [List.length] in Hsum.
    destruct (filter base_delivered tr) as [|e l] eqn:Ef.
    + specialize (C eq_refl). injection C as _ Ho.
      destruct (inv_noframe s H Ho) as (_ & Hz & _). lia.
    + destruct (inv_progress s H) as (_ & _ & Hhid); [lia|].
      apply Hhid. lia.
Qed.

Lemma models_accounted_witness :
  run (init car_config) [LoadOk 0 box_asset; LoadErr 1]
  = Some (after car_config [LoadOk 0 box_asset; LoadErr 1]) /\
  loaded (after car_config [LoadOk 0 box_asset; LoadErr 1])
  + List.length (model_pending (after car_config [LoadOk 0 box_asset; LoadErr 1]))
  + List.length
      (failed (after car_config [LoadOk 0 box_asset; LoadErr 1])
         [LoadOk 0 box_asset; LoadErr 1])
  = 2 /\
  List.length
    (failed (after car_config [LoadOk 0 box_asset; LoadErr 1])
       [LoadOk 0 box_asset; LoadErr 1]) = 1 /\
  loadingScreen_hidden (after car_config [LoadOk 0 box_asset; LoadErr 1])
  = false.
Proof.
  assert (H1 : run (init car_config) [LoadOk 0 box_asset; LoadErr 1]
               = Some (after car_config [LoadOk 0 box_asset; LoadErr 1]))
    by (apply run_after; vm_compute; discriminate).
  split; [exact H1|].
  split; [exact (proj1 (models_accounted car_config _ _ H1))|].
  split; vm_compute; reflexivity.
Defined.

(** ** The frame loop does not interfere *)

Lemma rewind_new_mixers id g : map rewind (new_mixers id g) = new_mixers id g.
Proof. unfold new_mixers. now destruct (animations g). Qed.

Lemma timeless_animate d s : timeless (animate d s) = timeless s.
Proof.
  unfold animate, timeless. projs.
  destruct (autoRotate s); projs; rewrite map_map; reflexivity.
Qed.

Ltac timeless_eq :=
  unfold timeless, key_requests, secondary_requests, total; projs;
  rewrite ?map_app, ?rewind_new_mixers; reflexivity.

Lemma onLoad_base_timeless id g s :
  onLoad_base id g (timeless s) = timeless (onLoad_base id g s).
Proof.
  rewrite !onLoad_base_eq. cbv zeta. rewrite !_updateProgress_eq. timeless_eq.
Qed.

Lemma onLoad_secondary_timeless id g s :
  onLoad_secondary id g (timeless s) = timeless (onLoad_secondary id g s).
Proof.
  destruct (_globalOffset s) as [offset|] eqn:Ho.
  - rewrite !onLoad_secondary_eq with (offset := offset) by exact Ho.
    cbv zeta. rewrite !_updateProgress_eq. timeless_eq.
  - unfold onLoad_secondary.
    change (_globalOffset (timeless s)) with (_globalOffset s).
    rewrite Ho. reflexivity.
Qed.

Lemma onLoad_key_timeless id code g s :
  onLoad_key id code g (timeless s) = timeless (onLoad_key id code g s).
Proof.
  unfold onLoad_key. change (keyModels (timeless s)) with (keyModels s).
  destruct (get (keyModels s) code) as [km|]; [|reflexivity].
  destruct (_globalOffset s) as [offset|] eqn:Ho.
  - rewrite !swap_in_eq with (offset := offset) by exact Ho.
    cbv zeta. timeless_eq.
  - rewrite !swap_in_throw by exact Ho. now destruct (mesh km).
Qed.

Lemma step_timeless s e :
  is_frame e = false ->
  step (timeless s) e = option_map timeless (step s e).
Proof.
  intros Hf. destruct e as [id g|id|code|code|d]; try discriminate;
    cbn [step option_map].
  - change (is_pending id (timeless s)) with (is_pending id s).
    change (requests (timeless s)) with (requests s).
    destruct (is_pending id s); [|reflexivity].
    destruct (nth_error (requests s) id) as [[p0 [|i|code p]]|]; cbn [cb];
      [| | |reflexivity]; cbn [option_map]; f_equal;
      change (settle id (timeless s)) with (timeless (settle id s)).
    + apply onLoad_base_timeless.
    + apply onLoad_secondary_timeless.
    + apply onLoad_key_timeless.
  - change (is_pending id (timeless s)) with (is_pending id s).
    change (requests (timeless s)) with (requests s).
    destruct (is_pending id s); [|reflexivity].
    destruct (nth_error (requests s) id) as [r|]; [|reflexivity].
    cbn [option_map]. f_equal. now destruct (cb r).
  - f_equal. unfold keydown.
    change (keyModels (timeless s)) with (keyModels s).
    destruct (get (keyModels s) code) as [km|] eqn:Hg; [|reflexivity].
    destruct (pressed km); [reflexivity|]. cbn [negb].
    unfold _swapKeyModel. projs. rewrite !get_put_same. reflexivity.
  - f_equal. unfold keyup.
    change (keyModels (timeless s)) with (keyModels s).
    destruct (get (keyModels s) code) as [km|] eqn:Hg; [|reflexivity].
    destruct (pressed km); [|reflexivity].
    unfold _swapKeyModel. projs. rewrite !get_put_same. reflexivity.
Qed.

Lemma run_timeless tr :
  forall s, run (timeless s) (no_frames tr) = option_map timeless (run s tr)
  \/ run s tr = None.
Proof.
  induction tr as [|e tr IH]; intros s; [now left|].
  cbn [run no_frames filter].
  destruct (is_frame e) eqn:Ef; cbn [negb].
  - destruct e as [| | | |d]; try discriminate. cbn [step].
    fold (no_frames tr). rewrite <- (timeless_animate d s). apply IH.
  - cbn [run]. fold (no_frames tr). rewrite (step_timeless s e Ef).
    destruct (step s e) as [s1|]; cbn [option_map]; [apply IH|now right].
Qed.

Lemma no_frames_idem tr : no_frames (no_frames tr) = no_frames tr.
Proof.
  unfold no_frames. induction tr as [|e tr IH]; [reflexivity|].
  cbn [filter]. destruct (is_frame e) eqn:Ef; cbn [negb filter]; auto.
  rewrite Ef. cbn [negb]. now rewrite IH.
Qed.

Lemma run_from_timeless tr :
  no_frames tr = tr ->
  forall s0 t0,
    run (timeless s0) tr = Some t0 ->
    exists t, run s0 tr = Some t /\ timeless t = t0.
Proof.
  induction tr as [|e tr IH]; intros Hnf s0 t0; cbn [run].
  - intros [= <-]. eauto.
  - assert (Hf : is_frame e = false /\ no_frames tr = tr).
    { unfold no_frames in Hnf. cbn [filter] in Hnf.
      destruct (is_frame e) eqn:Ef; cbn [negb] in Hnf.
      - exfalso.
        assert (Hl : List.length (filter (fun e => negb (is_frame e)) tr)
                     <= List.length tr) by apply filter_length_le.
        rewrite Hnf in Hl. cbn in Hl. lia.
      - injection Hnf as Hnf. auto. }
    destruct Hf as [Hf Hnf']. rewrite (step_timeless s0 e Hf).
    destruct (step s0 e) as [s1|]; cbn [option_map]; [|discriminate].
    now apply IH.
Qed.

(** X17: the frame loop does not interfere.  A run and the same run without
    its turns of [animate] end in states that differ at most in the clocks
    of the mixers and in the angle of the scene: what is requested, in
    flight, counted, shown, pressed or logged does not depend on when or how
    often a frame was drawn. *)
Theorem frames_do_not_interfere config tr s :
  run (init config) tr = Some s ->
  exists t,
    run (init config) (no_frames tr) = Some t /\ timeless t = timeless s.
Proof.
  intros Hrun.
  destruct (run_timeless tr (init config)) as [E|E]; [|congruence].
  rewrite Hrun in E. cbn [option_map] in E.
  exact (run_from_timeless (no_frames tr) (no_frames_idem tr) _ _ E).
Qed.

Lemma frames_do_not_interfere_witness :
  run (init car_config)
    [Frame (of_Z 1); LoadOk 0 box_asset; Frame (of_Z 2); KeyDown "Digit1"]
  = Some (after car_config
            [Frame (of_Z 1); LoadOk 0 box_asset; Frame (of_Z 2);
             KeyDown "Digit1"]) /\
  exists t,
    run (init car_config) [LoadOk 0 box_asset; KeyDown "Digit1"] = Some t /\
    timeless t
    = timeless
        (after car_config
           [Frame (of_Z 1); LoadOk 0 box_asset; Frame (of_Z 2);
            KeyDown "Digit1"]).
Proof.
  assert (H1 : run (init car_config)
                 [Frame (of_Z 1); LoadOk 0 box_asset; Frame (of_Z 2);
                  KeyDown "Digit1"]
               = Some (after car_config
                         [Frame (of_Z 1); LoadOk 0 box_asset; Frame (of_Z 2);
                          KeyDown "Digit1"]))
    by (apply run_after; vm_compute; discriminate).
  split; [exact H1|].
  exact (frames_do_not_interfere car_config _ _ H1).
Defined.


(** X18: what stops [init] before [loadModels].  On a page without the
    element of the loading screen [init] stops with a [TypeError] in
    [initLoadingScreen], whatever else is missing; with that element and no
    [config.cameraPosition] it stops in [initScene] where the camera is
    placed; with both and no container it stops in [initScene] where the
    canvas is appended.  In the three cases [loadModels] is not reached. *)
Theorem init_requirements w page o :
  (has_loadingScreen page = false ->
   init_on w page o = Some Null_loadingScreen) /\
  (has_loadingScreen page = true -> opt_cameraPosition o = None ->
   init_on w page o = Some Undefined_cameraPosition) /\
  (has_loadingScreen page = true -> opt_cameraPosition o <> None ->
   has_container page = false ->
   init_on w page o = Some Null_container).
Proof.
  unfold init_on, initLoadingScreen, initScene.
  destruct (has_loadingScreen page), (opt_cameraPosition o) as [p|],
    (has_container page); cbn [negb];
    repeat split; intros; congruence.
Qed.

Lemma init_requirements_witness :
  init_on demo_window (mkPage true false true true) demo_options
  = Some Null_loadingScreen /\
  init_on demo_window demo_page
    (mkOptions (opt_loaders demo_options) (opt_debug demo_options) None
       (opt_lightIntensity demo_options)
       (opt_ambientLightIntensity demo_options)
       (opt_enableControls demo_options) (opt_controls demo_options)
       (opt_shadowAngle demo_options))
  = Some Undefined_cameraPosition /\
  init_on demo_window (mkPage false true true true) demo_options
  = Some Null_container.
Proof.
  split; [|split].
  - apply (proj1 (init_requirements demo_window
                    (mkPage true false true true) demo_options)).
    reflexivity.
  - apply (proj1 (proj2 (init_requirements demo_window demo_page _)));
      reflexivity.
  - apply (proj2 (proj2 (init_requirements demo_window
                           (mkPage false true true true) demo_options))).
    + reflexivity.
    + discriminate.
    + reflexivity.
Defined.

(** ** The options of the controls *)

Lemma get_spread {V : Type} (a b : JSObject V) k :
  NoDup (map fst b) ->
  get (spread a b) k
  = match get b k with
    | Some v => Some v
    | None => get a k
    end.
Proof.
  unfold spread. revert a. induction b as [|[k' v'] b IH]; intros a Hnd.
  - reflexivity.
  - cbn [map fst] in Hnd. apply NoDup_cons_iff in Hnd. destruct Hnd as [Hk Hnd].
    cbn [fold_left fst snd get]. rewrite (IH _ Hnd), get_put.
    destruct (String.eqb k' k) eqn:E.
    + apply String.eqb_eq in E. subst k'.
      rewrite get_None_keys by exact Hk. reflexivity.
    + reflexivity.
Qed.

Lemma put_same {V : Type} (o : JSObject V) k v :
  get o k = Some v -> put o k v = o.
Proof.
  induction o as [|[k' v'] o IH]; cbn [get put]; [discriminate|].
  destruct (String.eqb k' k) eqn:E.
  - intros [= ->]. reflexivity.
  - intros H. now rewrite IH.
Qed.

Lemma put_keys {V : Type} (o : JSObject V) k v :
  map fst (put o k v)
  = match get o k with
    | Some _ => map fst o
    | None => map fst o ++ [k]
    end.
Proof.
  induction o as [|[k' v'] o IH]; cbn [get put map fst app]; [reflexivity|].
  destruct (String.eqb k' k); [reflexivity|].
  cbn [map fst]. rewrite IH. now destruct (get o k).
Qed.

Lemma put_nodup {V : Type} (o : JSObject V) k v :
  NoDup (map fst o) -> NoDup (map fst (put o k v)).
Proof.
  intros Hnd. rewrite put_keys. destruct (get o k) eqn:E; [exact Hnd|].
  apply NoDup_app; [exact Hnd|repeat constructor; intros []|].
  intros x Hx [Hk|[]]. subst x.
  apply in_map_iff in Hx. destruct Hx as ([k' v'] & Hk & Hin).
  cbn in Hk. subst k'.
  rewrite (get_In o k v' Hnd Hin) in E. discriminate.
Qed.

Lemma spread_nodup {V : Type} (a b : JSObject V) :
  NoDup (map fst a) -> NoDup (map fst (spread a b)).
Proof.
  unfold spread. revert a. induction b as [|[k v] b IH]; intros a Hnd; auto.
  cbn [fold_left]. apply IH. now apply put_nodup.
Qed.

(** X19: the options of the controls.  With [enableControls] off there are
    no controls; otherwise the class assigns to them exactly the merged
    options: an option given in [config.controls] (also one the class does
    not know) wins over the default of the class, a default that is not
    overridden is kept.  The two assignments of [enablePan] and [enableZoom]
    after [Object.assign] change nothing. *)
Theorem controls_precedence w page o v :
  let given := match opt_controls o with Some c => c | None => [] end in
  initScene w page o = inr v -> NoDup (map fst given) ->
  controls v
  = (if enableControls o then Some (spread [] (controlsConfig o)) else None) /\
  forall ctl k,
    controls v = Some ctl ->
    get ctl k
    = match get given k with
      | Some x => Some x
      | None => get controls_defaults k
      end.
Proof.
  intros given Hv Hnd.
  assert (Hcc : forall k,
             get (controlsConfig o) k
             = match get given k with
               | Some x => Some x
               | None => get controls_defaults k
               end).
  { intros k. unfold controlsConfig. now apply get_spread. }
  assert (Hndc : NoDup (map fst (controlsConfig o))).
  { apply spread_nodup. vm_compute.
    repeat (constructor; [cbn; intuition discriminate|]). constructor. }
  assert (Hctl : forall k, get (spread [] (controlsConfig o)) k
                           = get (controlsConfig o) k).
  { intros k. rewrite get_spread by exact Hndc.
    now destruct (get (controlsConfig o) k). }
  assert (E : controls v
              = if enableControls o
                then Some (spread [] (controlsConfig o)) else None).
  { unfold initScene in Hv.
    destruct (opt_cameraPosition o); [|discriminate].
    destruct (has_container page); [|discriminate].
    injection Hv as <-. cbn [controls].
    destruct (enableControls o); [|reflexivity]. f_equal.
    assert (Hp : forall k d,
               get controls_defaults k = Some d ->
               put (spread [] (controlsConfig o)) k (prop (controlsConfig o) k)
               = spread [] (controlsConfig o)).
    { intros k d Hd. apply put_same. rewrite Hctl. unfold prop.
      rewrite Hcc. destruct (get given k); [reflexivity|]. now rewrite Hd. }
    rewrite (Hp "enablePan"%string (VBool true) eq_refl).
    apply (Hp "enableZoom"%string (VBool true) eq_refl). }
  split; [exact E|].
  intros ctl k Hc. rewrite E in Hc.
  destruct (enableControls o); [|discriminate].
  injection Hc as <-. now rewrite Hctl.
Qed.

Lemma controls_precedence_witness :
  initScene demo_window demo_page demo_options = inr demo_view /\
  NoDup (map fst [("enablePan"%string, VBool false)]) /\
  controls demo_view = Some (spread [] (controlsConfig demo_options)) /\
  forall ctl k,
    controls demo_view = Some ctl ->
    get ctl k
    = match get [("enablePan"%string, VBool false)] k with
      | Some x => Some x
      | None => get controls_defaults k
      end.
Proof.
  assert (H1 : initScene demo_window demo_page demo_options = inr demo_view)
    by reflexivity.
  assert (H2 : NoDup (map fst [("enablePan"%string, VBool false)])).
  { constructor; [intros []|constructor]. }
  split; [exact H1|]. split; [exact H2|].
  exact (controls_precedence demo_window demo_page demo_options demo_view
           H1 H2).
Defined.

(** ** The view and the window *)

Lemma resized_snoc ws w v :
  resized (ws ++ [w]) v = onWindowResize w (resized ws v).
Proof. unfold resized. now rewrite fold_left_app. Qed.

Lemma div_zero_not_finite a : isFinite (div a (of_Z 0)) = false.
Proof.
  destruct a as [q| | |]; try reflexivity.
  unfold div, of_Z. rewrite sgn_qz. cbn. now destruct (sgn q).
Qed.

(** X20: the view fits the window.  After [initScene] and after any number
    of resizes the aspect of the camera is the width of the latest window
    over its height, the projection matrix is computed for this aspect and
    the renderer has this size; a window of height 0 gives an aspect that is
    not finite (nothing guards the division).  A resize touches neither the
    controls, nor the fixtures, nor the shadow map. *)
Theorem view_fits_window w0 page o v0 ws :
  initScene w0 page o = inr v0 ->
  let v := resized ws v0 in
  let w := last_window w0 ws in
  aspect (camera v) = div (innerWidth w) (innerHeight w) /\
  projection_aspect (camera v) = aspect (camera v) /\
  width (renderer v) = innerWidth w /\ height (renderer v) = innerHeight w /\
  aspect (camera v) = div (width (renderer v)) (height (renderer v)) /\
  (innerHeight w = of_Z 0 -> isFinite (aspect (camera v)) = false) /\
  controls v = controls v0 /\ children v = children v0 /\
  shadowMap_enabled (renderer v) = shadowMap_enabled (renderer v0).
Proof.
  intros Hv v w. subst v w.
  assert (H0 : aspect (camera v0) = div (innerWidth w0) (innerHeight w0) /\
               projection_aspect (camera v0) = aspect (camera v0) /\
               width (renderer v0) = innerWidth w0 /\
               height (renderer v0) = innerHeight w0).
  { unfold initScene in Hv.
    destruct (opt_cameraPosition o); [|discriminate].
    destruct (has_container page); [|discriminate].
    injection Hv as <-. cbn.
    now destruct (cfg_enabledShadow (opt_loaders o)). }
  assert (G : aspect (camera (resized ws v0))
              = div (innerWidth (last_window w0 ws))
                  (innerHeight (last_window w0 ws)) /\
              projection_aspect (camera (resized ws v0))
              = aspect (camera (resized ws v0)) /\
              width (renderer (resized ws v0)) = innerWidth (last_window w0 ws) /\
              height (renderer (resized ws v0)) = innerHeight (last_window w0 ws) /\
              controls (resized ws v0) = controls v0 /\
              children (resized ws v0) = children v0 /\
              shadowMap_enabled (renderer (resized ws v0))
              = shadowMap_enabled (renderer v0)).
  { induction ws as [|w ws IH] using rev_ind.
    - cbn. tauto.
    - rewrite resized_snoc. unfold last_window. rewrite last_last.
      destruct IH as (_ & _ & _ & _ & A & B & C). cbn. repeat split; auto. }
  destruct G as (A & B & C & D & E & F & K).
  repeat split; auto.
  - now rewrite A, C, D.
  - intros Hz. rewrite A, Hz. apply div_zero_not_finite.
Qed.

Lemma view_fits_window_witness :
  initScene demo_window demo_page demo_options = inr demo_view /\
  let v :=
    resized [mkWindow (of_Z 1024) (of_Z 768); mkWindow (of_Z 640) (of_Z 0)]
      demo_view in
  aspect (camera v) = PInf /\
  projection_aspect (camera v) = aspect (camera v) /\
  width (renderer v) = of_Z 640 /\ height (renderer v) = of_Z 0.
Proof.
  assert (H1 : initScene demo_window demo_page demo_options = inr demo_view)
    by reflexivity.
  split; [exact H1|].
  destruct (view_fits_window demo_window demo_page demo_options demo_view
              [mkWindow (of_Z 1024) (of_Z 768); mkWindow (of_Z 640) (of_Z 0)]
              H1) as (A & B & C & D & _).
  cbv zeta. split; [|split; [exact B|split; [exact C|exact D]]].
  rewrite A. vm_compute. reflexivity.
Defined.

(** ** Shadows *)

(** X21: shadows are all or nothing.  With [enabledShadow] the shadow map of
    the renderer is on, one light casts shadows and one plane receives them;
    without it the map is off, no light casts and there is no plane.  The
    helper of the light needs [debug] and [enabledShadow] together.  The
    scene starts with four lights and these. *)
Theorem shadows_all_or_nothing w page o v :
  initScene w page o = inr v ->
  let shadows := cfg_enabledShadow (opt_loaders o) in
  shadowMap_enabled (renderer v) = shadows /\
  List.length (casting (children v)) = (if shadows then 1 else 0) /\
  List.length (receiving (children v)) = (if shadows then 1 else 0) /\
  List.length (helpers (children v))
  = (if shadows && opt_debug o then 1 else 0) /\
  List.length (children v)
  = 4 + (if shadows then (if opt_debug o then 2 else 1) else 0).
Proof.
  intros Hv shadows. subst shadows. unfold initScene in Hv.
  destruct (opt_cameraPosition o); [|discriminate].
  destruct (has_container page); [|discriminate].
  injection Hv as <-. cbn [renderer children]. unfold fixtures.
  destruct (cfg_enabledShadow (opt_loaders o)), (opt_debug o); cbn;
    repeat split.
Qed.

Lemma shadows_all_or_nothing_witness :
  initScene demo_window demo_page demo_options = inr demo_view /\
  shadowMap_enabled (renderer demo_view) = false /\
  List.length (casting (children demo_view)) = 0 /\
  List.length (receiving (children demo_view)) = 0 /\
  List.length (helpers (children demo_view)) = 0 /\
  List.length (children demo_view) = 4 + 0.
Proof.
  assert (H1 : initScene demo_window demo_page demo_options = inr demo_view)
    by reflexivity.
  split; [exact H1|].
  exact (shadows_all_or_nothing demo_window demo_page demo_options demo_view H1).
Defined.

(** ** The overlay on a page *)

Lemma _updateProgress_on_complete page ld tot s :
  has_progress page = true -> has_loadingText page = true ->
  _updateProgress_on page ld tot s = inr (_updateProgress ld tot s).
Proof.
  intros Hp Ht. unfold _updateProgress_on, _updateProgress. now rewrite Hp, Ht.
Qed.

(** X22: [_updateProgress] needs the elements ['#progress'] and
    ['#loading-text'].  On a page with both, the callback of the base model
    is the one of the state machine.  On a page that lacks one of them it
    throws inside [_updateProgress]: the frame is set, the base model is in
    the scene, animated and counted, but the loop of [paths[1..]] is never
    reached (no load is issued), the overlay is not hidden and its text is
    not written. *)
Theorem overlay_elements_needed page id g s :
  (has_progress page = true -> has_loadingText page = true ->
   onLoad_base_on page id g s = onLoad_base id g s) /\
  (has_progress page && has_loadingText page = false ->
   let s' := onLoad_base_on page id g s in
   let model0 := set_rotation (modelRotation s) (gltf_scene id g) in
   frame s' = (Some (frame_scale model0), Some (frame_offset model0)) /\
   scene s'
   = scene s ++ [placed id g (modelRotation s) (frame_scale model0)
                   (frame_offset model0) (enabledShadow s)] /\
   mixers s' = mixers s ++ new_mixers id g /\
   loaded s' = S (loaded s) /\
   console s' = console s ++ [TypeError id] /\
   requests s' = requests s /\
   loadingScreen_hidden s' = loadingScreen_hidden s /\
   loadingText s' = loadingText s).
Proof.
  split.
  - intros Hp Ht. unfold onLoad_base_on, onLoad_base, onLoad_base_place.
    cbv zeta. rewrite _updateProgress_on_complete by assumption. reflexivity.
  - intros Hm s' model0. subst s' model0.
    unfold onLoad_base_on, onLoad_base_counted, _updateProgress_on. cbv zeta.
    rewrite bind_animations_eq. unfold frame.
    destruct (has_progress page); cbn [andb] in Hm;
      [rewrite Hm|]; projs; repeat split.
Qed.

Lemma overlay_elements_needed_witness :
  onLoad_base_on demo_page 0 box_asset (settle 0 (init car_config))
  = onLoad_base 0 box_asset (settle 0 (init car_config)) /\
  let s' :=
    onLoad_base_on (mkPage true true false true) 0 box_asset
      (settle 0 (init car_config)) in
  loaded s' = 1 /\ console s' = [TypeError 0] /\
  requests s' = requests (init car_config) /\
  loadingScreen_hidden s' = false.
Proof.
  split.
  - apply (proj1 (overlay_elements_needed demo_page 0 box_asset
                    (settle 0 (init car_config)))); reflexivity.
  - destruct (proj2 (overlay_elements_needed (mkPage true true false true) 0
                       box_asset (settle 0 (init car_config))) eq_refl)
      as (_ & _ & _ & A & B & C & D & _).
    cbv zeta. split; [exact A|]. split; [exact B|]. split; [exact C|exact D].
Defined.

(** ** The first revision is the class without key models *)








